(** * CasADi symbolic core: SXElement construction and simplification,
      sparse matrix concatenation/splitting, determinant, unite and pinv.

    Shallow embedding of [casadi/core/sx/sx_element.cpp] and
    [symbolic/matrix/matrix_tools.hpp]. *)

From Stdlib Require Import ZArith Lia List Bool String SpecFloat Sorting.Sorted.
Import ListNotations.

(** ** Errors raised by [casadi_assert] / [casadi_error] / [throw]. *)

Inductive casadi_error :=
  | DimensionError      (* non-square input, row/column mismatch *)
  | PreconditionError   (* malformed split offsets *)
  | InvariantViolation  (* overlapping patterns in unite *)
  | TypeError           (* truth value of a symbolic expression *)
  | IndexError          (* out-of-range access *)
  | OutOfFuel.          (* recursion bound of the model exhausted *)

Inductive res (A : Type) :=
  | Ok (a : A)
  | Err (e : casadi_error).
Arguments Ok {A} a.
Arguments Err {A} e.

Definition res_bind {A B} (r : res A) (k : A -> res B) : res B :=
  match r with Ok a => k a | Err e => Err e end.

(** ** IEEE-754 binary64 values. *)

Module Double.

Definition prec : Z := 53.
Definition emax : Z := 1024.
Definition double := spec_float.

Definition d_zero : double := S754_zero false.
Definition d_nan : double := S754_nan.
Definition d_inf : double := S754_infinity false.
Definition d_minus_inf : double := S754_infinity true.

(** [static_cast<double>(int)] *)
Definition d_of_Z (z : Z) : double := binary_normalize prec emax z 0 false.

Definition d_one : double := Eval vm_compute in d_of_Z 1.
Definition d_two : double := Eval vm_compute in d_of_Z 2.
Definition d_minus_one : double := Eval vm_compute in d_of_Z (-1).
Definition d_half : double := Eval vm_compute in binary_normalize prec emax 1 (-1) false.

Definition d_add := SFadd prec emax.
Definition d_sub := SFsub prec emax.
Definition d_mul := SFmul prec emax.
Definition d_div := SFdiv prec emax.
Definition d_sqrt := SFsqrt prec emax.
Definition d_opp := SFopp.
(** C++ [==] and [<] on doubles. *)
Definition d_eqb := SFeqb.
Definition d_ltb := SFltb.

Definition isnan (v : double) : bool :=
  match v with S754_nan => true | _ => false end.
Definition isinf (v : double) : bool :=
  match v with S754_infinity _ => true | _ => false end.

(** Exact integer value of a double, when it is finite and integral. *)
Definition d_int_value (v : double) : option Z :=
  match v with
  | S754_zero _ => Some 0%Z
  | S754_finite s m e =>
      if (0 <=? e)%Z then Some (if s then - (Z.pos m * 2 ^ e) else Z.pos m * 2 ^ e)%Z
      else if (Z.pos m mod 2 ^ (- e) =? 0)%Z
           then Some (if s then - (Z.pos m / 2 ^ (- e)) else Z.pos m / 2 ^ (- e))%Z
           else None
  | _ => None
  end.

(** Truncation toward zero of a finite double. *)
Definition d_trunc (s : bool) (m : positive) (e : Z) : Z :=
  let a := if (0 <=? e)%Z then (Z.pos m * 2 ^ e)%Z else (Z.pos m / 2 ^ (- e))%Z in
  if s then (- a)%Z else a.

Definition int_min : Z := (- 2 ^ 31)%Z.
Definition int_max : Z := (2 ^ 31 - 1)%Z.
Definition in_int_range (z : Z) : bool := (int_min <=? z)%Z && (z <=? int_max)%Z.

(** [static_cast<int>(double)] as compiled for x86-64 ([cvttsd2si]):
    truncation toward zero when the result fits in an [int], and the
    "integer indefinite" value [INT_MIN] for NaN, infinities and
    out-of-range values (the C++ standard leaves those undefined). *)
Definition static_cast_int (v : double) : Z :=
  match v with
  | S754_zero _ => 0%Z
  | S754_finite s m e =>
      let t := d_trunc s m e in if in_int_range t then t else int_min
  | _ => int_min
  end.

(** The test [val - intval == 0]: for a finite double and an [int]
    (exactly representable), IEEE-754 subtraction is exactly zero iff the
    two values are equal (gradual underflow), so the test compares the
    exact values; NaN and infinities give NaN / infinity, never zero. *)
Definition minus_is_zero (v : double) (intval : Z) : bool :=
  match d_int_value v with Some w => (w =? intval)%Z | None => false end.

End Double.
Import Double.

(** ** Expression nodes and the node store. *)

Module SX.

Inductive operation :=
  | OP_ADD | OP_SUB | OP_MUL | OP_DIV
  | OP_NEG | OP_SQ | OP_SQRT | OP_INV | OP_SIN | OP_COS.

Definition op_eqb (a b : operation) : bool :=
  match a, b with
  | OP_ADD, OP_ADD | OP_SUB, OP_SUB | OP_MUL, OP_MUL | OP_DIV, OP_DIV
  | OP_NEG, OP_NEG | OP_SQ, OP_SQ | OP_SQRT, OP_SQRT | OP_INV, OP_INV
  | OP_SIN, OP_SIN | OP_COS, OP_COS => true
  | _, _ => false
  end.

(** The node classes of [constant_sx.hpp], [symbolic_sx.hpp],
    [unary_sx.hpp] and [binary_sx.hpp]. Children are handles (indices
    into the store). *)
Inductive node :=
  | ZeroSX | OneSX | MinusOneSX | NanSX | InfSX | MinusInfSX
  | IntegerSX (value : Z)
  | RealtypeSX (value : double)
  | SymbolicSX (name : string)
  | UnarySX (op : operation) (dep : nat)
  | BinarySX (op : operation) (dep0 dep1 : nat).

(** A handle ([SXNode*]) is an index into the store. Nodes are kept for
    the lifetime of the store (handles are assumed alive). *)
Record sx_state := mk_state {
  heap : list node;
  int_cache : list (Z * nat);        (* IntegerSX::cached_constants_ *)
  real_cache : list (double * nat)   (* RealtypeSX::cached_constants_ *)
}.

Definition zero_id := 0%nat.
Definition one_id := 1%nat.
Definition two_id := 2%nat.
Definition minus_one_id := 3%nat.
Definition nan_id := 4%nat.
Definition inf_id := 5%nat.
Definition minus_inf_id := 6%nat.

(** The static singletons [casadi_limits<SXElement>::zero, one, two,
    minus_one, nan, inf, minus_inf]; [two] is [IntegerSX::create(2)]. *)
Definition init_state : sx_state :=
  {| heap := [ZeroSX; OneSX; IntegerSX 2; MinusOneSX; NanSX; InfSX; MinusInfSX];
     int_cache := [(2%Z, two_id)];
     real_cache := [] |}.

Definition node_at (h : list node) (x : nat) : option node := nth_error h x.

Definition alloc (n : node) (st : sx_state) : nat * sx_state :=
  (List.length (heap st),
   {| heap := heap st ++ [n]; int_cache := int_cache st; real_cache := real_cache st |}).

Fixpoint lookup_int (k : Z) (l : list (Z * nat)) : option nat :=
  match l with
  | [] => None
  | (k', v) :: l' => if (k =? k')%Z then Some v else lookup_int k l'
  end.

Fixpoint lookup_real (k : double) (l : list (double * nat)) : option nat :=
  match l with
  | [] => None
  | (k', v) :: l' => if d_eqb k k' then Some v else lookup_real k l'
  end.

(** Modelled from the spec: [IntegerSX::create] (in [constant_sx.hpp]),
    the ConstantCache lookup that returns the node previously created for
    the same value, or creates and registers a new one. *)
Definition integer_create (v : Z) (st : sx_state) : nat * sx_state :=
  match lookup_int v (int_cache st) with
  | Some n => (n, st)
  | None =>
      let '(n, st') := alloc (IntegerSX v) st in
      (n, {| heap := heap st'; int_cache := (v, n) :: int_cache st';
             real_cache := real_cache st' |})
  end.

(** Modelled from the spec: [RealtypeSX::create] (in [constant_sx.hpp]),
    keyed by the double value. *)
Definition realtype_create (v : double) (st : sx_state) : nat * sx_state :=
  match lookup_real v (real_cache st) with
  | Some n => (n, st)
  | None =>
      let '(n, st') := alloc (RealtypeSX v) st in
      (n, {| heap := heap st'; int_cache := int_cache st';
             real_cache := (v, n) :: real_cache st' |})
  end.

(** [SXElement::SXElement(double val)] *)
Definition construct (val : double) (st : sx_state) : nat * sx_state :=
  let intval := static_cast_int val in
  if minus_is_zero val intval then
    if (intval =? 0)%Z then (zero_id, st)
    else if (intval =? 1)%Z then (one_id, st)
    else if (intval =? 2)%Z then (two_id, st)
    else if (intval =? -1)%Z then (minus_one_id, st)
    else integer_create intval st
  else
    if isnan val then (nan_id, st)
    else if isinf val then (if d_ltb d_zero val then inf_id else minus_inf_id, st)
    else realtype_create val st.

(** Node queries ([SXNode::isConstant], [isZero], ... ). *)
Definition is_const_node (n : node) : bool :=
  match n with
  | ZeroSX | OneSX | MinusOneSX | NanSX | InfSX | MinusInfSX
  | IntegerSX _ | RealtypeSX _ => true
  | _ => false
  end.

(** [SXNode::getValue]: the stored value of a constant node. *)
Definition node_value (n : node) : double :=
  match n with
  | ZeroSX => d_zero
  | OneSX => d_one
  | MinusOneSX => d_minus_one
  | NanSX => d_nan
  | InfSX => d_inf
  | MinusInfSX => d_minus_inf
  | IntegerSX v => d_of_Z v
  | RealtypeSX v => v
  | _ => d_nan
  end.

Section Queries.
Variable h : list node.

Definition isConstant (x : nat) : bool :=
  match node_at h x with Some n => is_const_node n | None => false end.
Definition isZero (x : nat) : bool :=
  match node_at h x with Some ZeroSX => true | _ => false end.
Definition isOne (x : nat) : bool :=
  match node_at h x with Some OneSX => true | _ => false end.
Definition isMinusOne (x : nat) : bool :=
  match node_at h x with Some MinusOneSX => true | _ => false end.
(** [SXElement::isOp]: [hasDep() && op == getOp()]. *)
Definition isOp (o : operation) (x : nat) : bool :=
  match node_at h x with
  | Some (UnarySX o' _) | Some (BinarySX o' _ _) => op_eqb o o'
  | _ => false
  end.
(** [SXElement::getDep(ch)]; every call in the simplifier is guarded by
    an [isOp] test, so the leaf case is never used. *)
Definition getDep (x : nat) (ch : nat) : nat :=
  match node_at h x with
  | Some (UnarySX _ d) => d
  | Some (BinarySX _ d0 d1) => if (ch =? 0)%nat then d0 else d1
  | _ => x
  end.
Definition getValue (x : nat) : double :=
  match node_at h x with Some n => node_value n | None => d_nan end.

(** [SXElement::is_equal(x, y, depth)]: identity, else a structural
    comparison of operation and children down to [depth]. *)
Fixpoint is_equal (x y : nat) (depth : nat) : bool :=
  if (x =? y)%nat then true
  else match depth with
       | O => false
       | S d =>
           match node_at h x, node_at h y with
           | Some (UnarySX o1 a), Some (UnarySX o2 b) => op_eqb o1 o2 && is_equal a b d
           | Some (BinarySX o1 a1 a2), Some (BinarySX o2 b1 b2) =>
               op_eqb o1 o2 && is_equal a1 b1 d && is_equal a2 b2 d
           | _, _ => false
           end
       end.
End Queries.

(** State-and-error monad threading the node store. *)
Definition M (A : Type) := sx_state -> res (A * sx_state).
Definition ret {A} (a : A) : M A := fun st => Ok (a, st).
Definition bind {A B} (m : M A) (k : A -> M B) : M B :=
  fun st => match m st with Ok (a, st') => k a st' | Err e => Err e end.
Definition fail {A} (e : casadi_error) : M A := fun _ => Err e.
Notation "x <- m ;; k" := (bind m (fun x => k))
  (at level 61, m at next level, right associativity).

(** [SXElement(double)] inside the monad. *)
Definition lit (v : double) : M nat := fun st => Ok (construct v st).

(** [SXElement::__nonzero__] *)
Definition nonzero (x : nat) (st : sx_state) : res bool :=
  if isConstant (heap st) x then Ok (negb (isZero (heap st) x)) else Err TypeError.

Section Simplifier.
(** [CasadiOptions::simplification_on_the_fly] *)
Variable simplification_on_the_fly : bool.
(** [SXNode::eq_depth_] *)
Variable eq_depth : nat.
(** The C library's [sin] and [cos] on doubles. *)
Variables libm_sin libm_cos : double -> double.

(** [casadi_math<double>::fun(op, x, y, r)] *)
Definition eval_op (op : operation) (x y : double) : double :=
  match op with
  | OP_ADD => d_add x y
  | OP_SUB => d_sub x y
  | OP_MUL => d_mul x y
  | OP_DIV => d_div x y
  | OP_NEG => d_opp x
  | OP_SQ => d_mul x x
  | OP_SQRT => d_sqrt x
  | OP_INV => d_div d_one x
  | OP_SIN => libm_sin x
  | OP_COS => libm_cos x
  end.

(** Modelled from the spec: [BinarySX::create] (in [binary_sx.hpp]).
    With on-the-fly simplification, two constant operands are folded into
    a constant node through [SXElement(double)]; otherwise (and always
    when the switch is off: "forcing unconditional allocation") a new
    binary node is allocated. *)
Definition create_binary (op : operation) (x y : nat) : M nat :=
  fun st =>
    let h := heap st in
    if simplification_on_the_fly && isConstant h x && isConstant h y
    then Ok (construct (eval_op op (getValue h x) (getValue h y)) st)
    else Ok (alloc (BinarySX op x y) st).

(** Modelled from the spec: [UnarySX::create] (in [unary_sx.hpp]),
    folding a constant operand in the same way. *)
Definition create_unary (op : operation) (x : nat) : M nat :=
  fun st =>
    let h := heap st in
    if simplification_on_the_fly && isConstant h x
    then Ok (construct (eval_op op (getValue h x) (getValue h x)) st)
    else Ok (alloc (UnarySX op x) st).

(** [SXElement::operator-()] *)
Definition neg (x : nat) : M nat :=
  fun st =>
    let h := heap st in
    if isOp h OP_NEG x then ret (getDep h x 0) st
    else if isZero h x then lit d_zero st
    else if isMinusOne h x then lit d_one st
    else if isOne h x then lit d_minus_one st
    else create_unary OP_NEG x st.

(** [SXElement::inv] *)
Definition inv (x : nat) : M nat :=
  fun st =>
    let h := heap st in
    if isOp h OP_INV x then ret (getDep h x 0) st
    else create_unary OP_INV x st.

(** [SXElement::sq]; the recursion on [getDep()] is bounded by [fuel]. *)
Fixpoint sq (fuel : nat) (x : nat) : M nat :=
  match fuel with
  | O => fail OutOfFuel
  | S f => fun st =>
      let h := heap st in
      if isOp h OP_SQRT x then ret (getDep h x 0) st
      else if isOp h OP_NEG x then sq f (getDep h x 0) st
      else create_unary OP_SQ x st
  end.

(** [SXElement::isDoubled] *)
Definition isDoubled (h : list node) (x : nat) : bool :=
  isOp h OP_ADD x && is_equal h (getDep h x 0) (getDep h x 1) eq_depth.

(** [zz_plus] and [zz_minus]; their mutual recursion is bounded by
    [fuel]. *)
Fixpoint plus (fuel : nat) (x y : nat) {struct fuel} : M nat :=
  match fuel with
  | O => fail OutOfFuel
  | S f => fun st =>
    let h := heap st in
    let dep := getDep h in
    if negb simplification_on_the_fly then create_binary OP_ADD x y st
    else if isZero h x then ret y st
    else if isZero h y then ret x st
    else if isOp h OP_NEG y then (ny <- neg y ;; minus f x ny) st
    else if isOp h OP_NEG x then minus f y (dep x 0) st
    else if isOp h OP_MUL x && isOp h OP_MUL y
            && isConstant h (dep x 0) && d_eqb (getValue h (dep x 0)) d_half
            && isConstant h (dep y 0) && d_eqb (getValue h (dep y 0)) d_half
            && is_equal h (dep y 1) (dep x 1) eq_depth
         then ret (dep x 1) st
    else if isOp h OP_DIV x && isOp h OP_DIV y
            && isConstant h (dep x 1) && d_eqb (getValue h (dep x 1)) d_two
            && isConstant h (dep y 1) && d_eqb (getValue h (dep y 1)) d_two
            && is_equal h (dep y 0) (dep x 0) eq_depth
         then ret (dep x 0) st
    else if isOp h OP_SUB x && is_equal h (dep x 1) y eq_depth then ret (dep x 0) st
    else if isOp h OP_SUB y && is_equal h x (dep y 1) eq_depth then ret (dep y 0) st
    else if isOp h OP_SQ x && isOp h OP_SQ y
            && ((isOp h OP_SIN (dep x 0) && isOp h OP_COS (dep y 0))
                || (isOp h OP_COS (dep x 0) && isOp h OP_SIN (dep y 0)))
            && is_equal h (dep (dep x 0) 0) (dep (dep y 0) 0) eq_depth
         then lit d_one st
    else create_binary OP_ADD x y st
  end
with minus (fuel : nat) (x y : nat) {struct fuel} : M nat :=
  match fuel with
  | O => fail OutOfFuel
  | S f => fun st =>
    let h := heap st in
    let dep := getDep h in
    if negb simplification_on_the_fly then create_binary OP_SUB x y st
    else if isZero h y then ret x st
    else if isZero h x then neg y st
    else if is_equal h x y eq_depth then lit d_zero st
    else if isOp h OP_NEG y then plus f x (dep y 0) st
    else if isOp h OP_ADD x && is_equal h (dep x 1) y eq_depth then ret (dep x 0) st
    else if isOp h OP_ADD x && is_equal h (dep x 0) y eq_depth then ret (dep x 1) st
    else if isOp h OP_ADD y && is_equal h x (dep y 1) eq_depth then neg (dep y 0) st
    else if isOp h OP_ADD y && is_equal h x (dep y 0) eq_depth then neg (dep y 1) st
    else if isOp h OP_NEG x then (t <- plus f (dep x 0) y ;; neg t) st
    else create_binary OP_SUB x y st
  end.

(** [zz_times] and [zz_rdivide], likewise. *)
Fixpoint times (fuel : nat) (x y : nat) {struct fuel} : M nat :=
  match fuel with
  | O => fail OutOfFuel
  | S f => fun st =>
    let h := heap st in
    let dep := getDep h in
    if negb simplification_on_the_fly then create_binary OP_MUL x y st
    else if is_equal h y x eq_depth then sq f x st
    else if negb (isConstant h x) && isConstant h y then times f y x st
    else if isZero h x || isZero h y then lit d_zero st
    else if isOne h x then ret y st
    else if isOne h y then ret x st
    else if isMinusOne h y then neg x st
    else if isMinusOne h x then neg y st
    else if isOp h OP_INV y then (t <- inv y ;; rdivide f x t) st
    else if isOp h OP_INV x then (t <- inv x ;; rdivide f y t) st
    else if isConstant h x && isOp h OP_MUL y && isConstant h (dep y 0)
            && d_eqb (d_mul (getValue h x) (getValue h (dep y 0))) d_one
         then ret (dep y 1) st
    else if isConstant h x && isOp h OP_DIV y && isConstant h (dep y 1)
            && d_eqb (getValue h x) (getValue h (dep y 1))
         then ret (dep y 0) st
    else if isOp h OP_DIV x && is_equal h (dep x 1) y eq_depth then ret (dep x 0) st
    else if isOp h OP_DIV y && is_equal h (dep y 1) x eq_depth then ret (dep y 0) st
    else if isOp h OP_NEG x then (t <- times f (dep x 0) y ;; neg t) st
    else if isOp h OP_NEG y then (t <- times f x (dep y 0) ;; neg t) st
    else create_binary OP_MUL x y st
  end
with rdivide (fuel : nat) (x y : nat) {struct fuel} : M nat :=
  match fuel with
  | O => fail OutOfFuel
  | S f => fun st =>
    let h := heap st in
    let dep := getDep h in
    if negb simplification_on_the_fly then create_binary OP_DIV x y st
    else if isZero h y then ret nan_id st
    else if isZero h x then lit d_zero st
    else if isOne h y then ret x st
    else if isMinusOne h y then neg x st
    else if is_equal h x y eq_depth then lit d_one st
    (* [is_equal(y, 2)]: depth 0 against the singleton [SXElement(2)] *)
    else if isDoubled h x && is_equal h y two_id 0 then ret (dep x 0) st
    else if isOp h OP_MUL x && is_equal h y (dep x 0) eq_depth then ret (dep x 1) st
    else if isOp h OP_MUL x && is_equal h y (dep x 1) eq_depth then ret (dep x 0) st
    else if isOne h x then inv y st
    else if isOp h OP_INV y then (t <- inv y ;; times f x t) st
    else if isDoubled h x && isDoubled h y then rdivide f (dep x 0) (dep y 0) st
    else if isConstant h y && isOp h OP_DIV x && isConstant h (dep x 1)
            && d_eqb (d_mul (getValue h y) (getValue h (dep x 1))) d_one
         then ret (dep x 0) st
    else if isOp h OP_MUL y && is_equal h (dep y 1) x eq_depth
         then (o <- lit d_one ;; create_binary OP_DIV o (dep y 0)) st
    else if isOp h OP_NEG x && is_equal h (dep x 0) y eq_depth then lit d_minus_one st
    else if isOp h OP_NEG y && is_equal h (dep y 0) x eq_depth then lit d_minus_one st
    else if isOp h OP_NEG y && isOp h OP_NEG x && is_equal h (dep x 0) (dep y 0) eq_depth
         then lit d_one st
    else if isOp h OP_DIV x && is_equal h y (dep x 0) eq_depth then inv (dep x 1) st
    else if isOp h OP_NEG x then (t <- rdivide f (dep x 0) y ;; neg t) st
    else if isOp h OP_NEG y then (t <- rdivide f x (dep y 0) ;; neg t) st
    else create_binary OP_DIV x y st
  end.

End Simplifier.

(** Store invariants. [cache_ok]: every cache entry names a constant node
    holding its key. [store_ok]: the seven singletons sit at their fixed
    handles and no other handle holds a singleton kind. [node_ok]: integer
    constants are [int]s other than 0 and real constants are non-zero. *)
Definition cache_ok (st : sx_state) : Prop :=
  Forall (fun p => node_at (heap st) (snd p) = Some (IntegerSX (fst p))) (int_cache st) /\
  Forall (fun p => node_at (heap st) (snd p) = Some (RealtypeSX (fst p))) (real_cache st).

Definition is_singleton_kind (n : node) : bool :=
  match n with
  | ZeroSX | OneSX | MinusOneSX | NanSX | InfSX | MinusInfSX => true
  | _ => false
  end.

Definition store_ok (st : sx_state) : Prop :=
  firstn 7 (heap st) = heap init_state /\
  forallb (fun n => negb (is_singleton_kind n)) (skipn 7 (heap st)) = true.

Definition node_ok (n : node) : bool :=
  match n with
  | IntegerSX z => negb (z =? 0)%Z && in_int_range z
  | RealtypeSX w => negb (d_eqb w d_zero)
  | _ => true
  end.

End SX.

(** ** Sparse matrices ([Matrix<DataType>] over a [Sparsity] pattern). *)

Module Mat.

(** Compressed column storage: [colind] has [size2 + 1] entries; the
    nonzeros of column [j] are [row]/[data] at positions [colind[j]] to
    [colind[j+1]] (column-major nonzero order). *)
Record matrix (T : Type) := mk_matrix {
  size1 : nat;
  size2 : nat;
  colind : list nat;
  row : list nat;
  data : list T
}.
Arguments mk_matrix {T} size1 size2 colind row data.
Arguments size1 {T} m.
Arguments size2 {T} m.
Arguments colind {T} m.
Arguments row {T} m.
Arguments data {T} m.

(** [v.begin()+a .. v.begin()+b] *)
Definition slice {A} (a b : nat) (l : list A) : list A := firstn (b - a) (skipn a l).

Fixpoint res_mapM {A B} (f : A -> res B) (l : list A) : res (list B) :=
  match l with
  | [] => Ok []
  | x :: l' => res_bind (f x) (fun y => res_bind (res_mapM f l') (fun ys => Ok (y :: ys)))
  end.

Fixpoint nondecreasing (l : list nat) : bool :=
  match l with
  | a :: ((b :: _) as l') => (a <=? b)%nat && nondecreasing l'
  | _ => true
  end.

Fixpoint increasing (l : list nat) : bool :=
  match l with
  | a :: ((b :: _) as l') => (a <? b)%nat && increasing l'
  | _ => true
  end.

Section Generic.
Context {T : Type}.

(** [Matrix<DataType>()]: the 0-by-0 matrix. *)
Definition empty_matrix : matrix T := mk_matrix 0 0 [0] [] [].

(** The columns of a matrix as lists of (row, value) pairs, read off the
    consecutive pairs of [colind]. *)
Fixpoint cols_aux (ci : list nat) (rw : list nat) (dt : list T) : list (list (nat * T)) :=
  match ci with
  | c0 :: ((c1 :: _) as ci') => combine (slice c0 c1 rw) (slice c0 c1 dt) :: cols_aux ci' rw dt
  | _ => []
  end.
Definition cols (M : matrix T) : list (list (nat * T)) := cols_aux (colind M) (row M) (data M).

(** The matrix with [n1] rows and the given columns. *)
Fixpoint ci_from (acc : nat) (cs : list (list (nat * T))) : list nat :=
  match cs with
  | [] => [acc]
  | c :: cs' => acc :: ci_from (acc + List.length c) cs'
  end.
Definition of_cols (n1 : nat) (cs : list (list (nat * T))) : matrix T :=
  mk_matrix n1 (List.length cs) (ci_from 0 cs)
    (List.concat (map (map fst) cs)) (List.concat (map (map snd) cs)).

(** Each column lists strictly increasing row indices below [n1]. *)
Definition cols_okb (n1 : nat) (cs : list (list (nat * T))) : bool :=
  forallb (fun c => increasing (map fst c) && forallb (fun p => fst p <? n1)%nat c) cs.
Definition cols_ok (n1 : nat) (cs : list (list (nat * T))) : Prop :=
  Forall (fun c => StronglySorted (fun p q => fst p < fst q)%nat c /\
                   Forall (fun p => fst p < n1)%nat c) cs.

(** Well-formedness of the compressed column storage: [colind] starts at
    0, is non-decreasing, has [size2 + 1] entries and ends at the number of
    nonzeros; [data] has one entry per nonzero; the row indices of each
    column are strictly increasing and below [size1]. *)
Definition wfb (M : matrix T) : bool :=
  (List.length (colind M) =? S (size2 M))%nat &&
  (nth 0 (colind M) 1 =? 0)%nat &&
  nondecreasing (colind M) &&
  (last (colind M) 0 =? List.length (row M))%nat &&
  (List.length (data M) =? List.length (row M))%nat &&
  cols_okb (size1 M) (cols M).

(** The nonzero at row [r] of one column, if any. *)
Definition col_entry (col : list (nat * T)) (r : nat) : option T :=
  match find (fun p => (fst p =? r)%nat) col with
  | Some p => Some (snd p)
  | None => None
  end.

(** The nonzero at row [r] of column [c], if any ([getNZ(r, c) != -1]). *)
Definition entry (M : matrix T) (r c : nat) : option T :=
  col_entry (nth c (cols M) []) r.

(** Modelled from the spec: [Matrix::T()] (in [matrix_impl.hpp] and the
    sparsity component). The nonzero at (r, c) moves to (c, r); the result
    is stored in column-major order, so column [i] of the transpose lists
    the nonzeros of row [i], by increasing column. *)
Fixpoint trow_from (k i : nat) (cs : list (list (nat * T))) : list (nat * T) :=
  match cs with
  | [] => []
  | c :: cs' =>
      map (fun p => (k, snd p)) (filter (fun p => (fst p =? i)%nat) c) ++ trow_from (S k) i cs'
  end.
Definition tcols (n1 : nat) (cs : list (list (nat * T))) : list (list (nat * T)) :=
  map (fun i => trow_from 0 i cs) (seq 0 n1).
Definition transpose (M : matrix T) : matrix T :=
  of_cols (size2 M) (tcols (size1 M) (cols M)).

(** Modelled from the spec: [Matrix::appendColumns] (in [matrix_impl.hpp])
    and [Sparsity::appendColumns]. An empty (0-by-0) matrix is replaced by
    the appended one and an empty appended matrix is ignored; otherwise the
    row counts must agree, the column indices of [y] are shifted by the
    nonzero count of [x], and rows and data are appended. *)
Definition appendColumns (x y : matrix T) : res (matrix T) :=
  if (size1 x =? 0)%nat && (size2 x =? 0)%nat then Ok y
  else if (size1 y =? 0)%nat && (size2 y =? 0)%nat then Ok x
  else if negb (size1 x =? size1 y)%nat then Err DimensionError
  else Ok (mk_matrix (size1 x) (size2 x + size2 y)
             (colind x ++ map (fun c => c + last (colind x) 0)%nat (tl (colind y)))
             (row x ++ row y) (data x ++ data y)).

(** [horzcat(const std::vector<Matrix>&)] *)
Definition horzcat (v : list (matrix T)) : res (matrix T) :=
  fold_left (fun ret y => res_bind ret (fun r => appendColumns r y)) v (Ok empty_matrix).

(** [horzcat(x, y)] *)
Definition horzcat2 (x y : matrix T) : res (matrix T) := appendColumns x y.

(** Modelled from the spec: [isMonotone] (in the vector tools): the
    offsets never decrease. *)
Fixpoint isMonotone (o : list Z) : bool :=
  match o with
  | a :: ((b :: _) as o') => (a <=? b)%Z && isMonotone o'
  | _ => true
  end.

(** The submatrix of columns [start] to [stop] built in the loop of
    [horzsplit]. *)
Definition split_piece (v : matrix T) (start stop : nat) : matrix T :=
  let ci := colind v in
  let c0 := nth start ci 0%nat in
  let c1 := nth stop ci 0%nat in
  mk_matrix (size1 v) (stop - start)
    (map (fun c => c - c0)%nat (slice start (stop + 1) ci))
    (slice c0 c1 (row v)) (slice c0 c1 (data v)).

(** [horzsplit(const Matrix&, const std::vector<int>& offset)]; a failed
    [casadi_assert] is a PreconditionError. *)
Definition horzsplit (v : matrix T) (offset : list Z) : res (list (matrix T)) :=
  if negb (1 <=? List.length offset)%nat then Err PreconditionError
  else if negb (hd 0%Z offset =? 0)%Z then Err PreconditionError
  else if negb (last offset 0%Z <=? Z.of_nat (size2 v))%Z then Err PreconditionError
  else if negb (isMonotone offset) then Err PreconditionError
  else Ok (map (fun i =>
              let start := Z.to_nat (nth i offset 0%Z) in
              let stop := if (i + 1 <? List.length offset)%nat
                          then Z.to_nat (nth (i + 1) offset 0%Z) else size2 v in
              split_piece v start stop)
            (seq 0 (List.length offset))).

(** The four [casadi_assert] checks of [horzsplit] on an offset vector,
    against the dimension [n] being split. *)
Definition offsets_ok (offset : list Z) (n : nat) : bool :=
  (1 <=? List.length offset)%nat && (hd 0%Z offset =? 0)%Z &&
  (last offset 0%Z <=? Z.of_nat n)%Z && isMonotone offset.

(** [vertcat(const std::vector<Matrix>&)] *)
Definition vertcat (v : list (matrix T)) : res (matrix T) :=
  res_bind (fold_left (fun ret y => res_bind ret (fun r => appendColumns r (transpose y)))
              v (Ok empty_matrix))
           (fun ret => Ok (transpose ret)).

(** [vertcat(x, y)] *)
Definition vertcat2 (x y : matrix T) : res (matrix T) :=
  res_bind (horzcat2 (transpose x) (transpose y)) (fun r => Ok (transpose r)).

(** [vertsplit(const Matrix&, const std::vector<int>& offset)] *)
Definition vertsplit (x : matrix T) (offset : list Z) : res (list (matrix T)) :=
  res_bind (horzsplit (transpose x) offset) (fun ret => Ok (map transpose ret)).

(** [blockcat(const std::vector< std::vector<Matrix> >&)] *)
Definition blockcat (v : list (list (matrix T))) : res (matrix T) :=
  res_bind (res_mapM horzcat v) vertcat.

(** [blocksplit(x, vert_offset, horz_offset)] *)
Definition blocksplit (x : matrix T) (vert_offset horz_offset : list Z)
    : res (list (list (matrix T))) :=
  res_bind (vertsplit x vert_offset) (fun rows => res_mapM (fun r => horzsplit r horz_offset) rows).

End Generic.

Section Unite.
Context {T : Type}.

(** Modelled from the spec: [Sparsity::patternUnion] with its mapping
    ("from A" = 1, "from B" = 2, "from both" = 3), column by column over
    the sorted row indices of the two patterns; the shapes must agree. *)
Fixpoint merge_col (a b : list nat) : list (nat * nat) :=
  match a with
  | [] => map (fun r => (r, 2%nat)) b
  | ra :: a' =>
      (fix merge_b (b : list nat) : list (nat * nat) :=
         match b with
         | [] => map (fun r => (r, 1%nat)) a
         | rb :: b' =>
             if (ra <? rb)%nat then (ra, 1%nat) :: merge_col a' b
             else if (rb <? ra)%nat then (rb, 2%nat) :: merge_b b'
             else (ra, 3%nat) :: merge_col a' b'
         end) b
  end.

(** The union pattern as (size1, size2, colind, row) and the mapping. *)
Definition patternUnion (A B : matrix T)
    : res ((nat * nat * list nat * list nat) * list nat) :=
  if negb ((size1 A =? size1 B)%nat && (size2 A =? size2 B)%nat) then Err DimensionError
  else
    let mcols := map (fun '(ca, cb) => merge_col (map fst ca) (map fst cb))
                     (combine (cols A) (cols B)) in
    let sp := of_cols (size1 A) (map (map (fun p => (fst p, tt))) mcols) in
    Ok ((size1 sp, size2 sp, colind sp, row sp), List.concat (map (map snd) mcols)).

(** The copy loop of [unite]: [elA] and [elB] index the data of [A] and
    [B]; a tag other than 1 or 2 throws "Pattern intersection not empty". *)
Fixpoint unite_fill (mapping : list nat) (dA dB : list T) (elA elB : nat)
    : res (list T * nat * nat) :=
  match mapping with
  | [] => Ok ([], elA, elB)
  | m :: ms =>
      if (m =? 1)%nat then
        match nth_error dA elA with
        | Some v => res_bind (unite_fill ms dA dB (S elA) elB)
                      (fun '(vs, a, b) => Ok (v :: vs, a, b))
        | None => Err IndexError
        end
      else if (m =? 2)%nat then
        match nth_error dB elB with
        | Some v => res_bind (unite_fill ms dA dB elA (S elB))
                      (fun '(vs, a, b) => Ok (v :: vs, a, b))
        | None => Err IndexError
        end
      else Err InvariantViolation
  end.

(** [unite(A, B)]; the final [casadi_assert]s on the counters fail with an
    InvariantViolation. *)
Definition unite (A B : matrix T) : res (matrix T) :=
  res_bind (patternUnion A B) (fun '((n1, n2, ci, rw), mapping) =>
    res_bind (unite_fill mapping (data A) (data B) 0 0) (fun '(vs, elA, elB) =>
      if (List.length (data A) =? elA)%nat && (List.length (data B) =? elB)%nat
      then Ok (mk_matrix n1 n2 ci rw vs)
      else Err InvariantViolation)).

End Unite.

Section Pinv.
Context {T : Type}.
(** [mul(x, y)] and the general [solve(A, b)] routine. *)
Variable mul : matrix T -> matrix T -> res (matrix T).
Variable solve : matrix T -> matrix T -> res (matrix T).

(** [pinv(A)] *)
Definition pinv (A : matrix T) : res (matrix T) :=
  if (size1 A <=? size2 A)%nat then
    res_bind (mul A (transpose A)) (fun m =>
      res_bind (solve m A) (fun s => Ok (transpose s)))
  else
    res_bind (mul (transpose A) A) (fun m => solve m (transpose A)).

(** The pseudo-inverse as the spec describes it: for a wide [A] (at least
    as many columns as rows) the transpose of the solution of
    (A A^T) X = A; for a tall [A] the solution of (A^T A) X = A^T. *)
Definition pinv_spec (A : matrix T) : res (matrix T) :=
  if (size2 A <? size1 A)%nat then
    res_bind (mul (transpose A) A) (fun AtA => solve AtA (transpose A))
  else
    res_bind (mul A (transpose A)) (fun AAt =>
      res_bind (solve AAt A) (fun X => Ok (transpose X))).

End Pinv.

Section Det.
Context {T : Type}.
(** The scalar operations of [DataType]: [0], [1], [+], [-], [*] and the
    conversion of an [int]. *)
Variables (zero one : T) (add sub mul : T -> T -> T) (of_int : Z -> T).

(** [a.elem(r, c)]: the nonzero, or 0 for a structural zero. *)
Definition elem (a : matrix T) (r c : nat) : T :=
  match entry a r c with Some v => v | None => zero end.

(** Structural nonzero counts: [row_count] (dense when no row is empty)
    and the nonzeros of [col_count] (one per non-empty column, with its
    column index as row). *)
Definition row_count (a : matrix T) : list nat :=
  map (fun r => List.length (filter (fun c => existsb (fun p => (fst p =? r)%nat) c) (cols a)))
      (seq 0 (size1 a)).
Definition col_count_nz (a : matrix T) : list (nat * nat) :=
  filter (fun p => (0 <? snd p)%nat)
         (combine (seq 0 (size2 a)) (map (@List.length _) (cols a))).

(** [std::distance(begin, std::min_element(begin, end))]: the first
    position of a smallest element, 0 for an empty range. *)
Fixpoint min_index_from (k best bv : nat) (l : list nat) : nat :=
  match l with
  | [] => best
  | x :: l' => if (x <? bv)%nat then min_index_from (S k) k x l' else min_index_from (S k) best bv l'
  end.
Definition min_index (l : list nat) : nat :=
  match l with [] => 0 | x :: l' => min_index_from 1 0 x l' end.

(** The matrix of [getMinor(x, i, j)]: column [i] and row [j] removed. *)
Definition minor_matrix (x : matrix T) (i j : nat) : matrix T :=
  let cs := cols x in
  of_cols (size2 x - 1)
    (map (fun c => map (fun p => (if (fst p <? j)%nat then fst p else fst p - 1, snd p))
                       (filter (fun p => negb (fst p =? j)%nat) c))
         (firstn i cs ++ skipn (S i) cs)).

(** [det(a)], with [getMinor] and [cofactor] unfolded into it. The result
    pairs the value with the number of [cofactor] calls made, nested ones
    included; the recursion is bounded by [fuel]. *)
Fixpoint det (fuel : nat) (a : matrix T) : res (T * nat) :=
  match fuel with
  | O => Err OutOfFuel
  | S f =>
    let cofactor (x : matrix T) (i j : nat) : res (T * nat) :=
      (* getMinor(x, i, j) *)
      let n := size2 x in
      res_bind
        (if negb (n =? size1 x)%nat then Err DimensionError
         else if (n =? 1)%nat then Ok (one, 0%nat)
         else det f (minor_matrix x i j))
        (fun '(minor_ij, k) =>
           let sign_i := (1 - 2 * ((Z.of_nat i + Z.of_nat j) mod 2))%Z in
           Ok (mul (of_int sign_i) minor_ij, S k)) in
    let n := size2 a in
    if negb (n =? size1 a)%nat then Err DimensionError
    else if (size1 a =? 1)%nat && (size2 a =? 1)%nat then Ok (elem a 0 0, 0%nat)
    else if (n =? 2)%nat then
      Ok (sub (mul (elem a 0 0) (elem a 1 1)) (mul (elem a 0 1) (elem a 1 0)), 0%nat)
    else
      let rc := row_count a in
      (* A blank row? determinant is structurally zero *)
      if negb (forallb (fun k => 0 <? k)%nat rc) then Ok (zero, 0%nat)
      else
      let cc := col_count_nz a in
      (* A blank col? -- the source tests [row_count] again here *)
      if negb (forallb (fun k => 0 <? k)%nat rc) then Ok (zero, 0%nat)
      else
      let min_row := min_index rc in
      let min_col := min_index (map snd cc) in
      if (min_row <=? min_col)%nat then
        (* expand along row j *)
        match nth_error (seq 0 (size1 a)) min_row with
        | None => Err IndexError
        | Some j =>
            let row_j := flat_map (fun '(c, col) =>
                           map (fun p => (c, snd p)) (filter (fun p => (fst p =? j)%nat) col))
                         (combine (seq 0 n) (cols a)) in
            fold_left (fun ret '(c, v) =>
                res_bind ret (fun '(s, k) =>
                  res_bind (cofactor a c j) (fun '(cf, k') => Ok (add s (mul v cf), (k + k')%nat))))
              row_j (Ok (zero, 0%nat))
        end
      else
        (* expand along col i *)
        match nth_error (map fst cc) min_col with
        | None => Err IndexError
        | Some i =>
            fold_left (fun ret '(r, v) =>
                res_bind ret (fun '(s, k) =>
                  res_bind (cofactor a i r) (fun '(cf, k') => Ok (add s (mul v cf), (k + k')%nat))))
              (nth i (cols a) []) (Ok (zero, 0%nat))
        end
  end.

End Det.

Section Increments.
Context {T : Type}.

(** Modelled from the spec: [range(start, stop, step)] (in the vector
    tools), the offsets [start], [start + step], ... below [stop]: there
    are [(stop - start) / step] of them, one more when [step] does not
    divide [stop - start]. *)
Definition range (start stop step : nat) : list Z :=
  let n := stop - start in
  map (fun k => Z.of_nat (start + k * step))
      (seq 0 (n / step + (if (n mod step =? 0)%nat then 0 else 1))).

(** [horzsplit(v, incr)]: pieces of [incr] columns, the last one running
    to the end. *)
Definition horzsplit_incr (v : matrix T) (incr : Z) : res (list (matrix T)) :=
  if negb (1 <=? incr)%Z then Err PreconditionError
  else horzsplit v (range 0 (size2 v) (Z.to_nat incr)).

(** [vertsplit(x, incr)] *)
Definition vertsplit_incr (x : matrix T) (incr : Z) : res (list (matrix T)) :=
  if negb (1 <=? incr)%Z then Err PreconditionError
  else vertsplit x (range 0 (size1 x) (Z.to_nat incr)).

(** [blocksplit(x, vert_incr, horz_incr)] *)
Definition blocksplit_incr (x : matrix T) (vert_incr horz_incr : Z)
    : res (list (list (matrix T))) :=
  if negb (1 <=? horz_incr)%Z then Err PreconditionError
  else if negb (1 <=? vert_incr)%Z then Err PreconditionError
  else blocksplit x (range 0 (size1 x) (Z.to_nat vert_incr))
                    (range 0 (size2 x) (Z.to_nat horz_incr)).

(** [blockcat(A, B, C, D)] *)
Definition blockcat4 (A B C D : matrix T) : res (matrix T) :=
  res_bind (horzcat2 A B) (fun AB => res_bind (horzcat2 C D) (fun CD => vertcat2 AB CD)).

(** [repmat(A, n, m)]: [m] copies side by side, then [n] of those stacked
    (the counts are taken non-negative). *)
Definition repmat (A : matrix T) (n m : nat) : res (matrix T) :=
  res_bind (horzcat (repeat A m)) (fun col => vertcat (repeat col n)).

(** Modelled from the spec: [Matrix<DataType>::sparse(n1, n2)], the
    [n1]-by-[n2] matrix without nonzeros. *)
Definition sparse_matrix (n1 n2 : nat) : matrix T := of_cols n1 (repeat [] n2).

End Increments.

Section Kron.
Context {T : Type}.
(** [a[k]*b]: a scalar times a matrix. *)
Variable scale : T -> matrix T -> matrix T.

(** [kron(a, b)]: block (i, j) is [a(i,j)*b] where [a] has a nonzero
    ([getNZ(i, j) != -1]) and an empty [b]-shaped filler elsewhere. *)
Definition kron (a b : matrix T) : res (matrix T) :=
  let filler := sparse_matrix (size1 b) (size2 b) in
  blockcat (map (fun i => map (fun j =>
                   match entry a i j with Some x => scale x b | None => filler end)
                 (seq 0 (size2 a)))
             (seq 0 (size1 a))).

End Kron.

Section MulList.
Context {T : Type}.
(** [x.mul(y)], which may fail on a dimension mismatch. *)
Variable mul : matrix T -> matrix T -> res (matrix T).

(** [mul(const std::vector<Matrix>& args)] *)
Definition mul_list (args : list (matrix T)) : res (matrix T) :=
  match args with
  | [] => Err PreconditionError
  | [a] => Ok a
  | a0 :: a1 :: rest =>
      fold_left (fun ret a => res_bind ret (fun r => mul r a)) rest (mul a0 a1)
  end.

End MulList.

Section Scalar.
Context {T : Type}.
Variables (zero : T) (add mul : T -> T -> T).

(** [trace(a)] *)
Definition trace (a : matrix T) : res T :=
  if negb (size2 a =? size1 a)%nat then Err DimensionError
  else Ok (fold_left (fun r i => add r (elem zero a i i)) (seq 0 (size2 a)) zero).

(** [res[k] += w]; an index past the end is an IndexError. *)
Definition add_at (l : list T) (k : nat) (w : T) : res (list T) :=
  match nth_error l k with
  | Some y => Ok (firstn k l ++ add y w :: skipn (S k) l)
  | None => Err IndexError
  end.

(** [addMultiple(A, v, res, trans_A)]: the loops over the columns [i] and
    their nonzeros [el] (row [j]), adding [v[i]*data[el]] to [res[j]] when
    [trans_A] and [v[j]*data[el]] to [res[i]] otherwise. The size checks
    fail with a DimensionError; a read of [row], [data] or [v] past the end
    is an IndexError. *)
Definition addMultiple (A : matrix T) (v res0 : list T) (trans_A : bool) : res (list T) :=
  let d1 := size2 A in
  let d2 := size1 A in
  let ci := colind A in
  if (if trans_A then negb (List.length v =? d1)%nat || negb (List.length res0 =? d2)%nat
      else negb (List.length v =? d2)%nat || negb (List.length res0 =? d1)%nat)
  then Err DimensionError
  else
    fold_left (fun acc i =>
        fold_left (fun acc' el =>
            res_bind acc' (fun r =>
              match nth_error (row A) el, nth_error (data A) el with
              | Some j, Some x =>
                  if trans_A then
                    match nth_error v i with Some vi => add_at r j (mul vi x) | None => Err IndexError end
                  else
                    match nth_error v j with Some vj => add_at r i (mul vj x) | None => Err IndexError end
              | _, _ => Err IndexError
              end))
          (seq (nth i ci 0) (nth (S i) ci 0 - nth i ci 0)) acc)
      (seq 0 d1) (Ok res0).

End Scalar.

End Mat.

(** * Proofs *)

Module FloatFacts.

Lemma digits2_size : forall p, digits2_pos p = Pos.size p.
Proof. induction p; simpl; try rewrite IHp; reflexivity. Qed.

Lemma digits2_iter_xO : forall k m,
  digits2_pos (Pos.iter xO m k) = (digits2_pos m + k)%positive.
Proof.
  induction k using Pos.peano_ind; intros m.
  - simpl. rewrite Pos.add_1_r. reflexivity.
  - rewrite Pos.iter_succ. simpl. rewrite IHk, Pos.add_succ_r. reflexivity.
Qed.

Lemma shr_fexp_exact : forall m e,
  digits2_pos m = 53%positive -> (-1074 <= e)%Z ->
  shr_fexp 53 1024 (Z.pos m) e loc_Exact
  = ({| shr_m := Z.pos m; shr_r := false; shr_s := false |}, e).
Proof.
  intros m e H He. unfold shr_fexp.
  replace (Zdigits2 (Z.pos m)) with 53%Z by (simpl; rewrite H; reflexivity).
  replace (fexp 53 1024 (53 + e) - e)%Z with 0%Z by (unfold fexp, emin; lia).
  reflexivity.
Qed.

Lemma round_aux_exact : forall s m e,
  digits2_pos m = 53%positive -> (-1074 <= e <= 971)%Z ->
  binary_round_aux 53 1024 s (Z.pos m) e loc_Exact = S754_finite s m e.
Proof.
  intros s m e H He. unfold binary_round_aux.
  rewrite shr_fexp_exact by (auto; lia).
  cbn [shr_m loc_of_shr_record round_nearest_even].
  rewrite shr_fexp_exact by (auto; lia). cbn [shr_m].
  replace (e <=? 1024 - 53)%Z with true by (symmetry; apply Z.leb_le; lia).
  reflexivity.
Qed.

(** An integer below 2^53 in magnitude converts to a finite double. *)
Lemma round_int_finite : forall (s : bool) p, (Z.pos p < 2 ^ 53)%Z ->
  exists m e, binary_round 53 1024 s p 0 = S754_finite s m e.
Proof.
  intros s p Hp.
  assert (Hd : (Z.pos (digits2_pos p) <= 53)%Z).
  { rewrite digits2_size.
    destruct (Z.le_gt_cases (Z.pos (Pos.size p)) 53) as [H|H]; auto.
    exfalso. pose proof (Pos.size_le p) as Hle.
    apply Pos2Z.pos_le_pos in Hle. rewrite Pos2Z.inj_pow in Hle.
    change (Z.pos p~0) with (2 * Z.pos p)%Z in Hle.
    change (Z.pos 2) with 2%Z in Hle.
    assert (2 ^ 54 <= 2 ^ Z.pos (Pos.size p))%Z by (apply Z.pow_le_mono_r; lia).
    assert (2 ^ 54 = 2 * 2 ^ 53)%Z by reflexivity.
    generalize dependent (2 ^ 53)%Z. intros. lia. }
  unfold binary_round, fexp, emin.
  replace (Z.max (Z.pos (digits2_pos p) + 0 - 53) (3 - 1024 - 53))
    with (Z.pos (digits2_pos p) - 53)%Z by lia.
  unfold shl_align.
  destruct (Z.pos (digits2_pos p) - 53 - 0)%Z eqn:E.
  - exists p, 0%Z. apply round_aux_exact; lia.
  - lia.
  - eexists _, _. apply round_aux_exact; [rewrite digits2_iter_xO|]; lia.
Qed.

Lemma d_of_Z_nonzero : forall z, z <> 0%Z -> (Z.abs z < 2 ^ 53)%Z ->
  d_eqb (d_of_Z z) d_zero = false.
Proof.
  intros z Hz Hb. unfold d_of_Z, binary_normalize.
  destruct z as [|p|p]; [lia| |];
    [destruct (round_int_finite false p) as (m & e & E)
    |destruct (round_int_finite true p) as (m & e & E)]; simpl in Hb; try lia;
    unfold prec, emax; rewrite E; reflexivity.
Qed.

Lemma d_eqb_refl_finite : forall s m e,
  d_eqb (S754_finite s m e) (S754_finite s m e) = true.
Proof.
  intros s m e. unfold d_eqb, SFeqb, SFcompare.
  destruct s; rewrite Z.compare_refl, Pos.compare_cont_refl; reflexivity.
Qed.

End FloatFacts.

Module SXFacts.
Import SX FloatFacts.

Lemma lookup_int_in : forall k l n, lookup_int k l = Some n -> In (k, n) l.
Proof.
  induction l as [|[k' v] l IH]; simpl; intros n H; [discriminate|].
  destruct (Z.eqb_spec k k'); [inversion H; subst; auto | right; auto].
Qed.

Lemma lookup_real_in : forall k l n, lookup_real k l = Some n ->
  exists k', In (k', n) l /\ d_eqb k k' = true.
Proof.
  induction l as [|[k' v] l IH]; simpl; intros n H; [discriminate|].
  destruct (d_eqb k k') eqn:E.
  - inversion H; subst. eauto.
  - destruct (IH n H) as (k'' & Hin & Hk). eauto.
Qed.

Lemma node_at_alloc : forall h n, node_at (h ++ [n]) (List.length h) = Some n.
Proof.
  intros h n. unfold node_at. rewrite nth_error_app2 by lia.
  rewrite Nat.sub_diag. reflexivity.
Qed.

Lemma integer_create_again : forall z st,
  integer_create z (snd (integer_create z st)) = integer_create z st.
Proof.
  intros z st. unfold integer_create.
  destruct (lookup_int z (int_cache st)) eqn:L; simpl.
  - rewrite L. reflexivity.
  - rewrite Z.eqb_refl. reflexivity.
Qed.

Lemma integer_create_node : forall z st, cache_ok st ->
  node_at (heap (snd (integer_create z st))) (fst (integer_create z st)) = Some (IntegerSX z).
Proof.
  intros z st [Hi _]. unfold integer_create.
  destruct (lookup_int z (int_cache st)) eqn:L; simpl.
  - apply lookup_int_in in L. rewrite Forall_forall in Hi. exact (Hi _ L).
  - apply node_at_alloc.
Qed.

Lemma realtype_create_again : forall v st, d_eqb v v = true ->
  realtype_create v (snd (realtype_create v st)) = realtype_create v st.
Proof.
  intros v st Hv. unfold realtype_create.
  destruct (lookup_real v (real_cache st)) eqn:L; simpl.
  - rewrite L. reflexivity.
  - rewrite Hv. reflexivity.
Qed.

Lemma realtype_create_node : forall v st, cache_ok st -> d_eqb v v = true ->
  exists w, node_at (heap (snd (realtype_create v st))) (fst (realtype_create v st))
            = Some (RealtypeSX w) /\ d_eqb v w = true.
Proof.
  intros v st [_ Hr] Hv. unfold realtype_create.
  destruct (lookup_real v (real_cache st)) eqn:L; simpl.
  - apply lookup_real_in in L as (k' & Hin & Hk).
    rewrite Forall_forall in Hr. exists k'. split; [exact (Hr _ Hin) | exact Hk].
  - exists v. split; [apply node_at_alloc | exact Hv].
Qed.

Lemma static_cast_of_int : forall v z,
  d_int_value v = Some z -> in_int_range z = true -> static_cast_int v = z.
Proof.
  intros [s|s| |s m e] z H R; cbn [d_int_value static_cast_int] in *; try discriminate.
  - inversion H; reflexivity.
  - assert (T : d_trunc s m e = z).
    { unfold d_trunc. destruct (0 <=? e)%Z.
      - inversion H; reflexivity.
      - destruct (Z.pos m mod 2 ^ (- e) =? 0)%Z; [inversion H; reflexivity | discriminate]. }
    rewrite T, R. reflexivity.
Qed.

Lemma static_cast_in_range : forall v, in_int_range (static_cast_int v) = true.
Proof.
  intros [s|s| |s m e]; simpl; try reflexivity.
  destruct (in_int_range (d_trunc s m e)) eqn:R; [exact R | reflexivity].
Qed.

(** [SXElement(double)] asked again for the same value returns the same
    node and leaves the store unchanged. *)
Lemma construct_again : forall v st,
  construct v (snd (construct v st)) = construct v st.
Proof.
  intros v st. unfold construct.
  destruct (minus_is_zero v (static_cast_int v)) eqn:MZ.
  - destruct (static_cast_int v =? 0)%Z; [reflexivity|].
    destruct (static_cast_int v =? 1)%Z; [reflexivity|].
    destruct (static_cast_int v =? 2)%Z; [reflexivity|].
    destruct (static_cast_int v =? -1)%Z; [reflexivity|].
    apply integer_create_again.
  - destruct (isnan v) eqn:N; [reflexivity|].
    destruct (isinf v) eqn:I; [reflexivity|].
    apply realtype_create_again.
    destruct v as [s|s| |s m e]; cbn [isnan isinf] in *; try discriminate.
    apply d_eqb_refl_finite.
Qed.

Lemma int_value_not_nan : forall v z, d_int_value v = Some z -> isnan v = false.
Proof. intros [s|s| |s m e] z H; try discriminate; reflexivity. Qed.

Lemma int_value_not_inf : forall v z, d_int_value v = Some z -> isinf v = false.
Proof. intros [s|s| |s m e] z H; try discriminate; reflexivity. Qed.

Lemma d_eqb_refl_num : forall v, isnan v = false -> isinf v = false -> d_eqb v v = true.
Proof.
  intros [s|s| |s m e] N I; try discriminate; [reflexivity|].
  apply d_eqb_refl_finite.
Qed.

Lemma construct_real : forall v st,
  minus_is_zero v (static_cast_int v) = false -> isnan v = false -> isinf v = false ->
  construct v st = realtype_create v st.
Proof. intros v st M N I. unfold construct. rewrite M, N, I. reflexivity. Qed.

Lemma store_singleton_at : forall st i, store_ok st -> (i < 7)%nat ->
  node_at (heap st) i = nth_error (heap init_state) i.
Proof.
  intros st i [Hf _] Hi. unfold node_at.
  rewrite <- Hf, nth_error_firstn. destruct (Nat.ltb_spec i 7); [reflexivity | lia].
Qed.

Lemma store_high_not_singleton : forall st x n, store_ok st -> (7 <= x)%nat ->
  node_at (heap st) x = Some n -> is_singleton_kind n = false.
Proof.
  intros st x n [_ Hs] Hx H. unfold node_at in H.
  replace x with (7 + (x - 7))%nat in H by lia.
  rewrite <- (firstn_skipn 7 (heap st)), nth_error_app2 in H.
  2:{ pose proof (firstn_le_length 7 (heap st)). lia. }
  apply nth_error_In in H.
  rewrite forallb_forall in Hs. apply Hs in H. destruct (is_singleton_kind n); auto.
Qed.

Ltac small_handle x :=
  do 7 (destruct x as [|x]; [ try reflexivity; try discriminate | ]).

Lemma isZero_handle : forall st x, store_ok st -> isZero (heap st) x = true -> x = zero_id.
Proof.
  intros st x S H. unfold isZero in H.
  destruct (Nat.ltb_spec x 7).
  - rewrite (store_singleton_at st x S) in H by lia.
    small_handle x; lia.
  - destruct (node_at (heap st) x) as [n|] eqn:E; [|discriminate].
    apply (store_high_not_singleton st x n S) in E; [|lia].
    destruct n; discriminate.
Qed.

Lemma isOne_handle : forall st x, store_ok st -> isOne (heap st) x = true -> x = one_id.
Proof.
  intros st x S H. unfold isOne in H.
  destruct (Nat.ltb_spec x 7).
  - rewrite (store_singleton_at st x S) in H by lia.
    small_handle x; lia.
  - destruct (node_at (heap st) x) as [n|] eqn:E; [|discriminate].
    apply (store_high_not_singleton st x n S) in E; [|lia].
    destruct n; discriminate.
Qed.

Lemma construct_d_zero : forall st, construct d_zero st = (zero_id, st).
Proof. reflexivity. Qed.

Lemma construct_d_one : forall st, construct d_one st = (one_id, st).
Proof. reflexivity. Qed.

Lemma d_mul_one_one : d_mul d_one d_one = d_one.
Proof. vm_compute. reflexivity. Qed.

End SXFacts.

Module SXClaims.
Import SX FloatFacts SXFacts.

(** C1: constructing [SXElement(v)] twice yields the same handle and
    leaves the store unchanged, for every double [v] (given that the
    constant caches name the nodes they key). Integer values 0, 1, 2, -1
    give the singletons; the other integers that fit in an [int] give the
    cached [IntegerSX] node of that value; NaN and the infinities give
    their singletons; every other value (non-integral finite doubles and
    integral doubles outside the [int] range) gives a cached [RealtypeSX]
    node holding an equal value. *)
Theorem construct_hash_consed (v : double) (st : sx_state) (Hc : cache_ok st) :
  let '(n1, st1) := construct v st in
  construct v st1 = (n1, st1) /\
  (d_int_value v = Some 0%Z -> n1 = zero_id) /\
  (d_int_value v = Some 1%Z -> n1 = one_id) /\
  (d_int_value v = Some 2%Z -> n1 = two_id) /\
  (d_int_value v = Some (-1)%Z -> n1 = minus_one_id) /\
  (forall z, d_int_value v = Some z -> in_int_range z = true ->
     ~ In z [0; 1; 2; -1]%Z -> node_at (heap st1) n1 = Some (IntegerSX z)) /\
  (isnan v = true -> n1 = nan_id) /\
  (v = d_inf -> n1 = inf_id) /\
  (v = d_minus_inf -> n1 = minus_inf_id) /\
  ((d_int_value v = None \/ exists z, d_int_value v = Some z /\ in_int_range z = false) ->
     isnan v = false -> isinf v = false ->
     exists w, node_at (heap st1) n1 = Some (RealtypeSX w) /\ d_eqb v w = true).
Proof.
  destruct (construct v st) as [n1 st1] eqn:C.
  split; [rewrite <- C; replace st1 with (snd (construct v st)) by (rewrite C; reflexivity);
          apply construct_again|].
  destruct (d_int_value v) as [z|] eqn:DV.
  - assert (N : isnan v = false) by (eapply int_value_not_nan; eauto).
    assert (I : isinf v = false) by (eapply int_value_not_inf; eauto).
    destruct (in_int_range z) eqn:R.
    + pose proof (static_cast_of_int v z DV R) as SC.
      unfold construct in C. rewrite SC in C. unfold minus_is_zero in C.
      rewrite DV, Z.eqb_refl in C.
      split; [intros E; injection E as ->; simpl in C; congruence|].
      split; [intros E; injection E as ->; simpl in C; congruence|].
      split; [intros E; injection E as ->; simpl in C; congruence|].
      split; [intros E; injection E as ->; simpl in C; congruence|].
      split.
      { intros z' E _ Hnin. injection E as <-.
        destruct (Z.eqb_spec z 0); [subst; exfalso; apply Hnin; simpl; auto|].
        destruct (Z.eqb_spec z 1); [subst; exfalso; apply Hnin; simpl; auto|].
        destruct (Z.eqb_spec z 2); [subst; exfalso; apply Hnin; simpl; auto|].
        destruct (Z.eqb_spec z (-1)); [subst; exfalso; apply Hnin; simpl; auto|].
        pose proof (integer_create_node z st Hc) as G. rewrite C in G. exact G. }
      split; [congruence|].
      split; [intros E; subst v; discriminate|].
      split; [intros E; subst v; discriminate|].
      intros [E|(z' & E & E')] _ _; congruence.
    + assert (M : minus_is_zero v (static_cast_int v) = false).
      { unfold minus_is_zero. rewrite DV. apply Z.eqb_neq. intros E.
        pose proof (static_cast_in_range v) as R'. rewrite <- E in R'. congruence. }
      rewrite construct_real in C by assumption.
      split; [intros E; injection E as ->; discriminate|].
      split; [intros E; injection E as ->; discriminate|].
      split; [intros E; injection E as ->; discriminate|].
      split; [intros E; injection E as ->; discriminate|].
      split; [intros z' E R'; injection E as <-; congruence|].
      split; [congruence|].
      split; [intros E; subst v; discriminate|].
      split; [intros E; subst v; discriminate|].
      intros _ _ _.
      pose proof (realtype_create_node v st Hc (d_eqb_refl_num v N I)) as G.
      rewrite C in G. exact G.
  - assert (M : minus_is_zero v (static_cast_int v) = false).
    { unfold minus_is_zero. rewrite DV. reflexivity. }
    do 5 (split; [intros; discriminate|]).
    split; [intros H; unfold construct in C; rewrite M, H in C; congruence|].
    split; [intros E; subst v; unfold construct in C; rewrite M in C; simpl in C; congruence|].
    split; [intros E; subst v; unfold construct in C; rewrite M in C; simpl in C; congruence|].
    intros _ N I.
    rewrite construct_real in C by assumption.
    pose proof (realtype_create_node v st Hc (d_eqb_refl_num v N I)) as G.
    rewrite C in G. exact G.
Qed.

(** C1, witness: the literal 3.14 constructed twice from the initial store. *)
Lemma construct_hash_consed_witness :
  let v := d_div (d_of_Z 314) (d_of_Z 100) in
  cache_ok init_state /\
  (let '(n1, st1) := construct v init_state in construct v st1 = (n1, st1)).
Proof.
  intros v.
  assert (Hc : cache_ok init_state) by (split; repeat constructor).
  split; [exact Hc|].
  pose proof (construct_hash_consed v init_state Hc) as T.
  destruct (construct v init_state) as [n1 st1].
  exact (proj1 T).
Defined.

(** C1, counterexample: 2^40 is an integer value, but it does not fit in an
    [int], so [val - intval == 0] fails whatever [int] the cast yields and
    the literal becomes a [RealtypeSX] node, not an [IntegerSX] one. *)
Lemma construct_2pow40_realtype :
  let v := S754_finite false (2 ^ 52) (-12) in
  d_int_value v = Some (2 ^ 40)%Z /\
  exists w, node_at (heap (snd (construct v init_state))) (fst (construct v init_state))
            = Some (RealtypeSX w).
Proof. vm_compute. split; [reflexivity | eexists; reflexivity]. Qed.

Lemma is_equal_one_other : forall st x d, store_ok st -> x <> one_id ->
  is_equal (heap st) one_id x d = false.
Proof.
  intros st x d S Hx. destruct d; cbn [is_equal];
    (destruct (Nat.eqb_spec one_id x); [congruence|]); [reflexivity|].
  unfold one_id. rewrite (store_singleton_at st 1 S) by lia. simpl.
  destruct (node_at (heap st) x) as [[]|]; reflexivity.
Qed.

(** C3: with on-the-fly simplification on, [x + 0] returns [x], [x - x]
    returns the 0 singleton and [x * 1] returns [x], leaving the store
    unchanged; with the switch off, [x + 0] allocates a new [OP_ADD] node
    whose handle differs from [x]. [x] is any live handle of a well-formed
    store; the fuel only bounds the model's recursion. *)
Theorem simplify_identities (d : nat) (sn cs : double -> double) (f : nat)
    (st : sx_state) (x : nat) (S : store_ok st) (Hx : (x < List.length (heap st))%nat) :
  plus true d sn cs (Datatypes.S f) x zero_id st = Ok (x, st) /\
  minus true d sn cs (Datatypes.S f) x x st = Ok (zero_id, st) /\
  times true d sn cs (Datatypes.S (Datatypes.S f)) x one_id st = Ok (x, st) /\
  plus false d sn cs (Datatypes.S f) x zero_id st
    = Ok (List.length (heap st),
          {| heap := heap st ++ [BinarySX OP_ADD x zero_id];
             int_cache := int_cache st; real_cache := real_cache st |}) /\
  List.length (heap st) <> x.
Proof.
  assert (Z0 : isZero (heap st) zero_id = true).
  { unfold isZero, zero_id. rewrite (store_singleton_at st 0 S) by lia. reflexivity. }
  assert (O1 : isOne (heap st) one_id = true).
  { unfold isOne, one_id. rewrite (store_singleton_at st 1 S) by lia. reflexivity. }
  assert (C1 : isConstant (heap st) one_id = true).
  { unfold isConstant, one_id. rewrite (store_singleton_at st 1 S) by lia. reflexivity. }
  split.
  { simpl. destruct (isZero (heap st) x) eqn:E.
    - rewrite (isZero_handle st x S E). reflexivity.
    - rewrite Z0. reflexivity. }
  split.
  { simpl. destruct (isZero (heap st) x) eqn:E.
    - rewrite (isZero_handle st x S E). reflexivity.
    - destruct d; simpl; rewrite Nat.eqb_refl; apply (f_equal Ok), construct_d_zero. }
  split.
  { destruct (Nat.eq_dec x one_id) as [->|Hne].
    - cbn [times]. cbv zeta. simpl negb.
      replace (is_equal (heap st) one_id one_id d) with true by (destruct d; reflexivity).
      cbn [sq]. unfold isOp, create_unary, getValue, isConstant, one_id.
      rewrite (store_singleton_at st 1 S) by lia. simpl.
      reflexivity.
    - cbn [times]. cbv zeta. simpl negb.
      rewrite (is_equal_one_other st x d S Hne), C1.
      assert (Z1 : isZero (heap st) one_id = false).
      { unfold isZero, one_id. rewrite (store_singleton_at st 1 S) by lia. reflexivity. }
      destruct (isConstant (heap st) x) eqn:Cx; cbn [negb andb].
      + destruct (isZero (heap st) x) eqn:Zx.
        * rewrite (isZero_handle st x S Zx). reflexivity.
        * destruct (isOne (heap st) x) eqn:Ox.
          { exfalso. exact (Hne (isOne_handle st x S Ox)). }
          rewrite Z1, O1. reflexivity.
      + assert (Zx : isZero (heap st) x = false).
        { unfold isZero. unfold isConstant in Cx.
          destruct (node_at (heap st) x) as [[]|]; easy. }
        cbn [times]. cbv zeta. cbn [negb].
        replace (is_equal (heap st) x one_id d) with false.
        2:{ destruct d; cbn [is_equal]; (destruct (Nat.eqb_spec x one_id); [congruence|]);
            [reflexivity|]. unfold isConstant in Cx. unfold one_id.
            rewrite (store_singleton_at st 1 S) by lia.
            destruct (node_at (heap st) x) as [[]|]; reflexivity. }
        rewrite ?C1, ?Z1, ?Zx, ?O1. reflexivity. }
  split.
  { reflexivity. }
  lia.
Qed.

(** C3, witness: a symbol [x] (handle 7) added to the initial store. *)
Lemma simplify_identities_witness :
  let st := {| heap := heap init_state ++ [SymbolicSX "x"];
               int_cache := int_cache init_state; real_cache := [] |} in
  store_ok st /\ (7 < List.length (heap st))%nat /\
  plus true 1 (fun v => v) (fun v => v) 1 7 zero_id st = Ok (7%nat, st) /\
  times true 1 (fun v => v) (fun v => v) 2 7 one_id st = Ok (7%nat, st).
Proof.
  intros st.
  assert (S : store_ok st) by (split; reflexivity).
  assert (L : (7 < List.length (heap st))%nat) by (simpl; lia).
  pose proof (simplify_identities 1 (fun v => v) (fun v => v) 0 st 7 S L) as T.
  split; [exact S|]. split; [exact L|].
  split; [exact (proj1 T) | exact (proj1 (proj2 (proj2 T)))].
Defined.

(** C4: on a store whose integer constants are non-zero [int]s and whose
    real constants are non-zero, [__nonzero__] returns [value != 0] on
    every constant node and raises a TypeError on every other node. *)
Theorem nonzero_spec (st : sx_state) (x : nat)
    (Hok : forallb node_ok (heap st) = true) :
  nonzero x st =
  if isConstant (heap st) x then Ok (negb (d_eqb (getValue (heap st) x) d_zero))
  else Err TypeError.
Proof.
  unfold nonzero, isConstant, isZero, getValue.
  destruct (node_at (heap st) x) as [n|] eqn:E; [|reflexivity].
  assert (Hn : node_ok n = true).
  { rewrite forallb_forall in Hok. apply Hok. exact (nth_error_In _ _ E). }
  destruct n; try reflexivity; cbn [is_const_node node_value node_ok] in *.
  - apply andb_prop in Hn as [Hz Hr].
    rewrite d_of_Z_nonzero; [reflexivity | lia |].
    unfold in_int_range, int_min, int_max in Hr.
    apply andb_prop in Hr as [H1 H2]. apply Z.leb_le in H1, H2.
    assert (2 ^ 31 < 2 ^ 53)%Z by (apply Z.pow_lt_mono_r; lia). lia.
  - destruct (d_eqb value d_zero); [discriminate | reflexivity].
Qed.

(** C4, witness: the integer constant 5 and a symbol. *)
Lemma nonzero_spec_witness :
  let st := {| heap := heap init_state ++ [IntegerSX 5; SymbolicSX "x"];
               int_cache := (5%Z, 7%nat) :: int_cache init_state; real_cache := [] |} in
  forallb node_ok (heap st) = true /\
  nonzero 7 st = Ok true /\ nonzero 8 st = Err TypeError.
Proof.
  intros st.
  assert (H : forallb node_ok (heap st) = true) by reflexivity.
  split; [exact H|].
  rewrite (nonzero_spec st 7 H), (nonzero_spec st 8 H). split; reflexivity.
Defined.

(** C10: with on-the-fly simplification on, dividing any [x] by a node
    that is the constant zero returns the NaN singleton without error and
    without touching the store; in particular [0/0] is NaN (the
    zero-denominator test precedes the [x/x -> 1] and [0/y -> 0] rules). *)
Theorem rdivide_by_zero (d : nat) (sn cs : double -> double) (f : nat)
    (st : sx_state) (x y : nat) (Hy : node_at (heap st) y = Some ZeroSX) :
  rdivide true d sn cs (Datatypes.S f) x y st = Ok (nan_id, st) /\
  rdivide true d sn cs (Datatypes.S f) y y st = Ok (nan_id, st).
Proof.
  cbn [rdivide]. cbv zeta. unfold isZero. rewrite Hy. split; reflexivity.
Qed.

(** C10, witness: [0/0] in the initial store. *)
Lemma rdivide_by_zero_witness :
  node_at (heap init_state) zero_id = Some ZeroSX /\
  rdivide true 1 (fun v => v) (fun v => v) 1 zero_id zero_id init_state = Ok (nan_id, init_state).
Proof.
  assert (H : node_at (heap init_state) zero_id = Some ZeroSX) by reflexivity.
  split; [exact H | exact (proj2 (rdivide_by_zero 1 (fun v => v) (fun v => v) 0 init_state zero_id zero_id H))].
Defined.

End SXClaims.

Module MatFacts.
Import Mat.

Section Lists.
Context {A B : Type}.

Lemma map_fst_combine : forall (l1 : list A) (l2 : list B),
  (List.length l1 <= List.length l2)%nat -> map fst (combine l1 l2) = l1.
Proof.
  induction l1 as [|a l1 IH]; intros [|b l2] H; simpl in *; try reflexivity; [lia|].
  f_equal. apply IH. lia.
Qed.

Lemma map_snd_combine : forall (l1 : list A) (l2 : list B),
  (List.length l2 <= List.length l1)%nat -> map snd (combine l1 l2) = l2.
Proof.
  induction l1 as [|a l1 IH]; intros [|b l2] H; simpl in *; try reflexivity; [lia|].
  f_equal. apply IH. lia.
Qed.

Lemma combine_fst_snd : forall (l : list (A * B)), combine (map fst l) (map snd l) = l.
Proof. induction l as [|[a b] l IH]; simpl; congruence. Qed.

Lemma length_slice : forall a b (l : list A),
  List.length (slice a b l) = Nat.min (b - a) (List.length l - a).
Proof. intros. unfold slice. rewrite length_firstn, length_skipn. reflexivity. Qed.

Lemma firstn_add_skipn : forall n m (l : list A),
  firstn (n + m) l = firstn n l ++ firstn m (skipn n l).
Proof. induction n; intros m [|x l]; simpl; try rewrite IHn; try reflexivity; destruct m; reflexivity. Qed.

Lemma slice_adj : forall a b c (l : list A), (a <= b <= c)%nat ->
  slice a b l ++ slice b c l = slice a c l.
Proof.
  intros a b c l H. unfold slice.
  replace (c - a)%nat with ((b - a) + (c - b))%nat by lia.
  rewrite firstn_add_skipn, skipn_skipn. replace (b - a + a)%nat with b by lia. reflexivity.
Qed.

Lemma slice_full : forall (l : list A), slice 0 (List.length l) l = l.
Proof. intros. unfold slice. rewrite Nat.sub_0_r. apply firstn_all. Qed.

Lemma slice_prefix : forall (p q r : list A),
  slice (List.length p) (List.length p + List.length q) (p ++ q ++ r) = q.
Proof.
  intros. unfold slice. rewrite skipn_app, skipn_all, Nat.sub_diag. simpl.
  replace (List.length p + List.length q - List.length p)%nat with (List.length q) by lia.
  rewrite firstn_app, firstn_all, Nat.sub_diag. simpl. apply app_nil_r.
Qed.

End Lists.

Lemma nondecreasing_cons : forall a l, nondecreasing (a :: l) = true ->
  nondecreasing l = true /\ Forall (fun x => a <= x)%nat l.
Proof.
  intros a l. revert a. induction l as [|b l IH]; intros a H; [split; constructor|].
  cbn [nondecreasing] in H. apply andb_prop in H as [H1 H2]. apply Nat.leb_le in H1.
  split; [exact H2|]. constructor; [exact H1|].
  destruct (IH b H2) as [_ F]. eapply Forall_impl; [|exact F]. simpl. lia.
Qed.

Lemma last_cons2 : forall {A} (a b : A) l d, last (a :: b :: l) d = last (b :: l) d.
Proof. reflexivity. Qed.

Lemma last_in_bound : forall a l, nondecreasing (a :: l) = true -> (a <= last (a :: l) 0)%nat.
Proof.
  intros a l. revert a. induction l as [|b l IH]; intros a H; [simpl; lia|].
  rewrite last_cons2. cbn [nondecreasing] in H. apply andb_prop in H as [H1 H2].
  apply Nat.leb_le in H1. specialize (IH b H2). lia.
Qed.

Section Cols.
Context {T : Type}.

Lemma length_cols_aux_cons : forall ci c0 rw (dt : list T),
  List.length (cols_aux (c0 :: ci) rw dt) = List.length ci.
Proof.
  induction ci as [|c1 ci IH]; intros c0 rw dt; [reflexivity|].
  change (S (List.length (cols_aux (c1 :: ci) rw dt)) = S (List.length ci)).
  rewrite IH. reflexivity.
Qed.

Lemma length_cols_aux : forall ci rw (dt : list T),
  List.length (cols_aux ci rw dt) = (List.length ci - 1)%nat.
Proof.
  intros [|c0 ci] rw dt; [reflexivity|].
  rewrite length_cols_aux_cons. simpl. lia.
Qed.

Lemma cols_aux_facts : forall ci c0 rw (dt : list T),
  nondecreasing (c0 :: ci) = true ->
  (last (c0 :: ci) 0 <= List.length rw)%nat -> (last (c0 :: ci) 0 <= List.length dt)%nat ->
  ci_from c0 (cols_aux (c0 :: ci) rw dt) = c0 :: ci /\
  List.concat (map (map fst) (cols_aux (c0 :: ci) rw dt)) = slice c0 (last (c0 :: ci) 0) rw /\
  List.concat (map (map snd) (cols_aux (c0 :: ci) rw dt)) = slice c0 (last (c0 :: ci) 0) dt.
Proof.
  induction ci as [|c1 ci IH]; intros c0 rw dt Hs Hr Hd.
  - simpl. unfold slice. rewrite Nat.sub_diag. repeat split.
  - rewrite last_cons2 in Hr, Hd |- *.
    cbn [nondecreasing] in Hs. apply andb_prop in Hs as [H01 Hs]. apply Nat.leb_le in H01.
    pose proof (last_in_bound c1 ci Hs) as Hl.
    destruct (IH c1 rw dt Hs Hr Hd) as (E1 & E2 & E3).
    change (cols_aux (c0 :: c1 :: ci) rw dt)
      with (combine (slice c0 c1 rw) (slice c0 c1 dt) :: cols_aux (c1 :: ci) rw dt).
    assert (L1 : List.length (slice c0 c1 rw) = (c1 - c0)%nat) by (rewrite length_slice; lia).
    assert (L2 : List.length (slice c0 c1 dt) = (c1 - c0)%nat) by (rewrite length_slice; lia).
    repeat split.
    + cbn [ci_from]. rewrite length_combine, L1, L2, Nat.min_id.
      replace (c0 + (c1 - c0))%nat with c1 by lia. rewrite E1. reflexivity.
    + cbn [map List.concat]. rewrite E2, map_fst_combine by lia.
      apply slice_adj. lia.
    + cbn [map List.concat]. rewrite E3, map_snd_combine by lia.
      apply slice_adj. lia.
Qed.

(** A well-formed matrix is the matrix of its columns. *)
Lemma of_cols_cols : forall M : matrix T, wfb M = true -> of_cols (size1 M) (cols M) = M.
Proof.
  intros [n1 n2 ci rw dt] W. unfold wfb in W; cbn [size1 size2 colind row data] in *.
  repeat rewrite andb_true_iff in W.
  destruct W as (((((Hl & H0) & Hs) & Hlast) & Hd) & _).
  apply Nat.eqb_eq in Hl, H0, Hlast, Hd.
  destruct ci as [|c0 ci]; [discriminate|]. simpl in H0. subst c0.
  destruct (cols_aux_facts ci 0 rw dt Hs ltac:(lia) ltac:(lia)) as (E1 & E2 & E3).
  unfold of_cols, cols; cbn [size1 size2 colind row data].
  rewrite E1, E2, E3, length_cols_aux, Hlast, <- Hd, slice_full, Hd, slice_full.
  simpl in Hl |- *. f_equal. lia.
Qed.

Lemma cols_ci_from : forall cs acc rw (dt : list T) rR rD,
  skipn acc rw = List.concat (map (map fst) cs) ++ rR ->
  skipn acc dt = List.concat (map (map snd) cs) ++ rD ->
  cols_aux (ci_from acc cs) rw dt = cs.
Proof.
  induction cs as [|c cs IH]; intros acc rw dt rR rD Hr Hd; [reflexivity|].
  assert (Sr : slice acc (acc + List.length c) rw = map fst c).
  { unfold slice. rewrite Hr. replace (acc + List.length c - acc)%nat with (List.length (map fst c))
      by (rewrite length_map; lia).
    cbn [map List.concat]. rewrite <- app_assoc, firstn_app, firstn_all, Nat.sub_diag. apply app_nil_r. }
  assert (Sd : slice acc (acc + List.length c) dt = map snd c).
  { unfold slice. rewrite Hd. replace (acc + List.length c - acc)%nat with (List.length (map snd c))
      by (rewrite length_map; lia).
    cbn [map List.concat]. rewrite <- app_assoc, firstn_app, firstn_all, Nat.sub_diag. apply app_nil_r. }
  assert (Hr' : skipn (acc + List.length c) rw = List.concat (map (map fst) cs) ++ rR).
  { rewrite Nat.add_comm, <- skipn_skipn, Hr. cbn [map List.concat]. rewrite <- app_assoc.
    rewrite skipn_app, <- (length_map fst c), skipn_all, Nat.sub_diag. reflexivity. }
  assert (Hd' : skipn (acc + List.length c) dt = List.concat (map (map snd) cs) ++ rD).
  { rewrite Nat.add_comm, <- skipn_skipn, Hd. cbn [map List.concat]. rewrite <- app_assoc.
    rewrite skipn_app, <- (length_map snd c), skipn_all, Nat.sub_diag. reflexivity. }
  specialize (IH (acc + List.length c)%nat rw dt rR rD Hr' Hd').
  cbn [ci_from]. destruct cs as [|c' cs'].
  - cbn. rewrite Sr, Sd, combine_fst_snd. reflexivity.
  - cbn [ci_from] in IH |- *. change (cols_aux (acc :: (acc + List.length c)%nat :: ci_from ((acc + List.length c) + List.length c') cs') rw dt)
      with (combine (slice acc (acc + List.length c) rw) (slice acc (acc + List.length c) dt)
            :: cols_aux ((acc + List.length c)%nat :: ci_from ((acc + List.length c) + List.length c') cs') rw dt).
    rewrite Sr, Sd, combine_fst_snd, IH. reflexivity.
Qed.

(** The columns of the matrix of given columns are those columns. *)
Lemma cols_of_cols : forall n1 (cs : list (list (nat * T))), cols (of_cols n1 cs) = cs.
Proof.
  intros n1 cs. unfold cols, of_cols; cbn [colind row data].
  apply (cols_ci_from cs 0 _ _ [] []); simpl; symmetry; apply app_nil_r.
Qed.

Lemma transpose_of_cols : forall n1 (cs : list (list (nat * T))),
  transpose (of_cols n1 cs) = of_cols (List.length cs) (tcols n1 cs).
Proof. intros. unfold transpose. rewrite cols_of_cols. reflexivity. Qed.

End Cols.

Section Transpose.
Context {T : Type}.

Lemma filter_all_false : forall {A} (f : A -> bool) l,
  (forall x, In x l -> f x = false) -> filter f l = [].
Proof.
  induction l as [|x l IH]; intros H; [reflexivity|]. simpl.
  rewrite (H x (or_introl eq_refl)). apply IH. intros y Hy. apply H. right. exact Hy.
Qed.

Lemma filter_all_true : forall {A} (f : A -> bool) l,
  (forall x, In x l -> f x = true) -> filter f l = l.
Proof.
  induction l as [|x l IH]; intros H; [reflexivity|]. simpl.
  rewrite (H x (or_introl eq_refl)), IH; [reflexivity|]. intros y Hy. apply H. right. exact Hy.
Qed.

Lemma filter_filter_and : forall {A} (f g : A -> bool) l,
  filter f (filter g l) = filter (fun x => g x && f x) l.
Proof.
  induction l as [|x l IH]; [reflexivity|]. simpl.
  destruct (g x); simpl; [destruct (f x); simpl; congruence | exact IH].
Qed.

Lemma increasing_sorted : forall c : list (nat * T),
  increasing (map fst c) = true -> (StronglySorted (fun p q : nat * T => (fst p < fst q)%nat)) c.
Proof.
  induction c as [|p c IH]; intros H; [constructor|].
  assert (Hc : increasing (map fst c) = true /\ Forall (fun q => fst p < fst q)%nat c).
  { clear IH. revert p H. induction c as [|q c IH']; intros p H; [split; constructor|].
    cbn [map increasing] in H. apply andb_prop in H as [H1 H2]. apply Nat.ltb_lt in H1.
    split; [exact H2|]. constructor; [exact H1|].
    destruct (IH' q H2) as [_ F]. eapply Forall_impl; [|exact F]. simpl. lia. }
  destruct Hc as [Hc F]. constructor; [apply IH, Hc | exact F].
Qed.

Lemma cols_okb_ok : forall n1 (cs : list (list (nat * T))),
  cols_okb n1 cs = true -> cols_ok n1 cs.
Proof.
  intros n1 cs H. unfold cols_okb in H. unfold cols_ok.
  rewrite forallb_forall in H. apply Forall_forall. intros c Hc.
  apply H, andb_prop in Hc as [H1 H2]. split; [apply increasing_sorted, H1|].
  rewrite forallb_forall in H2. apply Forall_forall. intros p Hp. apply Nat.ltb_lt, H2, Hp.
Qed.

Lemma SS_filter : forall f (c : list (nat * T)), (StronglySorted (fun p q : nat * T => (fst p < fst q)%nat)) c -> (StronglySorted (fun p q : nat * T => (fst p < fst q)%nat)) (filter f c).
Proof.
  induction c as [|p c IH]; intros H; [constructor|].
  apply StronglySorted_inv in H as [H1 H2]. simpl. destruct (f p).
  - constructor; [apply IH, H1|]. apply Forall_forall. intros q Hq.
    apply filter_In in Hq as [Hq _]. rewrite Forall_forall in H2. apply H2, Hq.
  - apply IH, H1.
Qed.

(** A sorted list with keys in [a, a+m) is the concatenation of its
    key classes taken in order. *)
Lemma regroup : forall m a (c : list (nat * T)),
  (StronglySorted (fun p q : nat * T => (fst p < fst q)%nat)) c -> Forall (fun p => a <= fst p < a + m)%nat c ->
  flat_map (fun i => filter (fun p => (fst p =? i)%nat) c) (seq a m) = c.
Proof.
  induction m as [|m IH]; intros a c Hs Hb.
  - destruct c as [|p c]; [reflexivity|]. inversion Hb; subst. lia.
  - cbn [seq flat_map].
    assert (Split : filter (fun p => (fst p =? a)%nat) c
                    ++ filter (fun p => negb (fst p =? a)%nat) c = c).
    { clear IH. induction c as [|p c IHc]; [reflexivity|].
      apply StronglySorted_inv in Hs as [Hs F]. inversion Hb as [|? ? Hp Hb']; subst.
      simpl. destruct (Nat.eqb_spec (fst p) a) as [E|E]; simpl.
      - f_equal. apply IHc; auto.
      - rewrite (filter_all_false _ c), (filter_all_true _ c); [reflexivity| |].
        + intros q Hq. rewrite Forall_forall in F. specialize (F q Hq).
          apply negb_true_iff, Nat.eqb_neq. lia.
        + intros q Hq. rewrite Forall_forall in F. specialize (F q Hq).
          apply Nat.eqb_neq. lia. }
    transitivity (filter (fun p => (fst p =? a)%nat) c
                  ++ filter (fun p => negb (fst p =? a)%nat) c); [|exact Split]. f_equal.
    rewrite <- (IH (S a) (filter (fun p => negb (fst p =? a)%nat) c)).
    + rewrite !flat_map_concat_map. f_equal. apply map_ext_in. intros i Hi. apply in_seq in Hi.
      rewrite filter_filter_and. apply filter_ext. intros p.
      destruct (Nat.eqb_spec (fst p) i), (Nat.eqb_spec (fst p) a); simpl; auto; lia.
    + apply SS_filter, Hs.
    + apply Forall_forall. intros p Hp. apply filter_In in Hp as [Hp Hn].
      rewrite Forall_forall in Hb. specialize (Hb p Hp).
      apply negb_true_iff, Nat.eqb_neq in Hn. lia.
Qed.

Lemma trow_from_bounds : forall (cs : list (list (nat * T))) k i,
  Forall (fun p => k <= fst p < k + List.length cs)%nat (trow_from k i cs).
Proof.
  induction cs as [|c cs IH]; intros k i; [constructor|]. cbn [trow_from].
  apply Forall_app. split.
  - apply Forall_forall. intros p Hp. apply in_map_iff in Hp as (q & <- & _). simpl. lia.
  - eapply Forall_impl; [|apply IH]. simpl. intros p Hp. lia.
Qed.

Lemma trow_from_map_seq : forall m k j (f : nat -> list (nat * T)),
  trow_from k j (map f (seq k m)) =
  flat_map (fun i => map (fun p => (i, snd p)) (filter (fun p => (fst p =? j)%nat) (f i))) (seq k m).
Proof.
  induction m as [|m IH]; intros k j f; [reflexivity|].
  cbn [seq map trow_from flat_map]. rewrite IH. reflexivity.
Qed.

Lemma filter_map_key : forall k j (l : list (nat * T)),
  filter (fun p => (fst p =? j)%nat) (map (fun p => (k, snd p)) l) =
  if (k =? j)%nat then map (fun p => (k, snd p)) l else [].
Proof.
  intros k j l. destruct (Nat.eqb k j) eqn:E.
  - apply filter_all_true. intros x Hx. apply in_map_iff in Hx as (q & <- & _). exact E.
  - apply filter_all_false. intros x Hx. apply in_map_iff in Hx as (q & <- & _). exact E.
Qed.

Lemma filter_trow_from : forall (cs : list (list (nat * T))) k i j, (k <= j)%nat ->
  filter (fun p => (fst p =? j)%nat) (trow_from k i cs) =
  map (fun p => (j, snd p)) (filter (fun p => (fst p =? i)%nat) (nth (j - k) cs [])).
Proof.
  induction cs as [|c cs IH]; intros k i j Hk.
  - simpl. destruct (j - k)%nat; reflexivity.
  - cbn [trow_from]. rewrite filter_app, filter_map_key.
    destruct (Nat.eqb_spec k j) as [<-|Hne].
    + rewrite Nat.sub_diag. simpl nth.
      rewrite (filter_all_false _ (trow_from (S k) i cs)); [apply app_nil_r|].
      intros p Hp. pose proof (trow_from_bounds cs (S k) i) as B.
      rewrite Forall_forall in B. specialize (B p Hp). apply Nat.eqb_neq. lia.
    + simpl app. rewrite IH by lia.
      replace (j - k)%nat with (S (j - S k)) by lia. reflexivity.
Qed.

Lemma map_key_filter : forall i (l : list (nat * T)),
  map (fun p => (i, snd p)) (filter (fun p => (fst p =? i)%nat) l) =
  filter (fun p => (fst p =? i)%nat) l.
Proof.
  intros i l. rewrite <- map_id. apply map_ext_in. intros [a b] H.
  apply filter_In in H as [_ H]. apply Nat.eqb_eq in H. simpl in *. subst. reflexivity.
Qed.

Lemma map_nth_seq_id : forall (l : list (list (nat * T))),
  map (fun j => nth j l []) (seq 0 (List.length l)) = l.
Proof.
  induction l as [|x l IH]; [reflexivity|].
  cbn [List.length seq map]. rewrite <- seq_shift, map_map. simpl. f_equal. exact IH.
Qed.

(** Transposing twice gives back the columns. *)
Lemma tcols_tcols : forall n1 (cs : list (list (nat * T))), cols_ok n1 cs ->
  tcols (List.length cs) (tcols n1 cs) = cs.
Proof.
  intros n1 cs Hok. unfold tcols at 1.
  transitivity (map (fun j => nth j cs []) (seq 0 (List.length cs))); [|apply map_nth_seq_id].
  apply map_ext_in. intros j Hj.
  apply in_seq in Hj.
  unfold tcols. rewrite trow_from_map_seq.
  assert (Hc : StronglySorted (fun p q => fst p < fst q)%nat (nth j cs []) /\
               Forall (fun p => fst p < n1)%nat (nth j cs [])).
  { unfold cols_ok in Hok. rewrite Forall_forall in Hok. apply Hok, nth_In. lia. }
  destruct Hc as [Hs Hb].
  transitivity (flat_map (fun i => filter (fun p => (fst p =? i)%nat) (nth j cs [])) (seq 0 n1));
    [|apply regroup; [exact Hs|]].
  - apply flat_map_ext. intros i.
    rewrite filter_trow_from, Nat.sub_0_r, map_map by lia. simpl.
    apply map_key_filter.
  - eapply Forall_impl; [|exact Hb]. simpl. lia.
Qed.

Lemma filter_key_le1 : forall i (c : list (nat * T)), (StronglySorted (fun p q : nat * T => (fst p < fst q)%nat)) c ->
  (List.length (filter (fun p => (fst p =? i)%nat) c) <= 1)%nat.
Proof.
  induction c as [|p c IH]; intros H; simpl; [lia|].
  apply StronglySorted_inv in H as [Hs F].
  destruct (Nat.eqb_spec (fst p) i) as [E|E]; simpl.
  - rewrite filter_all_false; [simpl; lia|]. intros q Hq.
    rewrite Forall_forall in F. specialize (F q Hq). apply Nat.eqb_neq. lia.
  - apply IH, Hs.
Qed.

Lemma trow_from_sorted : forall (cs : list (list (nat * T))) k i,
  Forall (StronglySorted (fun p q : nat * T => (fst p < fst q)%nat)) cs -> (StronglySorted (fun p q : nat * T => (fst p < fst q)%nat)) (trow_from k i cs).
Proof.
  induction cs as [|c cs IH]; intros k i H; [constructor|].
  inversion H as [|? ? Hc Hcs]; subst. cbn [trow_from].
  pose proof (filter_key_le1 i c Hc) as L.
  destruct (filter (fun p => (fst p =? i)%nat) c) as [|x [|y l]]; simpl in L |- *; [| |lia].
  - apply IH, Hcs.
  - constructor; [apply IH, Hcs|].
    eapply Forall_impl; [|apply trow_from_bounds]. simpl. intros p Hp. lia.
Qed.

(** The columns of the transpose satisfy the column invariant. *)
Lemma tcols_ok : forall n1 (cs : list (list (nat * T))), cols_ok n1 cs ->
  cols_ok (List.length cs) (tcols n1 cs).
Proof.
  intros n1 cs Hok. unfold cols_ok, tcols. apply Forall_map, Forall_forall. intros i _.
  split.
  - apply trow_from_sorted. eapply Forall_impl; [|exact Hok]. simpl. tauto.
  - eapply Forall_impl; [|apply trow_from_bounds]. simpl. lia.
Qed.

Lemma length_tcols : forall n1 (cs : list (list (nat * T))), List.length (tcols n1 cs) = n1.
Proof. intros. unfold tcols. rewrite length_map, length_seq. reflexivity. Qed.

Lemma transpose_transpose : forall n1 (cs : list (list (nat * T))), cols_ok n1 cs ->
  transpose (transpose (of_cols n1 cs)) = of_cols n1 cs.
Proof.
  intros n1 cs Hok. rewrite !transpose_of_cols, length_tcols, tcols_tcols by exact Hok.
  reflexivity.
Qed.

End Transpose.

Section Horizontal.
Context {T : Type}.

Lemma ci_from_hd : forall (cs : list (list (nat * T))) a, ci_from a cs = a :: tl (ci_from a cs).
Proof. intros [|c cs] a; reflexivity. Qed.

Lemma length_ci_from : forall (cs : list (list (nat * T))) a,
  List.length (ci_from a cs) = S (List.length cs).
Proof. induction cs as [|c cs IH]; intros a; simpl; [reflexivity|]. rewrite IH. reflexivity. Qed.

Lemma last_cons_ne : forall (x : nat) l d, l <> [] -> last (x :: l) d = last l d.
Proof. intros x [|y l] d H; [congruence|reflexivity]. Qed.

Lemma last_ci_from : forall (cs : list (list (nat * T))) a,
  last (ci_from a cs) 0 = (a + List.length (List.concat (map (map fst) cs)))%nat.
Proof.
  induction cs as [|c cs IH]; intros a; [simpl; lia|].
  cbn [ci_from]. rewrite last_cons_ne by (rewrite ci_from_hd; discriminate).
  rewrite IH. cbn [map List.concat]. rewrite length_app, length_map. lia.
Qed.

Lemma ci_from_app : forall (cs1 cs2 : list (list (nat * T))) a,
  ci_from a (cs1 ++ cs2) =
  firstn (List.length cs1) (ci_from a cs1) ++ ci_from (last (ci_from a cs1) 0) cs2.
Proof.
  induction cs1 as [|c cs1 IH]; intros cs2 a; [reflexivity|].
  cbn [app ci_from List.length firstn]. rewrite IH. cbn [app].
  rewrite last_cons_ne by (rewrite ci_from_hd; discriminate). reflexivity.
Qed.

Lemma ci_from_snoc : forall (cs : list (list (nat * T))) a,
  firstn (List.length cs) (ci_from a cs) ++ [last (ci_from a cs) 0] = ci_from a cs.
Proof.
  intros cs a. pose proof (ci_from_app cs [] a) as E.
  rewrite app_nil_r in E. rewrite E at 3. reflexivity.
Qed.

Lemma map_sub_ci_from : forall (cs : list (list (nat * T))) a d, (d <= a)%nat ->
  map (fun c => c - d)%nat (ci_from a cs) = ci_from (a - d) cs.
Proof.
  induction cs as [|c cs IH]; intros a d H; [reflexivity|].
  cbn [ci_from map]. rewrite IH by lia. do 2 f_equal. lia.
Qed.

Lemma map_add_ci_from : forall (cs : list (list (nat * T))) a d,
  map (fun c => c + d)%nat (ci_from a cs) = ci_from (a + d) cs.
Proof.
  induction cs as [|c cs IH]; intros a d; [reflexivity|].
  cbn [ci_from map]. rewrite IH. do 2 f_equal. lia.
Qed.

Lemma append_of_cols_core : forall n1 (cs1 cs2 : list (list (nat * T))),
  mk_matrix n1 (List.length cs1 + List.length cs2)
    (ci_from 0 cs1 ++ map (fun c => c + last (ci_from 0 cs1) 0)%nat (tl (ci_from 0 cs2)))
    (List.concat (map (map fst) cs1) ++ List.concat (map (map fst) cs2))
    (List.concat (map (map snd) cs1) ++ List.concat (map (map snd) cs2))
  = of_cols n1 (cs1 ++ cs2).
Proof.
  intros n1 cs1 cs2. unfold of_cols. rewrite !map_app, !concat_app, length_app. f_equal.
  rewrite ci_from_app. set (L := last (ci_from 0 cs1) 0).
  transitivity (firstn (List.length cs1) (ci_from 0 cs1) ++ [L] ++ tl (ci_from L cs2)).
  - rewrite app_assoc. unfold L. rewrite ci_from_snoc. f_equal. fold L.
    destruct cs2 as [|c cs2]; [reflexivity|]. cbn [ci_from tl].
    rewrite map_add_ci_from. f_equal. lia.
  - rewrite (ci_from_hd cs2 L) at 2. reflexivity.
Qed.

(** Appending the matrices of two column lists with the same row count. *)
Lemma appendColumns_of_cols : forall n1 (cs1 cs2 : list (list (nat * T))),
  appendColumns (of_cols n1 cs1) (of_cols n1 cs2) = Ok (of_cols n1 (cs1 ++ cs2)).
Proof.
  intros n1 cs1 cs2. unfold appendColumns.
  destruct (Nat.eqb_spec n1 0) as [->|Hn].
  - destruct cs1 as [|c1 cs1']; [reflexivity|].
    destruct cs2 as [|c2 cs2']; [cbn; rewrite app_nil_r; reflexivity|].
    cbn [size1 size2 of_cols colind row data List.length andb Nat.eqb negb].
    f_equal. exact (append_of_cols_core 0 (c1 :: cs1') (c2 :: cs2')).
  - cbn [size1 size2 of_cols colind row data].
    replace (n1 =? 0)%nat with false by (symmetry; apply Nat.eqb_neq; exact Hn).
    rewrite Nat.eqb_refl. cbn [andb negb].
    f_equal. apply append_of_cols_core.
Qed.

Lemma horzcat_fold_of_cols : forall n1 (css : list (list (list (nat * T)))) acc,
  fold_left (fun ret y => res_bind ret (fun r => appendColumns r y))
            (map (of_cols n1) css) (Ok (of_cols n1 acc))
  = Ok (of_cols n1 (acc ++ List.concat css)).
Proof.
  induction css as [|c css IH]; intros acc; simpl.
  - rewrite app_nil_r. reflexivity.
  - rewrite appendColumns_of_cols, IH, app_assoc. reflexivity.
Qed.

(** [horzcat] of a non-empty list of matrices with [n1] rows. *)
Lemma horzcat_of_cols : forall n1 c (css : list (list (list (nat * T)))),
  horzcat (map (of_cols n1) (c :: css)) = Ok (of_cols n1 (c ++ List.concat css)).
Proof.
  intros n1 c css. unfold horzcat. cbn [map fold_left].
  replace (res_bind (Ok empty_matrix) (fun r => appendColumns r (of_cols n1 c)))
    with (@Ok (matrix T) (of_cols n1 c)) by reflexivity.
  apply (horzcat_fold_of_cols n1 css c).
Qed.

(** A piece cut by [horzsplit] is the matrix of the corresponding columns. *)
Lemma split_piece_app : forall n1 (p q r : list (list (nat * T))),
  split_piece (of_cols n1 (p ++ q ++ r)) (List.length p) (List.length p + List.length q)
  = of_cols n1 q.
Proof.
  intros n1 p q r. unfold split_piece, of_cols; cbn [size1 colind row data].
  set (Lp := last (ci_from 0 p) 0).
  set (Lq := last (ci_from Lp q) 0).
  assert (Eci : ci_from 0 (p ++ q ++ r) = firstn (List.length p) (ci_from 0 p) ++ ci_from Lp (q ++ r))
    by apply ci_from_app.
  assert (Fp : List.length (firstn (List.length p) (ci_from 0 p)) = List.length p)
    by (rewrite length_firstn, length_ci_from; lia).
  assert (Eqr : ci_from Lp (q ++ r) = firstn (List.length q) (ci_from Lp q) ++ ci_from Lq r)
    by apply ci_from_app.
  assert (Fq : List.length (firstn (List.length q) (ci_from Lp q)) = List.length q)
    by (rewrite length_firstn, length_ci_from; lia).
  assert (N0 : nth (List.length p) (ci_from 0 (p ++ q ++ r)) 0 = Lp).
  { rewrite Eci, app_nth2 by lia. rewrite Fp, Nat.sub_diag, ci_from_hd. reflexivity. }
  assert (N1 : nth (List.length p + List.length q) (ci_from 0 (p ++ q ++ r)) 0 = Lq).
  { rewrite Eci, app_nth2 by lia. rewrite Fp. replace (List.length p + List.length q - List.length p)%nat
      with (List.length q) by lia.
    rewrite Eqr, app_nth2 by lia. rewrite Fq, Nat.sub_diag, ci_from_hd. reflexivity. }
  assert (HLp : Lp = List.length (List.concat (map (map fst) p))) by (unfold Lp; rewrite last_ci_from; lia).
  assert (HLq : Lq = (Lp + List.length (List.concat (map (map fst) q)))%nat) by (unfold Lq; apply last_ci_from).
  rewrite N0, N1. f_equal.
  - lia.
  - unfold slice. rewrite Eci, skipn_app, Fp, Nat.sub_diag, skipn_all2 by lia. simpl.
    replace (List.length p + List.length q + 1 - List.length p)%nat with (List.length q + 1)%nat by lia.
    rewrite Eqr, firstn_app, Fq, firstn_all2 by lia.
    replace (List.length q + 1 - List.length q)%nat with 1%nat by lia.
    rewrite (ci_from_hd r Lq). simpl. fold Lq. rewrite ci_from_snoc.
    rewrite map_sub_ci_from by lia. rewrite Nat.sub_diag. reflexivity.
  - rewrite !map_app, !concat_app, HLq, HLp. apply slice_prefix.
  - rewrite !map_app, !concat_app, HLq, HLp.
    replace (List.length (List.concat (map (map fst) p))) with (List.length (List.concat (map (map snd) p))).
    2:{ rewrite !length_concat, !map_map. f_equal. apply map_ext. intros. rewrite !length_map. reflexivity. }
    replace (List.length (List.concat (map (map fst) q))) with (List.length (List.concat (map (map snd) q))).
    2:{ rewrite !length_concat, !map_map. f_equal. apply map_ext. intros. rewrite !length_map. reflexivity. }
    apply slice_prefix.
Qed.

Lemma split_piece_of_cols : forall n1 (cs : list (list (nat * T))) a b,
  (a <= b <= List.length cs)%nat ->
  split_piece (of_cols n1 cs) a b = of_cols n1 (slice a b cs).
Proof.
  intros n1 cs a b H.
  assert (E : cs = firstn a cs ++ slice a b cs ++ skipn b cs).
  { assert (E1 : skipn b cs = skipn (b - a) (skipn a cs))
      by (rewrite skipn_skipn; f_equal; lia).
    unfold slice. rewrite E1, !firstn_skipn. reflexivity. }
  assert (La : List.length (firstn a cs) = a) by (rewrite length_firstn; lia).
  assert (Lb : List.length (slice a b cs) = (b - a)%nat) by (rewrite length_slice; lia).
  pose proof (split_piece_app n1 (firstn a cs) (slice a b cs) (skipn b cs)) as P.
  rewrite La, Lb, <- E in P. replace (a + (b - a))%nat with b in P by lia. exact P.
Qed.

End Horizontal.

Lemma nondecreasing_nth : forall (L : list nat) i, nondecreasing L = true ->
  (S i < List.length L)%nat -> (nth i L 0 <= nth (S i) L 0)%nat.
Proof.
  induction L as [|a L IH]; intros i H Hi; [simpl in Hi; lia|].
  destruct L as [|b L]; [simpl in Hi; lia|].
  cbn [nondecreasing] in H. apply andb_prop in H as [H1 H2].
  destruct i as [|i]; [simpl; apply Nat.leb_le; exact H1|].
  apply (IH i H2). simpl in *. lia.
Qed.

Lemma nondecreasing_nth_last : forall (L : list nat) j, nondecreasing L = true ->
  (j < List.length L)%nat -> (nth j L 0 <= last L 0)%nat.
Proof.
  induction L as [|a L IH]; intros j H Hj; [simpl in Hj; lia|].
  destruct L as [|b L]; [destruct j; simpl in *; lia|].
  destruct j as [|j]; [apply last_in_bound; exact H|].
  rewrite last_cons2. cbn [nondecreasing] in H. apply andb_prop in H as [_ H2].
  apply (IH j H2). simpl in *. lia.
Qed.

Lemma isMonotone_nondecreasing : forall (O : list Z) n, isMonotone O = true ->
  (0 <= hd 0 O)%Z -> (last O 0 <= Z.of_nat n)%Z ->
  nondecreasing (map Z.to_nat O ++ [n]) = true.
Proof.
  induction O as [|a O IH]; intros n Hm H0 Hl; [reflexivity|].
  destruct O as [|b O].
  - simpl in *. rewrite andb_true_r. apply Nat.leb_le. lia.
  - cbn [isMonotone] in Hm. apply andb_prop in Hm as [Hab Hm].
    apply Z.leb_le in Hab. simpl in H0.
    change (nondecreasing (Z.to_nat a :: (map Z.to_nat (b :: O) ++ [n])) = true).
    cbn [map app nondecreasing]. apply andb_true_intro. split.
    + apply Nat.leb_le. lia.
    + apply (IH n Hm); [simpl; lia|exact Hl].
Qed.

Section Telescope.
Context {A : Type}.

Lemma slices_telescope : forall (cs : list A) (L : list nat) x,
  nondecreasing (x :: L) = true ->
  List.concat (map (fun i => slice (nth i (x :: L) 0) (nth (S i) (x :: L) 0) cs)
                   (seq 0 (List.length L)))
  = slice x (last (x :: L) 0) cs.
Proof.
  intros cs L. induction L as [|y L IH]; intros x H.
  - simpl. unfold slice. rewrite Nat.sub_diag. reflexivity.
  - cbn [List.length seq map List.concat].
    rewrite <- seq_shift, map_map. rewrite last_cons2.
    cbn [nondecreasing] in H. apply andb_prop in H as [Hxy H].
    apply Nat.leb_le in Hxy.
    transitivity (slice x y cs ++ slice y (last (y :: L) 0) cs).
    + cbn [nth]. f_equal. apply IH. exact H.
    + apply slice_adj. split; [exact Hxy|]. apply last_in_bound. exact H.
Qed.

End Telescope.

Section HorzRoundTrip.
Context {T : Type}.

(** A successful [horzsplit] of the matrix of [cs] cuts [cs] into
    consecutive slices. *)
Lemma horzsplit_of_cols_shape : forall n1 (cs : list (list (nat * T))) O Ps,
  horzsplit (of_cols n1 cs) O = Ok Ps ->
  exists css, Ps = map (of_cols n1) css /\ css <> [] /\ List.concat css = cs /\
    Forall (fun c => exists a b, c = slice a b cs) css.
Proof.
  intros n1 cs O Ps H. unfold horzsplit in H. cbn [size2 of_cols] in H.
  destruct (1 <=? List.length O)%nat eqn:E1; [|discriminate].
  destruct (hd 0 O =? 0)%Z eqn:E2; [|discriminate].
  destruct (last O 0 <=? Z.of_nat (List.length cs))%Z eqn:E3; [|discriminate].
  destruct (isMonotone O) eqn:E4; [|discriminate].
  cbn [negb] in H. injection H as <-.
  apply Nat.leb_le in E1. apply Z.eqb_eq in E2. apply Z.leb_le in E3.
  set (n := List.length cs).
  set (L := map Z.to_nat O ++ [n]).
  assert (HL : nondecreasing L = true) by (apply isMonotone_nondecreasing; auto; lia).
  assert (Hlen : List.length L = S (List.length O))
    by (unfold L; rewrite length_app, length_map; simpl; lia).
  assert (Hlast : last L 0 = n) by (unfold L; apply last_last).
  assert (Hnth : forall i, (i < List.length O)%nat -> Z.to_nat (nth i O 0%Z) = nth i L 0).
  { intros i Hi. unfold L. rewrite app_nth1 by (rewrite length_map; lia).
    rewrite <- (map_nth Z.to_nat O 0%Z i). reflexivity. }
  rewrite (map_ext_in _ (fun i => of_cols n1 (slice (nth i L 0) (nth (S i) L 0) cs))).
  2:{ intros i Hi. apply in_seq in Hi. cbn zeta.
      rewrite Hnth by lia.
      replace (if (i + 1 <? List.length O)%nat then Z.to_nat (nth (i + 1) O 0%Z) else n)
        with (nth (S i) L 0).
      - apply split_piece_of_cols. split.
        + apply nondecreasing_nth; [exact HL|lia].
        + fold n. rewrite <- Hlast. apply nondecreasing_nth_last; [exact HL|lia].
      - destruct (Nat.ltb_spec (i + 1) (List.length O)).
        + rewrite Nat.add_1_r in *. symmetry. apply Hnth. exact H.
        + unfold L. rewrite app_nth2 by (rewrite length_map; lia).
          rewrite length_map. replace (S i - List.length O)%nat with 0%nat by lia. reflexivity. }
  destruct O as [|z O']; [simpl in E1; lia|].
  simpl in E2. subst z.
  assert (HL0 : L = 0%nat :: (map Z.to_nat O' ++ [n])) by reflexivity.
  exists (map (fun i => slice (nth i L 0) (nth (S i) L 0) cs) (seq 0 (List.length (0%Z :: O')))).
  split; [rewrite map_map; reflexivity|]. split; [simpl; discriminate|]. split.
  - cbn [List.length].
    replace (S (List.length O')) with (List.length (map Z.to_nat O' ++ [n]))
      by (rewrite length_app, length_map; simpl; lia).
    rewrite HL0. rewrite slices_telescope by (rewrite <- HL0; exact HL).
    rewrite <- HL0, Hlast. apply slice_full.
  - apply Forall_map, Forall_forall. intros i _. eexists. eexists. reflexivity.
Qed.

(** Splitting the matrix of [cs] at valid offsets and concatenating the
    pieces gives the matrix back. *)
Lemma horzsplit_horzcat_of_cols : forall n1 (cs : list (list (nat * T))) O Ps,
  horzsplit (of_cols n1 cs) O = Ok Ps -> horzcat Ps = Ok (of_cols n1 cs).
Proof.
  intros n1 cs O Ps H.
  destruct (horzsplit_of_cols_shape n1 cs O Ps H) as (css & -> & Hne & Hc & _).
  destruct css as [|c css]; [congruence|].
  rewrite horzcat_of_cols. rewrite <- Hc. reflexivity.
Qed.

Lemma fold_left_map_res : forall {A B} (f : B -> A -> B) (g : A -> A) (l : list A) b,
  fold_left f (map g l) b = fold_left (fun acc y => f acc (g y)) l b.
Proof. intros A B f g l. induction l as [|x l IH]; intros b; [reflexivity|]. apply IH. Qed.

(** [vertcat] concatenates the transposes horizontally and transposes back. *)
Lemma vertcat_horzcat : forall v : list (matrix T),
  vertcat v = res_bind (horzcat (map transpose v)) (fun r => Ok (transpose r)).
Proof. intros v. unfold vertcat, horzcat. rewrite fold_left_map_res. reflexivity. Qed.

Lemma cols_ok_slice : forall n1 (cs : list (list (nat * T))) a b,
  cols_ok n1 cs -> cols_ok n1 (slice a b cs).
Proof.
  intros n1 cs a b H. unfold cols_ok, slice in *.
  apply Forall_forall. intros c Hc. rewrite Forall_forall in H. apply H.
  rewrite <- (firstn_skipn a cs). apply in_or_app. right.
  rewrite <- (firstn_skipn (b - a) (skipn a cs)). apply in_or_app. left. exact Hc.
Qed.

Lemma wfb_cols_ok : forall M : matrix T, wfb M = true -> cols_ok (size1 M) (cols M).
Proof.
  intros M W. apply cols_okb_ok. unfold wfb in W. repeat rewrite andb_true_iff in W. tauto.
Qed.

(** The vertical round trip on a well-formed matrix. *)
Lemma vertsplit_vertcat_wf : forall (M : matrix T) O Ps, wfb M = true ->
  vertsplit M O = Ok Ps -> vertcat Ps = Ok M.
Proof.
  intros M O Ps W H. unfold vertsplit in H.
  destruct (horzsplit (transpose M) O) as [Qs|e] eqn:Eh; [|discriminate].
  cbn in H. injection H as <-.
  pose proof (of_cols_cols M W) as EM. pose proof (wfb_cols_ok M W) as Hok.
  set (n1 := size1 M) in *. set (cs := cols M) in *.
  rewrite <- EM, transpose_of_cols in Eh.
  destruct (horzsplit_of_cols_shape _ _ O Qs Eh) as (css & -> & Hne & Hc & Hs).
  rewrite vertcat_horzcat, !map_map.
  rewrite (map_ext_in (fun x => transpose (transpose (of_cols (List.length cs) x))) (of_cols (List.length cs))).
  2:{ intros c Hin. rewrite Forall_forall in Hs. destruct (Hs c Hin) as (a & b & ->).
      apply transpose_transpose, cols_ok_slice, tcols_ok, Hok. }
  destruct css as [|c css]; [congruence|].
  rewrite horzcat_of_cols. cbn [res_bind]. f_equal.
  change (c ++ List.concat css) with (List.concat (c :: css)). rewrite Hc.
  rewrite <- transpose_of_cols, transpose_transpose by exact Hok. exact EM.
Qed.

Lemma res_mapM_inverse : forall {A B} (f : A -> res B) (g : B -> res A) l l',
  res_mapM f l = Ok l' -> (forall x y, In x l -> f x = Ok y -> g y = Ok x) ->
  res_mapM g l' = Ok l.
Proof.
  intros A B f g l. induction l as [|x l IH]; intros l' H Hfg; [injection H as <-; reflexivity|].
  cbn [res_mapM] in H. destruct (f x) as [y|e] eqn:Ef; [|discriminate]. cbn in H.
  destruct (res_mapM f l) as [ys|e] eqn:Em; [|discriminate]. cbn in H. injection H as <-.
  cbn [res_mapM]. rewrite (Hfg x y (or_introl eq_refl) Ef). cbn.
  rewrite (IH ys eq_refl (fun x' y' Hin => Hfg x' y' (or_intror Hin))). reflexivity.
Qed.

(** The block round trip on a well-formed matrix. *)
Lemma blocksplit_blockcat_wf : forall (M : matrix T) vo ho Pss, wfb M = true ->
  blocksplit M vo ho = Ok Pss -> blockcat Pss = Ok M.
Proof.
  intros M vo ho Pss W H. unfold blocksplit in H.
  destruct (vertsplit M vo) as [rows|e] eqn:Ev; [|discriminate]. cbn in H.
  unfold blockcat. rewrite (res_mapM_inverse _ horzcat rows Pss H).
  - cbn. apply (vertsplit_vertcat_wf M vo rows W Ev).
  - intros r Ps Hin Hs. unfold vertsplit in Ev.
    destruct (horzsplit (transpose M) vo) as [Qs|e] eqn:Eh; [|discriminate].
    cbn in Ev. injection Ev as <-. apply in_map_iff in Hin as (Q & <- & _).
    unfold transpose in *. apply (horzsplit_horzcat_of_cols _ _ ho Ps Hs).
Qed.

Lemma horzsplit_succeeds : forall (v : matrix T) O, offsets_ok O (size2 v) = true ->
  exists Ps, horzsplit v O = Ok Ps /\ Forall (fun P => size1 P = size1 v) Ps.
Proof.
  intros v O H. unfold offsets_ok in H. repeat rewrite andb_true_iff in H.
  destruct H as [[[H1 H2] H3] H4].
  unfold horzsplit. rewrite H1, H2, H3, H4. cbn [negb].
  eexists. split; [reflexivity|].
  apply Forall_map, Forall_forall. intros i _. reflexivity.
Qed.

Lemma res_mapM_succeeds : forall {A B} (f : A -> res B) l,
  (forall x, In x l -> exists y, f x = Ok y) -> exists l', res_mapM f l = Ok l'.
Proof.
  intros A B f l. induction l as [|x l IH]; intros H; [exists []; reflexivity|].
  destruct (H x (or_introl eq_refl)) as [y Hy].
  destruct IH as [l' Hl']; [intros x' Hin; apply H; right; exact Hin|].
  exists (y :: l'). cbn [res_mapM]. rewrite Hy, Hl'. reflexivity.
Qed.

Lemma size2_transpose : forall M : matrix T, size2 (transpose M) = size1 M.
Proof. intros M. unfold transpose. cbn [size2 of_cols]. apply length_tcols. Qed.

Lemma horzsplit_horzcat_wf : forall (M : matrix T) O Ps, wfb M = true ->
  horzsplit M O = Ok Ps -> horzcat Ps = Ok M.
Proof.
  intros M O Ps W H. rewrite <- (of_cols_cols M W) in H |- *.
  apply (horzsplit_horzcat_of_cols _ _ O Ps H).
Qed.

Lemma horzsplit_rejects : forall (v : matrix T) O, offsets_ok O (size2 v) = false ->
  horzsplit v O = Err PreconditionError.
Proof.
  intros v O H. unfold offsets_ok in H. unfold horzsplit.
  destruct (1 <=? List.length O)%nat; [|reflexivity].
  destruct (hd 0 O =? 0)%Z; [|reflexivity].
  destruct (last O 0 <=? Z.of_nat (size2 v))%Z; [|reflexivity].
  destruct (isMonotone O); [discriminate|reflexivity].
Qed.

Lemma offsets_ok_false : forall O n,
  O = [] \/ hd 0%Z O <> 0%Z \/ (Z.of_nat n < last O 0)%Z \/ isMonotone O = false ->
  offsets_ok O n = false.
Proof.
  intros O n H. unfold offsets_ok. destruct H as [->|[H|[H|H]]].
  - reflexivity.
  - apply Z.eqb_neq in H. rewrite H, andb_false_r. reflexivity.
  - assert (E : (last O 0 <=? Z.of_nat n)%Z = false) by (apply Z.leb_gt; exact H).
    rewrite E, andb_false_r. reflexivity.
  - rewrite H, andb_false_r. reflexivity.
Qed.

End HorzRoundTrip.

Section UniteFacts.
Context {T : Type}.

Lemma merge_col_nil_r : forall a, merge_col a [] = map (fun r => (r, 1%nat)) a.
Proof. intros [|ra a]; reflexivity. Qed.

Lemma merge_col_cons : forall ra a rb b, merge_col (ra :: a) (rb :: b) =
  if (ra <? rb)%nat then (ra, 1%nat) :: merge_col a (rb :: b)
  else if (rb <? ra)%nat then (rb, 2%nat) :: merge_col (ra :: a) b
  else (ra, 3%nat) :: merge_col a b.
Proof. reflexivity. Qed.

Lemma skipn_cons_inv : forall {A} n (l : list A) x rest,
  skipn n l = x :: rest -> nth_error l n = Some x /\ skipn (S n) l = rest.
Proof.
  intros A n. induction n as [|n IH]; intros [|y l] x rest H; simpl in *; try discriminate.
  - injection H as E1 E2. subst. auto.
  - apply IH. exact H.
Qed.

Lemma skipn_app_inv : forall {A} n (l p rest : list A),
  skipn n l = p ++ rest -> skipn (n + List.length p) l = rest.
Proof.
  intros A n l p rest H.
  rewrite Nat.add_comm, <- skipn_skipn, H, skipn_app, skipn_all, Nat.sub_diag. reflexivity.
Qed.

Lemma col_entry_cons : forall r0 (v : T) l r,
  col_entry ((r0, v) :: l) r = if (r0 =? r)%nat then Some v else col_entry l r.
Proof. intros. unfold col_entry. simpl. destruct (r0 =? r)%nat; reflexivity. Qed.

Lemma col_entry_above : forall (l : list (nat * T)) r,
  Forall (fun p => r < fst p)%nat l -> col_entry l r = None.
Proof.
  induction l as [|[r0 v] l IH]; intros r H; [reflexivity|].
  inversion H as [|? ? H1 H2]; subst. rewrite col_entry_cons.
  destruct (Nat.eqb_spec r0 r); [simpl in H1; lia|]. apply IH, H2.
Qed.

Lemma col_entry_lt : forall r0 (v : T) l r,
  StronglySorted (fun p q => fst p < fst q)%nat ((r0, v) :: l) -> (r < r0)%nat ->
  col_entry ((r0, v) :: l) r = None.
Proof.
  intros r0 v l r H Hr. apply col_entry_above. constructor; [simpl; exact Hr|].
  apply StronglySorted_inv in H as [_ H]. eapply Forall_impl; [|exact H].
  intros p Hp. simpl in Hp. lia.
Qed.

Lemma unite_fill_app : forall ms1 ms2 (dA dB : list T) a b,
  unite_fill (ms1 ++ ms2) dA dB a b =
  res_bind (unite_fill ms1 dA dB a b) (fun '(vs1, a1, b1) =>
    res_bind (unite_fill ms2 dA dB a1 b1) (fun '(vs2, a2, b2) => Ok (vs1 ++ vs2, a2, b2))).
Proof.
  induction ms1 as [|m ms1 IH]; intros ms2 dA dB a b; cbn [app unite_fill].
  - cbn [res_bind]. destruct (unite_fill ms2 dA dB a b) as [[[vs a2] b2]|e]; reflexivity.
  - destruct (m =? 1)%nat; [|destruct (m =? 2)%nat].
    + destruct (nth_error dA a) as [v|]; [|reflexivity]. rewrite IH.
      destruct (unite_fill ms1 dA dB (S a) b) as [[[vs1 a1] b1]|e]; cbn; [|reflexivity].
      destruct (unite_fill ms2 dA dB a1 b1) as [[[vs2 a2] b2]|e]; reflexivity.
    + destruct (nth_error dB b) as [v|]; [|reflexivity]. rewrite IH.
      destruct (unite_fill ms1 dA dB a (S b)) as [[[vs1 a1] b1]|e]; cbn; [|reflexivity].
      destruct (unite_fill ms2 dA dB a1 b1) as [[[vs2 a2] b2]|e]; reflexivity.
    + reflexivity.
Qed.

(** A column whose merge has a "from both" tag stops the copy loop. *)
Lemma fill_col_err : forall (ca cb : list (nat * T)) dA dB elA elB restA restB,
  In 3%nat (map snd (merge_col (map fst ca) (map fst cb))) ->
  skipn elA dA = map snd ca ++ restA -> skipn elB dB = map snd cb ++ restB ->
  unite_fill (map snd (merge_col (map fst ca) (map fst cb))) dA dB elA elB = Err InvariantViolation.
Proof.
  intros ca. induction ca as [|[ra va] ca IHa]; intros cb; induction cb as [|[rb vb] cb IHb];
    intros dA dB elA elB restA restB H3 HA HB.
  - destruct H3.
  - assert (E : merge_col (map fst (@nil (nat * T))) (map fst ((rb, vb) :: cb))
                = (rb, 2%nat) :: merge_col (map fst (@nil (nat * T))) (map fst cb)) by reflexivity.
    rewrite E in *. cbn [map snd] in H3 |- *. cbn [map snd app] in HB.
    apply skipn_cons_inv in HB as [N HB].
    cbn [unite_fill Nat.eqb]. rewrite N.
    destruct H3 as [H3|H3]; [discriminate|].
    pose proof (IHb dA dB elA (S elB) restA restB H3 HA HB) as R. cbn [map] in R.
    rewrite R. reflexivity.
  - assert (E : merge_col (map fst ((ra, va) :: ca)) (map fst (@nil (nat * T)))
                = (ra, 1%nat) :: merge_col (map fst ca) (map fst (@nil (nat * T))))
      by (cbn [map fst]; rewrite !merge_col_nil_r; reflexivity).
    rewrite E in *. cbn [map snd] in H3 |- *. cbn [map snd app] in HA.
    apply skipn_cons_inv in HA as [N HA].
    cbn [unite_fill Nat.eqb]. rewrite N.
    destruct H3 as [H3|H3]; [discriminate|].
    pose proof (IHa [] dA dB (S elA) elB restA restB H3 HA HB) as R. cbn [map] in R.
    rewrite R. reflexivity.
  - cbn [map fst] in *. rewrite merge_col_cons in *.
    destruct (Nat.ltb_spec ra rb); [|destruct (Nat.ltb_spec rb ra)].
    + cbn [map snd] in H3 |- *. cbn [map snd app] in HA.
      apply skipn_cons_inv in HA as [N HA].
      cbn [unite_fill Nat.eqb]. rewrite N.
      destruct H3 as [H3|H3]; [discriminate|].
      pose proof (IHa ((rb, vb) :: cb) dA dB (S elA) elB restA restB H3 HA HB) as R.
      cbn [map fst] in R. rewrite R. reflexivity.
    + cbn [map snd] in H3 |- *. cbn [map snd app] in HB.
      apply skipn_cons_inv in HB as [N HB].
      cbn [unite_fill Nat.eqb]. rewrite N.
      destruct H3 as [H3|H3]; [discriminate|].
      pose proof (IHb dA dB elA (S elB) restA restB H3 HA HB) as R.
      cbn [map fst] in R. rewrite R. reflexivity.
    + reflexivity.
Qed.

(** A column without "from both" tags: the loop copies one value per
    merged row, each from the column that owns the row. *)
Lemma fill_col_ok : forall (ca cb : list (nat * T)) dA dB elA elB restA restB,
  StronglySorted (fun p q => fst p < fst q)%nat ca ->
  StronglySorted (fun p q => fst p < fst q)%nat cb ->
  ~ In 3%nat (map snd (merge_col (map fst ca) (map fst cb))) ->
  skipn elA dA = map snd ca ++ restA -> skipn elB dB = map snd cb ++ restB ->
  exists vs,
    unite_fill (map snd (merge_col (map fst ca) (map fst cb))) dA dB elA elB
      = Ok (vs, elA + List.length ca, elB + List.length cb)%nat /\
    List.length vs = List.length (merge_col (map fst ca) (map fst cb)) /\
    forall r, col_entry (combine (map fst (merge_col (map fst ca) (map fst cb))) vs) r =
              match col_entry ca r with Some v => Some v | None => col_entry cb r end.
Proof.
  intros ca. induction ca as [|[ra va] ca IHa]; intros cb; induction cb as [|[rb vb] cb IHb];
    intros dA dB elA elB restA restB Sa Sb H3 HA HB.
  - exists []. cbn. rewrite !Nat.add_0_r. auto.
  - assert (E : merge_col (map fst (@nil (nat * T))) (map fst ((rb, vb) :: cb))
                = (rb, 2%nat) :: merge_col (map fst (@nil (nat * T))) (map fst cb)) by reflexivity.
    rewrite E in *. cbn [map snd fst] in H3 |- *. cbn [map snd app] in HB.
    apply skipn_cons_inv in HB as [N HB]. apply StronglySorted_inv in Sb as [Sb _].
    assert (H3' : ~ In 3%nat (map snd (merge_col (map fst (@nil (nat * T))) (map fst cb))))
      by (intros H; apply H3; right; exact H).
    destruct (IHb dA dB elA (S elB) restA restB Sa Sb H3' HA HB) as (vs & R & L & C).
    cbn [map fst] in R, L, C.
    exists (vb :: vs). cbn [unite_fill Nat.eqb]. rewrite N, R. cbn [res_bind].
    split; [cbn [List.length]; rewrite ?Nat.add_succ_r, ?Nat.add_succ_l; reflexivity|].
    split; [cbn; f_equal; exact L|].
    intros r. cbn [combine]. rewrite !col_entry_cons, C. reflexivity.
  - assert (E : merge_col (map fst ((ra, va) :: ca)) (map fst (@nil (nat * T)))
                = (ra, 1%nat) :: merge_col (map fst ca) (map fst (@nil (nat * T))))
      by (cbn [map fst]; rewrite !merge_col_nil_r; reflexivity).
    rewrite E in *. cbn [map snd fst] in H3 |- *. cbn [map snd app] in HA.
    apply skipn_cons_inv in HA as [N HA]. apply StronglySorted_inv in Sa as [Sa _].
    assert (H3' : ~ In 3%nat (map snd (merge_col (map fst ca) (map fst (@nil (nat * T))))))
      by (intros H; apply H3; right; exact H).
    destruct (IHa [] dA dB (S elA) elB restA restB Sa Sb H3' HA HB) as (vs & R & L & C).
    cbn [map fst] in R, L, C.
    exists (va :: vs). cbn [unite_fill Nat.eqb]. rewrite N, R. cbn [res_bind].
    split; [cbn [List.length]; rewrite ?Nat.add_succ_r, ?Nat.add_succ_l; reflexivity|].
    split; [cbn; f_equal; exact L|].
    intros r. cbn [combine]. rewrite !col_entry_cons, C.
    destruct (ra =? r)%nat; reflexivity.
  - cbn [map fst] in *. rewrite merge_col_cons in *.
    destruct (Nat.ltb_spec ra rb) as [Hlt|Hge]; [|destruct (Nat.ltb_spec rb ra) as [Hlt'|Hge']].
    + cbn [map snd fst] in H3 |- *. cbn [map snd app] in HA.
      apply skipn_cons_inv in HA as [N HA].
      pose proof Sa as Sa0. apply StronglySorted_inv in Sa as [Sa _].
      assert (H3' : ~ In 3%nat (map snd (merge_col (map fst ca) (map fst ((rb, vb) :: cb)))))
        by (intros H; apply H3; right; exact H).
      destruct (IHa ((rb, vb) :: cb) dA dB (S elA) elB restA restB Sa Sb H3' HA HB) as (vs & R & L & C).
      cbn [map fst] in R, L, C.
      exists (va :: vs). cbn [unite_fill Nat.eqb]. rewrite N, R. cbn [res_bind].
      split; [cbn [List.length]; rewrite ?Nat.add_succ_r, ?Nat.add_succ_l; reflexivity|].
    split; [cbn; f_equal; exact L|].
      intros r. cbn [combine]. rewrite col_entry_cons, C, (col_entry_cons ra va ca r).
      destruct (ra =? r)%nat; reflexivity.
    + cbn [map snd fst] in H3 |- *. cbn [map snd app] in HB.
      apply skipn_cons_inv in HB as [N HB].
      pose proof Sb as Sb0. apply StronglySorted_inv in Sb as [Sb _].
      assert (H3' : ~ In 3%nat (map snd (merge_col (map fst ((ra, va) :: ca)) (map fst cb))))
        by (intros H; apply H3; right; exact H).
      destruct (IHb dA dB elA (S elB) restA restB Sa Sb H3' HA HB) as (vs & R & L & C).
      cbn [map fst] in R, L, C.
      exists (vb :: vs). cbn [unite_fill Nat.eqb]. rewrite N, R. cbn [res_bind].
      split; [cbn [List.length]; rewrite ?Nat.add_succ_r, ?Nat.add_succ_l; reflexivity|].
    split; [cbn; f_equal; exact L|].
      intros r. cbn [combine]. rewrite col_entry_cons, C.
      rewrite (col_entry_cons rb vb cb r).
      destruct (Nat.eqb_spec rb r) as [<-|Hne].
      * rewrite col_entry_lt by assumption. reflexivity.
      * reflexivity.
    + exfalso. apply H3. left. reflexivity.
Qed.

(** The copy loop over all columns of two patterns. *)
Lemma fill_cols : forall (ps : list (list (nat * T) * list (nat * T))) dA dB elA elB restA restB,
  Forall (fun p => StronglySorted (fun x y => fst x < fst y)%nat (fst p) /\
                   StronglySorted (fun x y => fst x < fst y)%nat (snd p)) ps ->
  skipn elA dA = List.concat (map (fun p => map snd (fst p)) ps) ++ restA ->
  skipn elB dB = List.concat (map (fun p => map snd (snd p)) ps) ++ restB ->
  (In 3%nat (List.concat (map (fun p => map snd (merge_col (map fst (fst p)) (map fst (snd p)))) ps)) ->
   unite_fill (List.concat (map (fun p => map snd (merge_col (map fst (fst p)) (map fst (snd p)))) ps))
     dA dB elA elB = Err InvariantViolation) /\
  (~ In 3%nat (List.concat (map (fun p => map snd (merge_col (map fst (fst p)) (map fst (snd p)))) ps)) ->
   exists vss,
     unite_fill (List.concat (map (fun p => map snd (merge_col (map fst (fst p)) (map fst (snd p)))) ps))
       dA dB elA elB
     = Ok (List.concat vss, elA + List.length (List.concat (map (fun p => map snd (fst p)) ps)),
           elB + List.length (List.concat (map (fun p => map snd (snd p)) ps)))%nat /\
     Forall2 (fun p vs =>
       List.length vs = List.length (merge_col (map fst (fst p)) (map fst (snd p))) /\
       forall r, col_entry (combine (map fst (merge_col (map fst (fst p)) (map fst (snd p)))) vs) r =
                 match col_entry (fst p) r with Some v => Some v | None => col_entry (snd p) r end)
       ps vss).
Proof.
  induction ps as [|[ca cb] ps IH]; intros dA dB elA elB restA restB Hs HA HB.
  - cbn. split; [intros []|]. intros _. exists []. rewrite !Nat.add_0_r.
    split; [reflexivity|constructor].
  - inversion Hs as [|? ? [Sa Sb] Hs']; subst. cbn [map List.concat fst snd] in *.
    rewrite <- app_assoc in HA, HB.
    pose proof (skipn_app_inv _ _ _ _ HA) as HA'. pose proof (skipn_app_inv _ _ _ _ HB) as HB'.
    rewrite length_map in HA', HB'.
    destruct (IH dA dB (elA + List.length ca) (elB + List.length cb) restA restB Hs' HA' HB')
      as [IHe IHo].
    rewrite unite_fill_app. split.
    + intros H3. apply in_app_or in H3.
      destruct (in_dec Nat.eq_dec 3%nat (map snd (merge_col (map fst ca) (map fst cb)))) as [H3c|H3c].
      * rewrite (fill_col_err ca cb dA dB elA elB _ _ H3c HA HB). reflexivity.
      * destruct (fill_col_ok ca cb dA dB elA elB _ _ Sa Sb H3c HA HB) as (vs & R & _ & _).
        rewrite R. cbn [res_bind]. rewrite IHe; [reflexivity|].
        destruct H3 as [H3|H3]; [contradiction|exact H3].
    + intros H3.
      assert (H3c : ~ In 3%nat (map snd (merge_col (map fst ca) (map fst cb))))
        by (intros H; apply H3, in_or_app; left; exact H).
      assert (H3r : ~ In 3%nat (List.concat (map (fun p => map snd (merge_col (map fst (fst p))
                                   (map fst (snd p)))) ps)))
        by (intros H; apply H3, in_or_app; right; exact H).
      destruct (fill_col_ok ca cb dA dB elA elB _ _ Sa Sb H3c HA HB) as (vs & R & L & C).
      destruct (IHo H3r) as (vss & R' & F).
      exists (vs :: vss). rewrite R. cbn [res_bind]. rewrite R'. cbn [res_bind List.concat].
      split; [rewrite !length_app, !length_map, !Nat.add_assoc; reflexivity|].
      constructor; [split; assumption|exact F].
Qed.

Lemma Forall_combine : forall {A B} (P : A -> Prop) (Q : B -> Prop) l1 l2,
  Forall P l1 -> Forall Q l2 -> Forall (fun p => P (fst p) /\ Q (snd p)) (combine l1 l2).
Proof.
  intros A B P Q l1. induction l1 as [|x l1 IH]; intros [|y l2] H1 H2; cbn; try constructor.
  - inversion H1; inversion H2; subst. split; assumption.
  - inversion H1; inversion H2; subst. apply IH; assumption.
Qed.

Lemma ci_from_ext : forall {A B} (xs : list (list (nat * A))) (ys : list (list (nat * B))) a,
  map (@List.length _) xs = map (@List.length _) ys -> ci_from a xs = ci_from a ys.
Proof.
  intros A B xs. induction xs as [|x xs IH]; intros [|y ys] a H; try discriminate; [reflexivity|].
  injection H as H1 H2. cbn. rewrite H1, (IH ys _ H2). reflexivity.
Qed.

(** The matrix [unite] builds from the union pattern and the copied
    values, as a list of columns. *)
Lemma unite_result_cols : forall n1 (ps : list (list (nat * T) * list (nat * T))) (vss : list (list T)),
  Forall2 (fun p vs => List.length vs = List.length (merge_col (map fst (fst p)) (map fst (snd p)))) ps vss ->
  mk_matrix n1 (List.length (map (map (fun q => (fst q, tt)))
                   (map (fun p => merge_col (map fst (fst p)) (map fst (snd p))) ps)))
    (ci_from 0 (map (map (fun q => (fst q, tt)))
                   (map (fun p => merge_col (map fst (fst p)) (map fst (snd p))) ps)))
    (List.concat (map (map fst) (map (map (fun q => (fst q, tt)))
                   (map (fun p => merge_col (map fst (fst p)) (map fst (snd p))) ps))))
    (List.concat vss)
  = of_cols n1 (map (fun q => combine (map fst (merge_col (map fst (fst (fst q))) (map fst (snd (fst q)))))
                                        (snd q)) (combine ps vss)).
Proof.
  intros n1 ps vss F. unfold of_cols. f_equal.
  - rewrite !length_map, length_combine. apply Forall2_length in F. lia.
  - apply ci_from_ext. induction F as [|p vs ps vss Hp F IH]; [reflexivity|].
    cbn [map combine]. rewrite IH. f_equal. cbn [fst snd].
    rewrite !length_map, length_combine, length_map. lia.
  - induction F as [|p vs ps vss Hp F IH]; [reflexivity|].
    cbn [map combine List.concat]. rewrite IH. f_equal. cbn [fst snd].
    rewrite map_fst_combine by (rewrite length_map; lia). rewrite !map_map. reflexivity.
  - induction F as [|p vs ps vss Hp F IH]; [reflexivity|].
    cbn [map combine List.concat]. rewrite IH. f_equal. cbn [fst snd].
    rewrite map_snd_combine by (rewrite length_map; lia). reflexivity.
Qed.

Lemma unite_result_entry : forall (ps : list (list (nat * T) * list (nat * T))) (vss : list (list T)),
  Forall2 (fun p vs =>
       List.length vs = List.length (merge_col (map fst (fst p)) (map fst (snd p))) /\
       forall r, col_entry (combine (map fst (merge_col (map fst (fst p)) (map fst (snd p)))) vs) r =
                 match col_entry (fst p) r with Some v => Some v | None => col_entry (snd p) r end)
    ps vss ->
  forall c r,
  col_entry (nth c (map (fun q => combine (map fst (merge_col (map fst (fst (fst q))) (map fst (snd (fst q)))))
                                          (snd q)) (combine ps vss)) []) r
  = match col_entry (nth c (map fst ps) []) r with
    | Some v => Some v
    | None => col_entry (nth c (map snd ps) []) r
    end.
Proof.
  intros ps vss F. induction F as [|p vs ps vss [_ Hp] F IH]; intros c r.
  - destruct c; reflexivity.
  - destruct c as [|c]; cbn [map combine nth]; [apply Hp|apply IH].
Qed.

Lemma unite_of_cols : forall n1 n1' (csA csB : list (list (nat * T))) spu mapping,
  cols_ok n1 csA -> cols_ok n1' csB ->
  patternUnion (of_cols n1 csA) (of_cols n1' csB) = Ok (spu, mapping) ->
  (In 3%nat mapping -> unite (of_cols n1 csA) (of_cols n1' csB) = Err InvariantViolation) /\
  (~ In 3%nat mapping -> exists R, unite (of_cols n1 csA) (of_cols n1' csB) = Ok R /\
     size1 R = n1 /\ size2 R = List.length csA /\
     forall r c, entry R r c = match entry (of_cols n1 csA) r c with
                               | Some v => Some v
                               | None => entry (of_cols n1' csB) r c
                               end).
Proof.
  intros n1 n1' csA csB spu mapping HA HB HU.
  pose proof HU as HU0. unfold patternUnion in HU. rewrite !cols_of_cols in HU.
  cbn [size1 size2 of_cols] in HU.
  destruct (Nat.eqb_spec n1 n1') as [<-|]; [|discriminate].
  destruct (Nat.eqb_spec (List.length csA) (List.length csB)) as [Hl|]; [|discriminate].
  cbn [andb negb] in HU. injection HU as <- <-.
  set (ps := combine csA csB) in *.
  assert (Hm : map (fun '(ca, cb) => merge_col (map fst ca) (map fst cb)) ps
               = map (fun p => merge_col (map fst (fst p)) (map fst (snd p))) ps)
    by (apply map_ext; intros [ca cb]; reflexivity).
  assert (HdA : data (of_cols n1 csA) = List.concat (map (fun p => map snd (fst p)) ps) ++ []).
  { rewrite app_nil_r. unfold ps. rewrite <- (map_map fst (map snd)), map_fst_combine by lia.
    reflexivity. }
  assert (HdB : data (of_cols n1 csB) = List.concat (map (fun p => map snd (snd p)) ps) ++ []).
  { rewrite app_nil_r. unfold ps. rewrite <- (map_map snd (map snd)), map_snd_combine by lia.
    reflexivity. }
  assert (Hs : Forall (fun p => StronglySorted (fun x y => fst x < fst y)%nat (fst p) /\
                   StronglySorted (fun x y => fst x < fst y)%nat (snd p)) ps).
  { unfold ps. eapply Forall_impl; [|apply (Forall_combine _ _ _ _ HA HB)].
    intros p [[S1 _] [S2 _]]. split; assumption. }
  destruct (fill_cols ps (data (of_cols n1 csA)) (data (of_cols n1 csB)) 0 0 [] [] Hs HdA HdB)
    as [Fe Fo].
  unfold unite. rewrite HU0. cbn [res_bind]. rewrite Hm, map_map.
  split.
  - intros H3. rewrite (Fe H3). reflexivity.
  - intros H3. destruct (Fo H3) as (vss & R & F). rewrite R. cbn [res_bind].
    rewrite HdA, HdB, !app_nil_r, !Nat.add_0_l, !Nat.eqb_refl. cbn [andb].
    assert (F' : Forall2 (fun p vs => List.length vs =
                   List.length (merge_col (map fst (fst p)) (map fst (snd p)))) ps vss)
      by (eapply Forall2_impl; [|exact F]; intros p vs [L _]; exact L).
    rewrite (unite_result_cols n1 ps vss F').
    eexists. split; [reflexivity|]. cbn [size1 size2 of_cols].
    split; [reflexivity|]. split.
    + rewrite length_map, length_combine. apply Forall2_length in F.
      unfold ps in *. rewrite length_combine in *. lia.
    + intros r c. unfold entry. rewrite !cols_of_cols.
      rewrite (unite_result_entry ps vss F c r).
      unfold ps. rewrite map_fst_combine, map_snd_combine by lia. reflexivity.
Qed.

End UniteFacts.

End MatFacts.

Module MatClaims.
Import Mat MatFacts.

(** C2: for a well-formed matrix [M] and offset vectors that pass the
    checks of [horzsplit] (non-empty, starting at 0, monotone, last entry
    within the split dimension), splitting and concatenating gives [M]
    back, pattern and data alike: horizontally, vertically and by blocks. *)
Theorem split_concat_roundtrip : forall {T} (M : matrix T) (O vo ho : list Z),
  wfb M = true ->
  (offsets_ok O (size2 M) = true -> res_bind (horzsplit M O) horzcat = Ok M) /\
  (offsets_ok vo (size1 M) = true -> res_bind (vertsplit M vo) vertcat = Ok M) /\
  (offsets_ok vo (size1 M) = true -> offsets_ok ho (size2 M) = true ->
   res_bind (blocksplit M vo ho) blockcat = Ok M).
Proof.
  intros T M O vo ho W.
  assert (Hv : offsets_ok vo (size1 M) = true -> exists rows, vertsplit M vo = Ok rows /\
            Forall (fun r => size2 r = size2 M) rows).
  { intros Hvo. rewrite <- size2_transpose in Hvo.
    destruct (horzsplit_succeeds (transpose M) vo Hvo) as (Qs & Eq & HQ).
    exists (map transpose Qs). split; [unfold vertsplit; rewrite Eq; reflexivity|].
    apply Forall_map. eapply Forall_impl; [|exact HQ].
    intros Q HQs. rewrite size2_transpose, HQs. reflexivity. }
  split; [|split].
  - intros HO. destruct (horzsplit_succeeds M O HO) as (Ps & E & _).
    rewrite E. cbn. apply (horzsplit_horzcat_wf M O Ps W E).
  - intros Hvo. destruct (Hv Hvo) as (rows & E & _).
    rewrite E. cbn. apply (vertsplit_vertcat_wf M vo rows W E).
  - intros Hvo Hho. destruct (Hv Hvo) as (rows & E & Hr).
    destruct (res_mapM_succeeds (fun r => horzsplit r ho) rows) as (Pss & EP).
    { intros r Hin. rewrite Forall_forall in Hr. rewrite <- (Hr r Hin) in Hho.
      destruct (horzsplit_succeeds r ho Hho) as (Ps & Er & _). exists Ps. exact Er. }
    assert (Eb : blocksplit M vo ho = Ok Pss) by (unfold blocksplit; rewrite E; exact EP).
    rewrite Eb. cbn. apply (blocksplit_blockcat_wf M vo ho Pss W Eb).
Qed.

(** Round trip on the 3-by-3 matrix [[2,3,0],[1,0,4],[5,1,7]]. *)
Lemma split_concat_roundtrip_witness :
  let M := mk_matrix 3 3 [0;3;5;7]%nat [0;1;2;0;2;1;2]%nat [2;1;5;3;1;4;7]%Z in
  wfb M = true /\ offsets_ok [0;1;1]%Z 3 = true /\ offsets_ok [0;2]%Z 3 = true /\
  res_bind (horzsplit M [0;1;1]%Z) horzcat = Ok M /\
  res_bind (vertsplit M [0;2]%Z) vertcat = Ok M /\
  res_bind (blocksplit M [0;2]%Z [0;1;1]%Z) blockcat = Ok M.
Proof.
  intros M.
  assert (W : wfb M = true) by reflexivity.
  assert (H1 : offsets_ok [0;1;1]%Z 3 = true) by reflexivity.
  assert (H2 : offsets_ok [0;2]%Z 3 = true) by reflexivity.
  destruct (split_concat_roundtrip M [0;1;1]%Z [0;2]%Z [0;1;1]%Z W) as (A & B & C).
  split; [exact W|]. split; [exact H1|]. split; [exact H2|].
  split; [exact (A H1)|]. split; [exact (B H2)|]. exact (C H2 H1).
Defined.

(** C6: an offset vector that is empty, does not start at 0, ends beyond
    the split dimension or decreases somewhere makes [horzsplit] (against
    the column count) and [vertsplit] (against the row count) fail with a
    PreconditionError and return no pieces. *)
Theorem split_rejects_bad_offsets : forall {T} (M : matrix T) (O : list Z),
  (O = [] \/ hd 0%Z O <> 0%Z \/ (Z.of_nat (size2 M) < last O 0)%Z \/ isMonotone O = false ->
   horzsplit M O = Err PreconditionError) /\
  (O = [] \/ hd 0%Z O <> 0%Z \/ (Z.of_nat (size1 M) < last O 0)%Z \/ isMonotone O = false ->
   vertsplit M O = Err PreconditionError).
Proof.
  intros T M O. split; intros H.
  - apply horzsplit_rejects, offsets_ok_false, H.
  - unfold vertsplit. rewrite horzsplit_rejects; [reflexivity|].
    rewrite size2_transpose. apply offsets_ok_false, H.
Qed.

(** Each of the four defects on the 2-by-2 matrix [[1,0],[0,1]]. *)
Lemma split_rejects_bad_offsets_witness :
  let M := mk_matrix 2 2 [0;1;2]%nat [0;1]%nat [1;1]%Z in
  horzsplit M [] = Err PreconditionError /\
  vertsplit M [1;2]%Z = Err PreconditionError /\
  horzsplit M [0;3]%Z = Err PreconditionError /\
  vertsplit M [0;2;1]%Z = Err PreconditionError.
Proof.
  intros M. split; [|split; [|split]].
  - apply (proj1 (split_rejects_bad_offsets M [])). left. reflexivity.
  - apply (proj2 (split_rejects_bad_offsets M [1;2]%Z)). right. left. simpl. lia.
  - apply (proj1 (split_rejects_bad_offsets M [0;3]%Z)). right. right. left. simpl. lia.
  - apply (proj2 (split_rejects_bad_offsets M [0;2;1]%Z)). right. right. right. reflexivity.
Defined.

(** C8: [pinv] takes, for a wide [A] (at least as many columns as rows),
    the transpose of the solution of (A A^T) X = A and, for a tall [A],
    the solution of (A^T A) X = A^T, both through the same [solve]. *)
Theorem pinv_normal_equations : forall {T} (mul solve : matrix T -> matrix T -> res (matrix T))
  (A : matrix T), pinv mul solve A = pinv_spec mul solve A.
Proof.
  intros T mul solve A. unfold pinv, pinv_spec.
  destruct (Nat.leb_spec (size1 A) (size2 A)); destruct (Nat.ltb_spec (size2 A) (size1 A));
    first [lia | reflexivity].
Qed.

(** C9: [vertcat] of a list is the transpose of [horzcat] of the
    transposes, and the two-argument [vertcat] agrees with it. *)
Theorem vertcat_is_transposed_horzcat : forall {T},
  (forall v : list (matrix T),
     vertcat v = res_bind (horzcat (map transpose v)) (fun r => Ok (transpose r))) /\
  (forall x y : matrix T,
     vertcat2 x y = res_bind (horzcat (map transpose [x; y])) (fun r => Ok (transpose r))).
Proof.
  intros T. split.
  - apply vertcat_horzcat.
  - intros x y. reflexivity.
Qed.

(** C5 (blank column): the 3-by-3 integer matrix [[1,1,0],[1,1,0],[1,1,0]]
    has an empty column and no empty row; [det] returns 0 only after two
    [cofactor] expansions, while its transpose, which has an empty row,
    returns 0 with none. *)
Theorem det_blank_column_expands :
  let a := mk_matrix 3 3 [0;3;6;6]%nat [0;1;2;0;1;2]%nat [1;1;1;1;1;1]%Z in
  det 0%Z 1%Z Z.add Z.sub Z.mul (fun z => z) 5 a = Ok (0%Z, 2%nat) /\
  det 0%Z 1%Z Z.add Z.sub Z.mul (fun z => z) 5 (transpose a) = Ok (0%Z, 0%nat).
Proof. split; vm_compute; reflexivity. Qed.

(** C7: for well-formed [A] and [B] whose tagged pattern union is
    [mapping], [unite A B] fails with an InvariantViolation when some
    position is tagged "from both" (3); otherwise it returns a matrix of
    the same shape whose nonzeros are the union of the two patterns, each
    carrying the value of the matrix that owns the position. *)
Theorem unite_disjoint_patterns : forall {T} (A B : matrix T) spu mapping,
  wfb A = true -> wfb B = true -> patternUnion A B = Ok (spu, mapping) ->
  (In 3%nat mapping -> unite A B = Err InvariantViolation) /\
  (~ In 3%nat mapping -> exists R, unite A B = Ok R /\
     size1 R = size1 A /\ size2 R = size2 A /\
     forall r c, entry R r c = match entry A r c with
                               | Some v => Some v
                               | None => entry B r c
                               end).
Proof.
  intros T A B spu mapping WA WB HU.
  pose proof (of_cols_cols A WA) as EA. pose proof (of_cols_cols B WB) as EB.
  rewrite <- EA, <- EB in HU.
  destruct (unite_of_cols _ _ _ _ spu mapping (wfb_cols_ok A WA) (wfb_cols_ok B WB) HU) as [U1 U2].
  rewrite EA, EB in U1, U2. split.
  - exact U1.
  - intros H3. destruct (U2 H3) as (R & E & S1 & S2 & En).
    exists R. split; [exact E|]. split; [exact S1|]. split.
    + rewrite S2. rewrite <- EA at 2. reflexivity.
    + exact En.
Qed.

(** [A] = [[1,0],[0,0]] and [B] = [[0,0],[0,2]] are disjoint; [C] =
    [[3,0],[0,0]] overlaps [A]. *)
Lemma unite_disjoint_patterns_witness :
  let A := mk_matrix 2 2 [0;1;1]%nat [0]%nat [1%Z] in
  let B := mk_matrix 2 2 [0;0;1]%nat [1]%nat [2%Z] in
  let C := mk_matrix 2 2 [0;1;1]%nat [0]%nat [3%Z] in
  (exists R, unite A B = Ok R /\ entry R 0 0 = Some 1%Z /\ entry R 1 1 = Some 2%Z) /\
  unite A C = Err InvariantViolation.
Proof.
  intros A B C. split.
  - destruct (proj2 (unite_disjoint_patterns A B (2, 2, [0;1;2], [0;1])%nat [1;2]%nat
                       eq_refl eq_refl eq_refl) ltac:(cbn; lia)) as (R & E & _ & _ & En).
    exists R. split; [exact E|]. rewrite !En. split; reflexivity.
  - apply (proj1 (unite_disjoint_patterns A C (2, 2, [0;1;1], [0])%nat [3]%nat
                    eq_refl eq_refl eq_refl)).
    left. reflexivity.
Defined.

End MatClaims.

Module SXExtras.
Import SX FloatFacts SXFacts.

Lemma isConstant_false_queries : forall h x, isConstant h x = false ->
  isZero h x = false /\ isOne h x = false /\ isMinusOne h x = false.
Proof.
  intros h x H. unfold isConstant in H. unfold isZero, isOne, isMinusOne.
  destruct (node_at h x) as [[]|]; easy.
Qed.

Lemma is_equal_refl : forall h x d, is_equal h x x d = true.
Proof. intros h x d. destruct d; cbn [is_equal]; rewrite Nat.eqb_refl; reflexivity. Qed.

(** Two distinct handles whose nodes are not both unary or both binary
    operations are never structurally equal. *)
Lemma is_equal_leaf_false : forall h x y d n m, x <> y ->
  node_at h x = Some n -> node_at h y = Some m ->
  match n, m with
  | UnarySX _ _, UnarySX _ _ | BinarySX _ _ _, BinarySX _ _ _ => False
  | _, _ => True
  end ->
  is_equal h x y d = false.
Proof.
  intros h x y d n m Hxy Hn Hm K. destruct d; cbn [is_equal];
    (destruct (Nat.eqb_spec x y); [congruence|]); [reflexivity|].
  rewrite Hn, Hm. destruct n, m; easy.
Qed.

Lemma node_at_zero : forall st, store_ok st -> node_at (heap st) zero_id = Some ZeroSX.
Proof. intros st S. unfold zero_id. rewrite (store_singleton_at st 0 S) by lia. reflexivity. Qed.

(** [x / x] returns the 1 singleton for every [x] other than the 0 node,
    NaN and the infinities included, without touching the store (with
    on-the-fly simplification on; the fuel only bounds the model's
    recursion). *)
Theorem rdivide_self_one (d : nat) (sn cs : double -> double) (f : nat)
    (st : sx_state) (x : nat) (S : store_ok st) (Hx : isZero (heap st) x = false) :
  rdivide true d sn cs (Datatypes.S f) x x st = Ok (one_id, st).
Proof.
  cbn [rdivide]. cbv zeta. cbn [negb]. rewrite Hx.
  destruct (isOne (heap st) x) eqn:O.
  - rewrite (isOne_handle st x S O). reflexivity.
  - destruct (isMinusOne (heap st) x) eqn:Mx.
    + unfold neg, isOp, isZero, isMinusOne in *.
      destruct (node_at (heap st) x) as [[]|]; try discriminate. reflexivity.
    + rewrite is_equal_refl. reflexivity.
Qed.

(** Witness: NaN / NaN in the initial store gives 1. *)
Lemma rdivide_self_one_witness :
  store_ok init_state /\ isZero (heap init_state) nan_id = false /\
  rdivide true 1 (fun v => v) (fun v => v) 1 nan_id nan_id init_state = Ok (one_id, init_state).
Proof.
  assert (S : store_ok init_state) by (split; reflexivity).
  assert (Z : isZero (heap init_state) nan_id = false) by reflexivity.
  split; [exact S|]. split; [exact Z|].
  exact (rdivide_self_one 1 (fun v => v) (fun v => v) 0 init_state nan_id S Z).
Defined.

(** [x * 0] returns the 0 singleton for every handle [x], NaN and the
    infinities included, without touching the store. *)
Theorem times_by_zero (d : nat) (sn cs : double -> double) (f : nat)
    (st : sx_state) (x : nat) (S : store_ok st) :
  times true d sn cs (Datatypes.S (Datatypes.S f)) x zero_id st = Ok (zero_id, st).
Proof.
  pose proof (node_at_zero st S) as Z0.
  assert (Z : isZero (heap st) zero_id = true) by (unfold isZero; rewrite Z0; reflexivity).
  assert (C : isConstant (heap st) zero_id = true) by (unfold isConstant; rewrite Z0; reflexivity).
  cbn [times]. cbv zeta. cbn [negb].
  destruct (Nat.eq_dec x zero_id) as [->|Hne].
  - rewrite is_equal_refl. cbn [sq]. unfold isOp, create_unary, getValue. rewrite C, Z0.
    reflexivity.
  - assert (E1 : is_equal (heap st) zero_id x d = false).
    { destruct d; cbn [is_equal]; (destruct (Nat.eqb_spec zero_id x); [congruence|]);
        [reflexivity|]. rewrite Z0. destruct (node_at (heap st) x) as [[]|]; reflexivity. }
    rewrite E1, C. destruct (isConstant (heap st) x) eqn:Cx; cbn [negb andb].
    + rewrite Z, orb_true_r. reflexivity.
    + cbn [times]. cbv zeta. cbn [negb].
      assert (E2 : is_equal (heap st) x zero_id d = false).
      { destruct d; cbn [is_equal]; (destruct (Nat.eqb_spec x zero_id); [congruence|]);
          [reflexivity|]. rewrite Z0. destruct (node_at (heap st) x) as [[]|]; reflexivity. }
      rewrite E2, Z. reflexivity.
Qed.

(** Witness: Inf * 0 in the initial store gives 0. *)
Lemma times_by_zero_witness :
  store_ok init_state /\
  times true 1 (fun v => v) (fun v => v) 2 inf_id zero_id init_state = Ok (zero_id, init_state).
Proof.
  assert (S : store_ok init_state) by (split; reflexivity).
  split; [exact S | exact (times_by_zero 1 (fun v => v) (fun v => v) 0 init_state inf_id S)].
Defined.

(** Negation is an involution on non-constant expressions that are not
    themselves negations: [-x] allocates one [OP_NEG] node over [x], and
    negating that node returns [x] itself without allocating, whatever
    the simplification switch. *)
Theorem neg_neg (sim : bool) (sn cs : double -> double) (st : sx_state) (x : nat)
    (Hc : isConstant (heap st) x = false) (Hn : isOp (heap st) OP_NEG x = false) :
  neg sim sn cs x st = Ok (List.length (heap st), snd (alloc (UnarySX OP_NEG x) st)) /\
  neg sim sn cs (List.length (heap st)) (snd (alloc (UnarySX OP_NEG x) st))
    = Ok (x, snd (alloc (UnarySX OP_NEG x) st)).
Proof.
  destruct (isConstant_false_queries _ _ Hc) as (Z & O & Mo).
  split.
  - unfold neg. cbv zeta. rewrite Hn, Z, Mo, O. unfold create_unary. rewrite Hc, andb_false_r.
    reflexivity.
  - unfold neg, isOp, getDep. cbn [alloc snd heap]. rewrite node_at_alloc. reflexivity.
Qed.

(** Witness: a symbol in the initial store. *)
Lemma neg_neg_witness :
  let st := {| heap := heap init_state ++ [SymbolicSX "x"];
               int_cache := int_cache init_state; real_cache := [] |} in
  isConstant (heap st) 7 = false /\ isOp (heap st) OP_NEG 7 = false /\
  neg true (fun v => v) (fun v => v) 8 (snd (alloc (UnarySX OP_NEG 7) st))
    = Ok (7%nat, snd (alloc (UnarySX OP_NEG 7) st)).
Proof.
  intros st.
  assert (Hc : isConstant (heap st) 7 = false) by reflexivity.
  assert (Hn : isOp (heap st) OP_NEG 7 = false) by reflexivity.
  split; [exact Hc|]. split; [exact Hn|].
  exact (proj2 (neg_neg true (fun v => v) (fun v => v) st 7 Hc Hn)).
Defined.

(** Likewise [inv]: on a non-constant expression that is not an [OP_INV]
    node it allocates one [OP_INV] node, and inverting that node returns
    the original handle without allocating. *)
Theorem inv_inv (sim : bool) (sn cs : double -> double) (st : sx_state) (x : nat)
    (Hc : isConstant (heap st) x = false) (Hn : isOp (heap st) OP_INV x = false) :
  inv sim sn cs x st = Ok (List.length (heap st), snd (alloc (UnarySX OP_INV x) st)) /\
  inv sim sn cs (List.length (heap st)) (snd (alloc (UnarySX OP_INV x) st))
    = Ok (x, snd (alloc (UnarySX OP_INV x) st)).
Proof.
  split.
  - unfold inv. cbv zeta. rewrite Hn. unfold create_unary. rewrite Hc, andb_false_r.
    reflexivity.
  - unfold inv, isOp, getDep. cbn [alloc snd heap]. rewrite node_at_alloc. reflexivity.
Qed.

(** Witness: a symbol in the initial store. *)
Lemma inv_inv_witness :
  let st := {| heap := heap init_state ++ [SymbolicSX "x"];
               int_cache := int_cache init_state; real_cache := [] |} in
  isConstant (heap st) 7 = false /\ isOp (heap st) OP_INV 7 = false /\
  inv true (fun v => v) (fun v => v) 8 (snd (alloc (UnarySX OP_INV 7) st))
    = Ok (7%nat, snd (alloc (UnarySX OP_INV 7) st)).
Proof.
  intros st.
  assert (Hc : isConstant (heap st) 7 = false) by reflexivity.
  assert (Hn : isOp (heap st) OP_INV 7 = false) by reflexivity.
  split; [exact Hc|]. split; [exact Hn|].
  exact (proj2 (inv_inv true (fun v => v) (fun v => v) st 7 Hc Hn)).
Defined.

(** With simplification on, [(-a) - b] and [(-a) * b] for distinct
    symbols [a] and [b] are rewritten to [-(a + b)] and [-(a * b)]: each
    allocates two nodes (the [OP_ADD] or [OP_MUL] node and an [OP_NEG]
    node over it), where the unsimplified form allocates one. *)
Theorem neg_operand_two_nodes (d : nat) (sn cs : double -> double) (f : nat)
    (st : sx_state) (a b x : nat) (s1 s2 : string)
    (Ha : node_at (heap st) a = Some (SymbolicSX s1))
    (Hb : node_at (heap st) b = Some (SymbolicSX s2))
    (Hx : node_at (heap st) x = Some (UnarySX OP_NEG a)) (Hab : a <> b) :
  minus true d sn cs (Datatypes.S (Datatypes.S f)) x b st =
    Ok (Datatypes.S (List.length (heap st)),
        {| heap := heap st ++ [BinarySX OP_ADD a b; UnarySX OP_NEG (List.length (heap st))];
           int_cache := int_cache st; real_cache := real_cache st |}) /\
  times true d sn cs (Datatypes.S (Datatypes.S f)) x b st =
    Ok (Datatypes.S (List.length (heap st)),
        {| heap := heap st ++ [BinarySX OP_MUL a b; UnarySX OP_NEG (List.length (heap st))];
           int_cache := int_cache st; real_cache := real_cache st |}).
Proof.
  assert (Hxb : x <> b) by congruence.
  assert (E1 : is_equal (heap st) x b d = false)
    by (apply (is_equal_leaf_false _ _ _ _ _ _ Hxb Hx Hb); exact I).
  assert (E2 : is_equal (heap st) b x d = false)
    by (apply (is_equal_leaf_false _ _ _ _ _ _ (not_eq_sym Hxb) Hb Hx); exact I).
  assert (E3 : is_equal (heap st) b a d = false)
    by (apply (is_equal_leaf_false _ _ _ _ _ _ (not_eq_sym Hab) Hb Ha); exact I).
  assert (N : forall o, op_eqb OP_NEG o = false ->
            neg true sn cs (List.length (heap st))
              {| heap := heap st ++ [BinarySX o a b]; int_cache := int_cache st;
                 real_cache := real_cache st |} =
            Ok (Datatypes.S (List.length (heap st)),
                {| heap := heap st ++ [BinarySX o a b; UnarySX OP_NEG (List.length (heap st))];
                   int_cache := int_cache st; real_cache := real_cache st |})).
  { intros o Ho. unfold neg, isOp, isZero, isMinusOne, isOne, create_unary, isConstant.
    cbn [heap]. rewrite node_at_alloc, Ho. cbn [andb is_const_node]. unfold alloc. cbn [heap].
    rewrite length_app, <- app_assoc, Nat.add_1_r. reflexivity. }
  split.
  - assert (P : plus true d sn cs (Datatypes.S f) a b st = Ok (alloc (BinarySX OP_ADD a b) st)).
    { cbn [plus]. cbv zeta. cbn [negb].
      unfold isZero, isOp, create_binary, isConstant. rewrite Ha, Hb. reflexivity. }
    remember (Datatypes.S f) as g eqn:Eg.
    cbn [minus]. cbv zeta. cbn [negb]. rewrite E1.
    unfold isZero, isOp, getDep. rewrite Hb, Hx. cbn [op_eqb andb].
    unfold bind.
    match goal with |- context [?F g a b st] =>
      replace (F g a b st) with (Ok (alloc (BinarySX OP_ADD a b) st))
        by (symmetry; subst g; exact P) end.
    exact (N OP_ADD eq_refl).
  - assert (P : times true d sn cs (Datatypes.S f) a b st = Ok (alloc (BinarySX OP_MUL a b) st)).
    { cbn [times]. cbv zeta. cbn [negb]. rewrite E3.
      unfold isZero, isOne, isMinusOne, isOp, create_binary, isConstant. rewrite Ha, Hb.
      reflexivity. }
    remember (Datatypes.S f) as g eqn:Eg.
    cbn [times]. cbv zeta. cbn [negb]. rewrite E2.
    unfold isZero, isOne, isMinusOne, isOp, isConstant, getDep. rewrite Hb, Hx.
    cbn [op_eqb andb orb negb is_const_node].
    unfold bind.
    match goal with |- context [?F g a b st] =>
      replace (F g a b st) with (Ok (alloc (BinarySX OP_MUL a b) st))
        by (symmetry; subst g; exact P) end.
    exact (N OP_MUL eq_refl).
Qed.

(** Witness: [x = -a] with symbols [a] (handle 7) and [b] (handle 8). *)
Lemma neg_operand_two_nodes_witness :
  let st := {| heap := heap init_state ++ [SymbolicSX "a"; SymbolicSX "b"; UnarySX OP_NEG 7];
               int_cache := int_cache init_state; real_cache := [] |} in
  node_at (heap st) 7 = Some (SymbolicSX "a") /\ node_at (heap st) 8 = Some (SymbolicSX "b") /\
  node_at (heap st) 9 = Some (UnarySX OP_NEG 7) /\
  minus true 1 (fun v => v) (fun v => v) 2 9 8 st =
    Ok (11%nat, {| heap := heap st ++ [BinarySX OP_ADD 7 8; UnarySX OP_NEG 10];
                   int_cache := int_cache st; real_cache := [] |}).
Proof.
  intros st.
  assert (Ha : node_at (heap st) 7 = Some (SymbolicSX "a")) by reflexivity.
  assert (Hb : node_at (heap st) 8 = Some (SymbolicSX "b")) by reflexivity.
  assert (Hx : node_at (heap st) 9 = Some (UnarySX OP_NEG 7)) by reflexivity.
  split; [exact Ha|]. split; [exact Hb|]. split; [exact Hx|].
  exact (proj1 (neg_operand_two_nodes 1 (fun v => v) (fun v => v) 0 st 7 8 9 "a" "b"
                  Ha Hb Hx ltac:(discriminate))).
Defined.

(** With simplification on, [sin(u)^2 + cos(u)^2] and [cos(u)^2 + sin(u)^2]
    give the 1 singleton without touching the store. *)
Theorem sin_cos_squares_one (d : nat) (sn cs : double -> double) (f : nat)
    (st : sx_state) (x y s t u : nat)
    (Hx : node_at (heap st) x = Some (UnarySX OP_SQ s))
    (Hs : node_at (heap st) s = Some (UnarySX OP_SIN u))
    (Hy : node_at (heap st) y = Some (UnarySX OP_SQ t))
    (Ht : node_at (heap st) t = Some (UnarySX OP_COS u)) :
  plus true d sn cs (Datatypes.S f) x y st = Ok (one_id, st) /\
  plus true d sn cs (Datatypes.S f) y x st = Ok (one_id, st).
Proof.
  split; cbn [plus]; cbv zeta; cbn [negb];
    unfold isZero, isOp, getDep; rewrite Hx, Hy; cbn [op_eqb andb orb]; rewrite Hs, Ht;
    cbn [op_eqb andb orb]; rewrite is_equal_refl; unfold lit; rewrite construct_d_one;
    reflexivity.
Qed.

(** Witness: [sin(u)^2] at handle 10 and [cos(u)^2] at handle 11 for a
    symbol [u] at handle 7. *)
Lemma sin_cos_squares_one_witness :
  let st := {| heap := heap init_state ++ [SymbolicSX "u"; UnarySX OP_SIN 7; UnarySX OP_COS 7;
                                           UnarySX OP_SQ 8; UnarySX OP_SQ 9];
               int_cache := int_cache init_state; real_cache := [] |} in
  plus true 1 (fun v => v) (fun v => v) 1 10 11 st = Ok (one_id, st).
Proof.
  intros st.
  exact (proj1 (sin_cos_squares_one 1 (fun v => v) (fun v => v) 0 st 10 11 8 9 7
                  eq_refl eq_refl eq_refl eq_refl)).
Defined.

(** With simplification on, [x * x] goes through [sq]: for a symbol [a],
    [a * a] and [(-a) * (-a)] both allocate one [OP_SQ] node over [a] (the
    negation is dropped), and [sqrt(a) * sqrt(a)] returns [a] without
    touching the store. *)
Theorem times_self (d : nat) (sn cs : double -> double) (f : nat)
    (st : sx_state) (a x y : nat) (s : string)
    (Ha : node_at (heap st) a = Some (SymbolicSX s))
    (Hx : node_at (heap st) x = Some (UnarySX OP_NEG a))
    (Hy : node_at (heap st) y = Some (UnarySX OP_SQRT a)) :
  times true d sn cs (Datatypes.S (Datatypes.S (Datatypes.S f))) a a st
    = Ok (alloc (UnarySX OP_SQ a) st) /\
  times true d sn cs (Datatypes.S (Datatypes.S (Datatypes.S f))) x x st
    = Ok (alloc (UnarySX OP_SQ a) st) /\
  times true d sn cs (Datatypes.S (Datatypes.S (Datatypes.S f))) y y st = Ok (a, st).
Proof.
  assert (Q : forall g, sq true sn cs (Datatypes.S g) a st = Ok (alloc (UnarySX OP_SQ a) st)).
  { intros g. cbn [sq]. cbv zeta. unfold isOp, create_unary, isConstant. rewrite Ha.
    reflexivity. }
  split; [|split].
  - cbn [times]. cbv zeta. cbn [negb]. rewrite is_equal_refl. apply Q.
  - cbn [times]. cbv zeta. cbn [negb]. rewrite is_equal_refl.
    cbn [sq]. cbv zeta. unfold isOp, getDep. rewrite Hx. cbn [op_eqb].
    apply Q.
  - cbn [times]. cbv zeta. cbn [negb]. rewrite is_equal_refl.
    cbn [sq]. cbv zeta. unfold isOp, getDep. rewrite Hy. reflexivity.
Qed.

(** Witness: [a] at handle 7, [-a] at 8 and [sqrt(a)] at 9. *)
Lemma times_self_witness :
  let st := {| heap := heap init_state ++ [SymbolicSX "a"; UnarySX OP_NEG 7; UnarySX OP_SQRT 7];
               int_cache := int_cache init_state; real_cache := [] |} in
  times true 1 (fun v => v) (fun v => v) 3 8 8 st = Ok (alloc (UnarySX OP_SQ 7) st).
Proof.
  intros st.
  exact (proj1 (proj2 (times_self 1 (fun v => v) (fun v => v) 0 st 7 8 9 "a"
                         eq_refl eq_refl eq_refl))).
Defined.

(** With simplification on, [(a + a) / 2] returns [a] without touching the
    store. *)
Theorem half_double (d : nat) (sn cs : double -> double) (f : nat)
    (st : sx_state) (a x : nat) (S : store_ok st)
    (Hx : node_at (heap st) x = Some (BinarySX OP_ADD a a)) :
  rdivide true d sn cs (Datatypes.S f) x two_id st = Ok (a, st).
Proof.
  assert (H2 : node_at (heap st) two_id = Some (IntegerSX 2))
    by (unfold two_id; rewrite (store_singleton_at st 2 S) by lia; reflexivity).
  assert (Hne : x <> two_id) by (intros E; rewrite E, H2 in Hx; discriminate).
  cbn [rdivide]. cbv zeta. cbn [negb].
  unfold isZero, isOne, isMinusOne. rewrite H2, Hx.
  rewrite (is_equal_leaf_false _ _ _ _ _ _ Hne Hx H2 I).
  unfold isDoubled, isOp, getDep. rewrite Hx. cbn [op_eqb andb Nat.eqb].
  rewrite !is_equal_refl. reflexivity.
Qed.

(** Witness: [a + a] at handle 8 over a symbol [a] at handle 7. *)
Lemma half_double_witness :
  let st := {| heap := heap init_state ++ [SymbolicSX "a"; BinarySX OP_ADD 7 7];
               int_cache := int_cache init_state; real_cache := [] |} in
  store_ok st /\ rdivide true 1 (fun v => v) (fun v => v) 1 8 two_id st = Ok (7%nat, st).
Proof.
  intros st. assert (S : store_ok st) by (split; reflexivity).
  split; [exact S|]. exact (half_double 1 (fun v => v) (fun v => v) 0 st 7 8 S eq_refl).
Defined.

(** With simplification on, for distinct symbols [a] and [b],
    [(a + b) - b] is [a], [(a + b) - a] is [b], and [(a - b) + b] and
    [b + (a - b)] are [a]; none of them touches the store. *)
Theorem add_sub_cancel (d : nat) (sn cs : double -> double) (f : nat)
    (st : sx_state) (a b x y : nat) (s1 s2 : string)
    (Ha : node_at (heap st) a = Some (SymbolicSX s1))
    (Hb : node_at (heap st) b = Some (SymbolicSX s2)) (Hab : a <> b)
    (Hx : node_at (heap st) x = Some (BinarySX OP_ADD a b))
    (Hy : node_at (heap st) y = Some (BinarySX OP_SUB a b)) :
  minus true d sn cs (Datatypes.S f) x b st = Ok (a, st) /\
  minus true d sn cs (Datatypes.S f) x a st = Ok (b, st) /\
  plus true d sn cs (Datatypes.S f) y b st = Ok (a, st) /\
  plus true d sn cs (Datatypes.S f) b y st = Ok (a, st).
Proof.
  assert (Nxb : x <> b) by (intros E; rewrite E, Hb in Hx; discriminate).
  assert (Nxa : x <> a) by (intros E; rewrite E, Ha in Hx; discriminate).
  assert (Exb : is_equal (heap st) x b d = false)
    by (apply (is_equal_leaf_false _ _ _ _ _ _ Nxb Hx Hb); exact I).
  assert (Exa : is_equal (heap st) x a d = false)
    by (apply (is_equal_leaf_false _ _ _ _ _ _ Nxa Hx Ha); exact I).
  assert (Eba : is_equal (heap st) b a d = false)
    by (apply (is_equal_leaf_false _ _ _ _ _ _ (not_eq_sym Hab) Hb Ha); exact I).
  split; [|split; [|split]].
  - cbn [minus]. cbv zeta. cbn [negb]. unfold isZero, isOp, getDep. rewrite Hb, Hx, Exb.
    cbn [op_eqb andb Nat.eqb]. rewrite is_equal_refl. reflexivity.
  - cbn [minus]. cbv zeta. cbn [negb]. unfold isZero, isOp, getDep. rewrite Ha, Hx, Exa.
    cbn [op_eqb andb Nat.eqb]. rewrite Eba, is_equal_refl. reflexivity.
  - cbn [plus]. cbv zeta. cbn [negb]. unfold isZero, isOp, getDep. rewrite Hb, Hy.
    cbn [op_eqb andb Nat.eqb]. rewrite is_equal_refl. reflexivity.
  - cbn [plus]. cbv zeta. cbn [negb]. unfold isZero, isOp, getDep. rewrite Hb, Hy.
    cbn [op_eqb andb Nat.eqb]. rewrite is_equal_refl. reflexivity.
Qed.

(** Witness: symbols [a] and [b] at handles 7 and 8, [a + b] at 9 and
    [a - b] at 10. *)
Lemma add_sub_cancel_witness :
  let st := {| heap := heap init_state ++ [SymbolicSX "a"; SymbolicSX "b";
                                           BinarySX OP_ADD 7 8; BinarySX OP_SUB 7 8];
               int_cache := int_cache init_state; real_cache := [] |} in
  minus true 1 (fun v => v) (fun v => v) 1 9 8 st = Ok (7%nat, st).
Proof.
  intros st.
  exact (proj1 (add_sub_cancel 1 (fun v => v) (fun v => v) 0 st 7 8 9 10 "a" "b"
                  eq_refl eq_refl ltac:(discriminate) eq_refl eq_refl)).
Defined.

End SXExtras.

Module MatExtras.
Import Mat MatFacts.

Section Ranges.

Lemma isMonotone_map_seq : forall (f : nat -> Z) a c,
  (forall i, (f i <= f (S i))%Z) -> isMonotone (map f (seq a c)) = true.
Proof.
  intros f a c Hf. revert a. induction c as [|c IH]; intros a; [reflexivity|].
  destruct c as [|c]; [reflexivity|].
  change (isMonotone (f a :: map f (seq (S a) (S c))) = true).
  cbn [seq map isMonotone]. rewrite (proj2 (Z.leb_le _ _) (Hf a)). cbn [andb].
  exact (IH (S a)).
Qed.

Lemma last_map_seq : forall (f : nat -> Z) a c d, last (map f (seq a (S c))) d = f (a + c)%nat.
Proof. intros f a c d. rewrite seq_S, map_app. apply last_last. Qed.

Lemma range_count_pos : forall n k, (1 <= k)%nat -> (1 <= n)%nat ->
  (1 <= n / k + (if (n mod k =? 0)%nat then 0 else 1))%nat.
Proof.
  intros n k Hk Hn. destruct (Nat.eqb_spec (n mod k) 0) as [E|E]; [|lia].
  destruct (Nat.eq_dec (n / k) 0) as [D|D]; [|lia].
  apply Nat.div_small_iff in D; [|lia]. rewrite Nat.mod_small in E by exact D. lia.
Qed.

Lemma range_last_le : forall n k, (1 <= k)%nat ->
  ((n / k + (if (n mod k =? 0)%nat then 0 else 1) - 1) * k <= n)%nat.
Proof.
  intros n k Hk. pose proof (Nat.Div0.mul_div_le n k) as L.
  destruct (n mod k =? 0)%nat.
  - rewrite Nat.add_0_r, Nat.mul_sub_distr_r. rewrite Nat.mul_comm in L. lia.
  - replace (n / k + 1 - 1)%nat with (n / k)%nat by lia. rewrite Nat.mul_comm. exact L.
Qed.

(** The offsets [range(0, n, k)] pass the checks of [horzsplit] against
    [n] when [n] and [k] are positive. *)
Lemma range_offsets_ok : forall n k, (1 <= k)%nat -> (1 <= n)%nat ->
  offsets_ok (range 0 n k) n = true.
Proof.
  intros n k Hk Hn. unfold range, offsets_ok. rewrite Nat.sub_0_r.
  pose proof (range_count_pos n k Hk Hn) as Pc. pose proof (range_last_le n k Hk) as Pl.
  set (c := (n / k + (if (n mod k =? 0)%nat then 0 else 1))%nat) in *.
  destruct c as [|c']; [lia|].
  rewrite length_map, length_seq, last_map_seq, isMonotone_map_seq.
  - cbn [seq map hd]. rewrite andb_true_r.
    repeat (apply andb_true_intro; split).
    + apply Nat.leb_le. lia.
    + reflexivity.
    + apply Z.leb_le. replace (S c' - 1)%nat with c' in Pl by lia. lia.
  - intros i. lia.
Qed.

Lemma range_empty : forall k, range 0 0 k = [].
Proof. intros k. unfold range. rewrite Nat.Div0.div_0_l, Nat.Div0.mod_0_l. reflexivity. Qed.

End Ranges.

Lemma horzsplit_length : forall {T} (v : matrix T) O Ps,
  horzsplit v O = Ok Ps -> List.length Ps = List.length O.
Proof.
  intros T v O Ps H. unfold horzsplit in H.
  destruct (negb _); [discriminate|]. destruct (negb _); [discriminate|].
  destruct (negb _); [discriminate|]. destruct (negb _); [discriminate|].
  injection H as <-. rewrite length_map, length_seq. reflexivity.
Qed.

Lemma horzsplit_err : forall {T} (v : matrix T) O e,
  horzsplit v O = Err e -> e = PreconditionError.
Proof.
  intros T v O e H. unfold horzsplit in H.
  repeat (destruct (negb _); [injection H as <-; reflexivity|]). discriminate.
Qed.

Lemma vertsplit_err : forall {T} (x : matrix T) O e,
  vertsplit x O = Err e -> e = PreconditionError.
Proof.
  intros T x O e H. unfold vertsplit in H.
  destruct (horzsplit (transpose x) O) eqn:E; [discriminate|]. injection H as <-.
  exact (horzsplit_err _ _ _ E).
Qed.

(** Splitting and concatenating at offsets that pass the checks, in the
    three directions. *)
Lemma split_roundtrip_all : forall {T} (M : matrix T) (O vo ho : list Z),
  wfb M = true ->
  (offsets_ok O (size2 M) = true -> res_bind (horzsplit M O) horzcat = Ok M) /\
  (offsets_ok vo (size1 M) = true -> res_bind (vertsplit M vo) vertcat = Ok M) /\
  (offsets_ok vo (size1 M) = true -> offsets_ok ho (size2 M) = true ->
   res_bind (blocksplit M vo ho) blockcat = Ok M).
Proof.
  intros T M O vo ho W.
  assert (Hv : offsets_ok vo (size1 M) = true -> exists rows, vertsplit M vo = Ok rows /\
            Forall (fun r => size2 r = size2 M) rows).
  { intros Hvo. rewrite <- size2_transpose in Hvo.
    destruct (horzsplit_succeeds (transpose M) vo Hvo) as (Qs & Eq & HQ).
    exists (map transpose Qs). split; [unfold vertsplit; rewrite Eq; reflexivity|].
    apply Forall_map. eapply Forall_impl; [|exact HQ].
    intros Q HQs. rewrite size2_transpose, HQs. reflexivity. }
  split; [|split].
  - intros HO. destruct (horzsplit_succeeds M O HO) as (Ps & E & _).
    rewrite E. cbn. apply (horzsplit_horzcat_wf M O Ps W E).
  - intros Hvo. destruct (Hv Hvo) as (rows & E & _).
    rewrite E. cbn. apply (vertsplit_vertcat_wf M vo rows W E).
  - intros Hvo Hho. destruct (Hv Hvo) as (rows & E & Hr).
    destruct (res_mapM_succeeds (fun r => horzsplit r ho) rows) as (Pss & EP).
    { intros r Hin. rewrite Forall_forall in Hr. rewrite <- (Hr r Hin) in Hho.
      destruct (horzsplit_succeeds r ho Hho) as (Ps & Er & _). exists Ps. exact Er. }
    assert (Eb : blocksplit M vo ho = Ok Pss) by (unfold blocksplit; rewrite E; exact EP).
    rewrite Eb. cbn. apply (blocksplit_blockcat_wf M vo ho Pss W Eb).
Qed.

(** Splitting by increments and concatenating gives the matrix back: for
    a well-formed [M] and increments of at least 1, [horzsplit(M, incr)]
    (when [M] has a column), [vertsplit(M, incr)] (when [M] has a row) and
    [blocksplit(M, vert_incr, horz_incr)] (when it has both) succeed, and
    [horzcat], [vertcat] and [blockcat] of the pieces return [M]. *)
Theorem split_incr_roundtrip : forall {T} (M : matrix T) (vi hi : Z),
  wfb M = true -> (1 <= vi)%Z -> (1 <= hi)%Z ->
  ((0 < size2 M)%nat -> res_bind (horzsplit_incr M hi) horzcat = Ok M) /\
  ((0 < size1 M)%nat -> res_bind (vertsplit_incr M vi) vertcat = Ok M) /\
  ((0 < size1 M)%nat -> (0 < size2 M)%nat ->
   res_bind (blocksplit_incr M vi hi) blockcat = Ok M).
Proof.
  intros T M vi hi W Hv Hh.
  assert (Bv : (1 <=? vi)%Z = true) by (apply Z.leb_le; exact Hv).
  assert (Bh : (1 <=? hi)%Z = true) by (apply Z.leb_le; exact Hh).
  pose proof (fun n (H : (0 < n)%nat) => range_offsets_ok n (Z.to_nat vi) ltac:(lia) H) as Ov.
  pose proof (fun n (H : (0 < n)%nat) => range_offsets_ok n (Z.to_nat hi) ltac:(lia) H) as Oh.
  destruct (split_roundtrip_all M (range 0 (size2 M) (Z.to_nat hi))
              (range 0 (size1 M) (Z.to_nat vi)) (range 0 (size2 M) (Z.to_nat hi)) W)
    as (R1 & R2 & R3).
  split; [|split].
  - intros H2. unfold horzsplit_incr. rewrite Bh. apply R1, Oh, H2.
  - intros H1. unfold vertsplit_incr. rewrite Bv. apply R2, Ov, H1.
  - intros H1 H2. unfold blocksplit_incr. rewrite Bh, Bv. apply R3; [apply Ov, H1 | apply Oh, H2].
Qed.

(** The 2-by-3 matrix [[1,0,4],[2,3,0]] split by 2 in both directions. *)
Lemma split_incr_roundtrip_witness :
  let M := mk_matrix 2 3 [0;2;3;4]%nat [0;1;1;0]%nat [1;2;3;4]%Z in
  wfb M = true /\ (1 <= 2)%Z /\ (0 < size1 M)%nat /\ (0 < size2 M)%nat /\
  res_bind (blocksplit_incr M 2 2) blockcat = Ok M.
Proof.
  intros M.
  assert (W : wfb M = true) by reflexivity.
  assert (H2 : (1 <= 2)%Z) by lia.
  assert (P1 : (0 < size1 M)%nat) by (cbn; lia).
  assert (P2 : (0 < size2 M)%nat) by (cbn; lia).
  split; [exact W|]. split; [exact H2|]. split; [exact P1|]. split; [exact P2|].
  exact (proj2 (proj2 (split_incr_roundtrip M 2 2 W H2 H2)) P1 P2).
Defined.

(** Splitting by an increment below 1 fails with a PreconditionError, and
    so does splitting along a dimension of size 0: [range(0, 0, incr)] is
    empty and [horzsplit] rejects an empty offset vector, so a matrix
    without columns cannot be split horizontally (nor one without rows
    vertically, nor either by blocks). *)
Theorem split_incr_rejects : forall {T} (M : matrix T) (vi hi : Z),
  ((hi < 1)%Z \/ size2 M = 0%nat -> horzsplit_incr M hi = Err PreconditionError) /\
  ((vi < 1)%Z \/ size1 M = 0%nat -> vertsplit_incr M vi = Err PreconditionError) /\
  ((vi < 1)%Z \/ (hi < 1)%Z \/ size1 M = 0%nat \/ size2 M = 0%nat ->
   blocksplit_incr M vi hi = Err PreconditionError).
Proof.
  intros T M vi hi.
  assert (Hh : (hi < 1)%Z \/ size2 M = 0%nat -> horzsplit_incr M hi = Err PreconditionError).
  { intros [H|H]; unfold horzsplit_incr.
    - replace (1 <=? hi)%Z with false by (symmetry; apply Z.leb_gt; exact H). reflexivity.
    - destruct (1 <=? hi)%Z; [|reflexivity]. cbn [negb]. rewrite H, range_empty. reflexivity. }
  assert (Hv : (vi < 1)%Z \/ size1 M = 0%nat -> vertsplit_incr M vi = Err PreconditionError).
  { intros [H|H]; unfold vertsplit_incr.
    - replace (1 <=? vi)%Z with false by (symmetry; apply Z.leb_gt; exact H). reflexivity.
    - destruct (1 <=? vi)%Z; [|reflexivity]. cbn [negb]. rewrite H, range_empty. reflexivity. }
  split; [exact Hh|]. split; [exact Hv|].
  intros H. unfold blocksplit_incr.
  destruct (Z.leb_spec 1 hi) as [Bh|Bh]; [|reflexivity]. cbn [negb].
  destruct (Z.leb_spec 1 vi) as [Bv|Bv]; [|reflexivity]. cbn [negb].
  assert (H' : size1 M = 0%nat \/ size2 M = 0%nat) by lia.
  unfold blocksplit. destruct H' as [H1|H2].
  - pose proof (Hv (or_intror H1)) as E. unfold vertsplit_incr in E.
    replace (1 <=? vi)%Z with true in E by (symmetry; apply Z.leb_le; exact Bv).
    cbn [negb] in E. rewrite E. reflexivity.
  - destruct (vertsplit M (range 0 (size1 M) (Z.to_nat vi))) as [rows|e] eqn:Ev;
      [|rewrite (vertsplit_err _ _ _ Ev); reflexivity].
    cbn [res_bind]. rewrite H2, range_empty.
    unfold vertsplit in Ev.
    destruct (horzsplit (transpose M) _) as [Qs|e] eqn:Eq; [|discriminate].
    cbn in Ev. injection Ev as <-.
    pose proof (horzsplit_length _ _ _ Eq) as L.
    destruct Qs as [|Q Qs].
    + unfold horzsplit in Eq. destruct (negb _) eqn:E1; [discriminate|].
      rewrite <- L in E1. discriminate.
    + reflexivity.
Qed.

(** Both rejections on the 2-by-0 matrix and with an increment of 0. *)
Lemma split_incr_rejects_witness :
  let M := mk_matrix 2 0 [0]%nat [] (@nil Z) in
  horzsplit_incr M 1 = Err PreconditionError /\
  blocksplit_incr M 1 1 = Err PreconditionError /\
  vertsplit_incr M 0 = Err PreconditionError.
Proof.
  intros M. destruct (split_incr_rejects M 0 1) as (H1 & _ & H3).
  destruct (split_incr_rejects M 1 1) as (_ & _ & H3').
  split; [apply H1; right; reflexivity|].
  split; [apply H3'; right; right; right; reflexivity|].
  destruct (split_incr_rejects M 0 1) as (_ & H2 & _). apply H2. left. lia.
Defined.

Section Entries.
Context {T : Type}.

Lemma entry_of_cols : forall n1 (cs : list (list (nat * T))) r c,
  entry (of_cols n1 cs) r c = col_entry (nth c cs []) r.
Proof. intros. unfold entry. rewrite cols_of_cols. reflexivity. Qed.

Lemma find_hd_filter : forall {A} (f : A -> bool) l, find f l = hd_error (filter f l).
Proof. intros A f l. induction l as [|x l IH]; [reflexivity|]. simpl. destruct (f x); auto. Qed.

Lemma col_entry_filter : forall (l : list (nat * T)) r,
  col_entry l r = option_map snd (hd_error (filter (fun p => (fst p =? r)%nat) l)).
Proof.
  intros l r. unfold col_entry. rewrite find_hd_filter.
  destruct (hd_error _); reflexivity.
Qed.

Lemma col_entry_none_bound : forall (c : list (nat * T)) n1 r,
  Forall (fun p => fst p < n1)%nat c -> (n1 <= r)%nat -> col_entry c r = None.
Proof.
  intros c n1 r H Hr. rewrite col_entry_filter, filter_all_false; [reflexivity|].
  intros p Hp. rewrite Forall_forall in H. specialize (H p Hp). apply Nat.eqb_neq. lia.
Qed.

Lemma nth_tcols : forall n1 (cs : list (list (nat * T))) c, (c < n1)%nat ->
  nth c (tcols n1 cs) [] = trow_from 0 c cs.
Proof.
  intros n1 cs c Hc. unfold tcols.
  transitivity (nth c (map (fun i => trow_from 0 i cs) (seq 0 n1)) ((fun i => trow_from 0 i cs) 0)).
  - apply nth_indep. rewrite length_map, length_seq. exact Hc.
  - pose proof (map_nth (fun i => trow_from 0 i cs) (seq 0 n1) 0 c) as E. cbv beta in E.
    rewrite E, seq_nth by exact Hc. reflexivity.
Qed.

(** Transposition moves the nonzero at (c, r) to (r, c). *)
Lemma entry_transpose_of_cols : forall n1 (cs : list (list (nat * T))) r c,
  cols_ok n1 cs ->
  entry (transpose (of_cols n1 cs)) r c = entry (of_cols n1 cs) c r.
Proof.
  intros n1 cs r c Hok. rewrite transpose_of_cols, !entry_of_cols.
  destruct (Nat.ltb_spec c n1) as [Hc|Hc].
  - rewrite nth_tcols by exact Hc.
    rewrite !col_entry_filter, filter_trow_from by lia. rewrite Nat.sub_0_r.
    destruct (filter _ (nth r cs [])); reflexivity.
  - rewrite nth_overflow by (rewrite length_tcols; exact Hc).
    destruct (Nat.ltb_spec r (List.length cs)) as [Hr|Hr].
    + unfold cols_ok in Hok. rewrite Forall_forall in Hok.
      destruct (Hok (nth r cs []) (nth_In _ _ Hr)) as [_ Hb].
      rewrite (col_entry_none_bound _ n1 c Hb Hc). reflexivity.
    + rewrite nth_overflow by exact Hr. reflexivity.
Qed.

Lemma entry_transpose_wf : forall (M : matrix T) r c, wfb M = true ->
  entry (transpose M) r c = entry M c r.
Proof.
  intros M r c W. pose proof (of_cols_cols M W) as E.
  rewrite <- E. apply entry_transpose_of_cols. exact (wfb_cols_ok M W).
Qed.

Lemma size1_transpose : forall M : matrix T, size1 (transpose M) = size2 M.
Proof. reflexivity. Qed.

Lemma length_cols_wf : forall M : matrix T, wfb M = true -> List.length (cols M) = size2 M.
Proof.
  intros M W. pose proof (of_cols_cols M W) as E.
  apply (f_equal (@size2 T)) in E. cbn [of_cols size2] in E. exact E.
Qed.

Lemma fold_left_ext_pw : forall {A B} (f g : A -> B -> A) l a,
  (forall x y, f x y = g x y) -> fold_left f l a = fold_left g l a.
Proof.
  intros A B f g l. induction l as [|y l IH]; intros a H; [reflexivity|].
  cbn [fold_left]. rewrite H. apply IH, H.
Qed.

Lemma length_concat_repeat : forall {A} (l : list A) m,
  List.length (List.concat (repeat l m)) = (m * List.length l)%nat.
Proof.
  intros A l m. induction m as [|m IH]; [reflexivity|].
  cbn [repeat List.concat]. rewrite length_app, IH. lia.
Qed.

Lemma nth_concat_repeat : forall {A} (l : list A) m i d, (i < m * List.length l)%nat ->
  nth i (List.concat (repeat l m)) d = nth (i mod List.length l) l d.
Proof.
  intros A l m. induction m as [|m IH]; intros i d H; [lia|].
  cbn [repeat List.concat].
  destruct (Nat.ltb_spec i (List.length l)) as [Hi|Hi].
  - rewrite app_nth1 by exact Hi. rewrite Nat.mod_small by exact Hi. reflexivity.
  - rewrite app_nth2 by exact Hi. rewrite IH by lia.
    replace i with ((i - List.length l) + 1 * List.length l)%nat at 2 by lia.
    rewrite Nat.Div0.mod_add. reflexivity.
Qed.

Lemma cols_ok_concat_repeat : forall n1 (cs : list (list (nat * T))) m,
  cols_ok n1 cs -> cols_ok n1 (List.concat (repeat cs m)).
Proof.
  intros n1 cs m H. unfold cols_ok in *. rewrite Forall_forall in *.
  intros c Hc. apply in_concat in Hc as (l & Hl & Hc).
  apply repeat_spec in Hl. subst l. apply H, Hc.
Qed.

Lemma concat_repeat_nil : forall {A} n, List.concat (repeat (@nil A) n) = [].
Proof. intros A n. induction n as [|n IH]; [reflexivity|]. exact IH. Qed.

Lemma horzcat_repeat_of_cols : forall n1 (cs : list (list (nat * T))) m, (1 <= m)%nat ->
  horzcat (repeat (of_cols n1 cs) m) = Ok (of_cols n1 (List.concat (repeat cs m))).
Proof.
  intros n1 cs [|m] Hm; [lia|].
  pose proof (horzcat_of_cols n1 cs (repeat cs m)) as H.
  cbn [map] in H. rewrite map_repeat in H. exact H.
Qed.

Lemma length_concat_uniform : forall {A} (f : nat -> list A) k p a,
  (forall x, (a <= x < a + p)%nat -> List.length (f x) = k) ->
  List.length (List.concat (map f (seq a p))) = (p * k)%nat.
Proof.
  intros A f k p. induction p as [|p IH]; intros a H; [reflexivity|].
  cbn [seq map List.concat]. rewrite length_app, H by lia. rewrite IH by (intros; apply H; lia).
  lia.
Qed.

Lemma nth_concat_uniform : forall {A} (f : nat -> list A) k p a i d,
  (forall x, (a <= x < a + p)%nat -> List.length (f x) = k) -> (i < p * k)%nat ->
  nth i (List.concat (map f (seq a p))) d = nth (i mod k) (f (a + i / k)%nat) d.
Proof.
  intros A f k p. induction p as [|p IH]; intros a i d H Hi; [lia|].
  cbn [seq map List.concat]. pose proof (H a ltac:(lia)) as Ha.
  destruct (Nat.ltb_spec i k) as [Hik|Hik].
  - rewrite app_nth1 by lia. rewrite Nat.mod_small, Nat.div_small by exact Hik.
    rewrite Nat.add_0_r. reflexivity.
  - rewrite app_nth2 by lia. rewrite Ha. rewrite IH; [|intros; apply H; lia|lia].
    assert (Hk : k <> 0%nat) by lia.
    replace i with ((i - k) + 1 * k)%nat at 3 4 by lia.
    rewrite Nat.Div0.mod_add, Nat.div_add by exact Hk. f_equal. f_equal. lia.
Qed.

Lemma cols_ok_concat : forall n1 (css : list (list (list (nat * T)))),
  Forall (cols_ok n1) css -> cols_ok n1 (List.concat css).
Proof.
  intros n1 css H. unfold cols_ok in *. rewrite Forall_forall in *.
  intros c Hc. apply in_concat in Hc as (l & Hl & Hc).
  specialize (H l Hl). rewrite Forall_forall in H. apply H, Hc.
Qed.

Lemma res_mapM_map : forall {A B C} (f : A -> res B) (h : C -> A) (g : C -> B) l,
  (forall x, In x l -> f (h x) = Ok (g x)) -> res_mapM f (map h l) = Ok (map g l).
Proof.
  intros A B C f h g l. induction l as [|x l IH]; intros H; [reflexivity|].
  cbn [res_mapM map]. rewrite (H x (or_introl eq_refl)). cbn [res_bind].
  rewrite IH by (intros y Hy; apply H; right; exact Hy). reflexivity.
Qed.

Lemma horzcat_map_seq : forall n1 (C : nat -> list (list (nat * T))) q,
  (1 <= q)%nat ->
  horzcat (map (fun j => of_cols n1 (C j)) (seq 0 q))
  = Ok (of_cols n1 (List.concat (map C (seq 0 q)))).
Proof.
  intros n1 C [|q] Hq; [lia|].
  rewrite <- (map_map C (of_cols n1)). cbn [seq].
  change (map C (0 :: seq 1 q)) with (C 0%nat :: map C (seq 1 q)).
  rewrite horzcat_of_cols. reflexivity.
Qed.

(** [blockcat] of a non-empty grid of blocks that share their shape. *)
Lemma blockcat_grid : forall s1 s2 (B : nat -> nat -> matrix T) p q,
  (1 <= p)%nat -> (1 <= q)%nat ->
  (forall i j, (i < p)%nat -> (j < q)%nat ->
     wfb (B i j) = true /\ size1 (B i j) = s1 /\ size2 (B i j) = s2) ->
  exists R, blockcat (map (fun i => map (fun j => B i j) (seq 0 q)) (seq 0 p)) = Ok R /\
    size1 R = (p * s1)%nat /\ size2 R = (q * s2)%nat /\
    forall r c, (r < p * s1)%nat -> (c < q * s2)%nat ->
      entry R r c = entry (B (r / s1) (c / s2)) (r mod s1) (c mod s2).
Proof.
  intros s1 s2 B p q Hp Hq HB.
  set (C := fun i j => cols (B i j)).
  assert (EB : forall i j, (i < p)%nat -> (j < q)%nat -> B i j = of_cols s1 (C i j)).
  { intros i j Hi Hj. destruct (HB i j Hi Hj) as (W & S1 & _).
    rewrite <- S1. symmetry. apply of_cols_cols, W. }
  assert (OK : forall i j, (i < p)%nat -> (j < q)%nat -> cols_ok s1 (C i j)).
  { intros i j Hi Hj. destruct (HB i j Hi Hj) as (W & S1 & _).
    rewrite <- S1. apply wfb_cols_ok, W. }
  assert (LC : forall i j, (i < p)%nat -> (j < q)%nat -> List.length (C i j) = s2).
  { intros i j Hi Hj. destruct (HB i j Hi Hj) as (W & _ & S2).
    rewrite <- S2. apply length_cols_wf, W. }
  set (RC := fun i => List.concat (map (C i) (seq 0 q))).
  assert (LRC : forall i, (i < p)%nat -> List.length (RC i) = (q * s2)%nat).
  { intros i Hi. apply length_concat_uniform. intros j Hj. apply LC; lia. }
  assert (ORC : forall i, (i < p)%nat -> cols_ok s1 (RC i)).
  { intros i Hi. apply cols_ok_concat, Forall_map, Forall_forall.
    intros j Hj. apply in_seq in Hj. apply OK; lia. }
  set (TT := List.concat (map (fun i => tcols s1 (RC i)) (seq 0 p))).
  assert (LTT : List.length TT = (p * s1)%nat).
  { apply length_concat_uniform. intros i _. apply length_tcols. }
  assert (OTT : cols_ok (q * s2) TT).
  { apply cols_ok_concat, Forall_map, Forall_forall. intros i Hi. apply in_seq in Hi.
    rewrite <- (LRC i) by lia. apply tcols_ok, ORC. lia. }
  exists (transpose (of_cols (q * s2) TT)).
  split; [|split; [|split]].
  - unfold blockcat.
    rewrite (res_mapM_map _ _ (fun i => of_cols s1 (RC i))).
    2:{ intros i Hi. apply in_seq in Hi.
        rewrite (map_ext_in _ (fun j => of_cols s1 (C i j))) by
          (intros j Hj; apply in_seq in Hj; apply EB; lia).
        apply horzcat_map_seq, Hq. }
    cbn [res_bind]. rewrite vertcat_horzcat, map_map.
    rewrite (map_ext_in _ (fun i => of_cols (q * s2) (tcols s1 (RC i)))).
    2:{ intros i Hi. apply in_seq in Hi. rewrite transpose_of_cols, LRC by lia. reflexivity. }
    rewrite horzcat_map_seq by exact Hp. reflexivity.
  - rewrite size1_transpose. exact LTT.
  - rewrite size2_transpose. reflexivity.
  - intros r c Hr Hc.
    assert (Hs1 : s1 <> 0%nat) by (intros E; subst s1; lia).
    assert (Hs2 : s2 <> 0%nat) by (intros E; subst s2; lia).
    assert (Hi : (r / s1 < p)%nat) by (apply Nat.Div0.div_lt_upper_bound; lia).
    assert (Hj : (c / s2 < q)%nat) by (apply Nat.Div0.div_lt_upper_bound; lia).
    rewrite entry_transpose_of_cols by exact OTT. rewrite entry_of_cols.
    unfold TT. rewrite nth_concat_uniform with (k := s1)
      by first [intros; apply length_tcols | exact Hr].
    rewrite <- (entry_of_cols (q * s2) (tcols s1 (RC (0 + r / s1)%nat))).
    rewrite <- (LRC (0 + r / s1)%nat) at 1 by lia. rewrite <- transpose_of_cols.
    rewrite entry_transpose_of_cols by (apply ORC; lia). rewrite entry_of_cols.
    unfold RC. rewrite nth_concat_uniform with (k := s2)
      by first [intros; apply LC; lia | lia].
    rewrite EB by lia. rewrite entry_of_cols. reflexivity.
Qed.

Lemma ci_from_repeat_nil : forall a n,
  ci_from a (repeat (@nil (nat * T)) n) = repeat a (S n).
Proof.
  intros a n. induction n as [|n IH]; [reflexivity|].
  cbn [repeat ci_from]. rewrite Nat.add_0_r, IH. reflexivity.
Qed.

Lemma nondecreasing_repeat : forall a n, nondecreasing (repeat a n) = true.
Proof.
  intros a n. induction n as [|[|n] IH]; [reflexivity|reflexivity|].
  change (repeat a (S (S n))) with (a :: repeat a (S n)) in *.
  change (nondecreasing (a :: a :: repeat a n) = true).
  cbn [nondecreasing]. rewrite Nat.leb_refl. exact IH.
Qed.

Lemma concat_map_repeat_nil : forall {A B} (f : list A -> list B) n,
  f [] = [] -> List.concat (map f (repeat [] n)) = [].
Proof. intros A B f n H. induction n as [|n IH]; [reflexivity|]. cbn. rewrite H, IH. reflexivity. Qed.

Lemma wfb_sparse : forall n1 n2, wfb (@sparse_matrix T n1 n2) = true.
Proof.
  intros n1 n2. unfold wfb, sparse_matrix.
  rewrite cols_of_cols. cbn [of_cols size1 size2 colind row data].
  rewrite ci_from_repeat_nil, !concat_map_repeat_nil by reflexivity.
  rewrite repeat_length, Nat.eqb_refl, nondecreasing_repeat.
  replace (last (repeat 0%nat (S n2)) 0%nat) with 0%nat.
  2:{ induction n2 as [|n2 IH]; [reflexivity|]. exact IH. }
  cbn. rewrite repeat_length, Nat.eqb_refl. cbn. apply forallb_forall. intros c Hc.
  apply repeat_spec in Hc. subst c. reflexivity.
Qed.

Lemma entry_sparse : forall n1 n2 r c, entry (@sparse_matrix T n1 n2) r c = None.
Proof.
  intros. unfold sparse_matrix. rewrite entry_of_cols, nth_repeat. reflexivity.
Qed.

Lemma vertcat_repeat_empty : forall n, vertcat (repeat (@empty_matrix T) n) = Ok empty_matrix.
Proof.
  intros n. rewrite vertcat_horzcat, map_repeat.
  replace (transpose (@empty_matrix T)) with (of_cols 0 (@nil (list (nat * T))))
    by reflexivity.
  destruct n as [|n]; [reflexivity|].
  rewrite horzcat_repeat_of_cols by lia. cbn [res_bind].
  rewrite concat_repeat_nil. reflexivity.
Qed.

End Entries.

(** [trace] is unchanged by transposition: a non-square matrix and its
    transpose both fail with a DimensionError, and a square one has the same
    diagonal as its transpose. *)
Theorem trace_transpose : forall {T} (zero : T) (add : T -> T -> T) (A : matrix T),
  wfb A = true -> trace zero add (transpose A) = trace zero add A.
Proof.
  intros T zero add A W. unfold trace. rewrite size1_transpose, size2_transpose.
  rewrite Nat.eqb_sym. destruct (Nat.eqb_spec (size2 A) (size1 A)) as [E|E]; [|reflexivity].
  cbn [negb]. rewrite <- E. f_equal.
  apply fold_left_ext_pw. intros x i. unfold elem. rewrite entry_transpose_wf by exact W.
  reflexivity.
Qed.

Lemma trace_transpose_witness :
  trace 0%Z Z.add (transpose (of_cols 2 [[(0, 5%Z); (1, 7%Z)]; [(1, 3%Z)]])) = Ok 8%Z.
Proof.
  rewrite (trace_transpose 0%Z Z.add (of_cols 2 [[(0, 5%Z); (1, 7%Z)]; [(1, 3%Z)]])) by reflexivity.
  reflexivity.
Defined.

(** [repmat(A, n, m)] with [n] and [m] at least 1 is the [n*size1]-by-[m*size2]
    matrix whose entry (r, c) is the entry (r mod size1, c mod size2) of [A]. *)
Theorem repmat_entries : forall {T} (A : matrix T) n m,
  wfb A = true -> (1 <= n)%nat -> (1 <= m)%nat ->
  exists R, repmat A n m = Ok R /\ size1 R = (n * size1 A)%nat /\
            size2 R = (m * size2 A)%nat /\
            forall r c, (r < n * size1 A)%nat -> (c < m * size2 A)%nat ->
              entry R r c = entry A (r mod size1 A) (c mod size2 A).
Proof.
  intros T A n m W Hn Hm.
  pose proof (wfb_cols_ok A W) as Hok. pose proof (length_cols_wf A W) as L.
  pose proof (of_cols_cols A W) as EA. rewrite <- L, <- EA. cbn [size1 size2 of_cols]. rewrite !cols_of_cols.
  set (s1 := size1 A) in *. set (cs := cols A) in *. clearbody s1 cs. clear EA L W A.
  set (CS := List.concat (repeat cs m)).
  assert (HCS : cols_ok s1 CS) by (apply cols_ok_concat_repeat; exact Hok).
  set (TT := List.concat (repeat (tcols s1 CS) n)).
  assert (HTT : cols_ok (List.length CS) TT)
    by (apply cols_ok_concat_repeat, tcols_ok; exact HCS).
  exists (transpose (of_cols (List.length CS) TT)).
  assert (LCS : List.length CS = (m * List.length cs)%nat) by apply length_concat_repeat.
  assert (LTT : List.length TT = (n * s1)%nat)
    by (unfold TT; rewrite length_concat_repeat, length_tcols; reflexivity).
  split; [|split; [|split]].
  - unfold repmat. rewrite horzcat_repeat_of_cols by exact Hm. cbn [res_bind].
    rewrite vertcat_horzcat, map_repeat, transpose_of_cols, horzcat_repeat_of_cols by exact Hn.
    reflexivity.
  - rewrite size1_transpose. cbn [size2 of_cols]. exact LTT.
  - rewrite size2_transpose. cbn [size1 of_cols]. exact LCS.
  - intros r c Hr Hc.
    rewrite entry_transpose_of_cols by exact HTT. rewrite entry_of_cols.
    unfold TT. rewrite nth_concat_repeat by (rewrite length_tcols; exact Hr).
    rewrite length_tcols.
    rewrite <- (entry_of_cols (List.length CS) (tcols s1 CS)), <- transpose_of_cols.
    rewrite entry_transpose_of_cols by exact HCS. rewrite !entry_of_cols.
    unfold CS. rewrite nth_concat_repeat by exact Hc. reflexivity.
Qed.

Lemma repmat_entries_witness :
  exists R, repmat (of_cols 2 [[(0, 5%Z); (1, 7%Z)]; [(1, 3%Z)]]) 2 3 = Ok R /\
    size1 R = 4%nat /\ size2 R = 6%nat /\ entry R 3 4 = Some 7%Z.
Proof.
  destruct (repmat_entries (of_cols 2 [[(0, 5%Z); (1, 7%Z)]; [(1, 3%Z)]]) 2 3)
    as (R & E & S1 & S2 & En); [reflexivity|lia|lia|].
  exists R. split; [exact E|]. split; [exact S1|]. split; [exact S2|].
  rewrite En by (cbn; lia). reflexivity.
Defined.

(** [repmat(A, n, m)] with no copies in either direction gives the 0-by-0
    matrix, whatever the shape of [A]. *)
Theorem repmat_zero_copies : forall {T} (A : matrix T) n m,
  wfb A = true -> (n = 0 \/ m = 0)%nat -> repmat A n m = Ok empty_matrix.
Proof.
  intros T A n m W [-> | ->].
  - unfold repmat. rewrite <- (of_cols_cols A W).
    destruct m as [|m].
    + reflexivity.
    + rewrite horzcat_repeat_of_cols by lia. reflexivity.
  - unfold repmat. cbn [repeat]. unfold horzcat at 1. cbn [fold_left res_bind].
    apply vertcat_repeat_empty.
Qed.

Lemma repmat_zero_copies_witness :
  repmat (of_cols 2 [[(0, 5%Z); (1, 7%Z)]; [(1, 3%Z)]]) 2 0 = Ok empty_matrix.
Proof. apply repmat_zero_copies; [reflexivity | right; reflexivity]. Defined.

(** [blockcat] of a grid of [p] rows of [q] blocks ([p] and [q] at least 1),
    all [s1]-by-[s2] and well formed, is the [p*s1]-by-[q*s2] matrix whose
    entry (r, c) is the entry (r mod s1, c mod s2) of block (r / s1, c / s2). *)
Theorem blockcat_uniform_entries : forall {T} s1 s2 (B : nat -> nat -> matrix T) p q,
  (1 <= p)%nat -> (1 <= q)%nat ->
  (forall i j, (i < p)%nat -> (j < q)%nat ->
     wfb (B i j) = true /\ size1 (B i j) = s1 /\ size2 (B i j) = s2) ->
  exists R, blockcat (map (fun i => map (fun j => B i j) (seq 0 q)) (seq 0 p)) = Ok R /\
    size1 R = (p * s1)%nat /\ size2 R = (q * s2)%nat /\
    forall r c, (r < p * s1)%nat -> (c < q * s2)%nat ->
      entry R r c = entry (B (r / s1) (c / s2)) (r mod s1) (c mod s2).
Proof. intros T. exact blockcat_grid. Qed.

Lemma blockcat_uniform_entries_witness :
  exists R, blockcat [[of_cols 1 [[(0, 1%Z)]]; of_cols 1 [[(0, 2%Z)]]];
                      [of_cols 1 [[(0, 3%Z)]]; of_cols 1 [[]]]] = Ok R /\
    size1 R = 2%nat /\ size2 R = 2%nat /\ entry R 1 0 = Some 3%Z.
Proof.
  set (B := fun i j : nat => nth j (nth i [[of_cols 1 [[(0, 1%Z)]]; of_cols 1 [[(0, 2%Z)]]];
                                   [of_cols 1 [[(0, 3%Z)]]; of_cols 1 [[]]]] []) empty_matrix).
  destruct (blockcat_uniform_entries 1 1 B 2 2) as (R & E & S1 & S2 & En); [lia|lia| |].
  - intros i j Hi Hj.
    destruct i as [|[|i]]; [| |lia]; (destruct j as [|[|j]]; [| |lia]);
      split; reflexivity || (split; reflexivity).
  - exists R. split; [exact E|]. split; [exact S1|]. split; [exact S2|].
    rewrite En by lia. reflexivity.
Defined.

(** [kron(a, b)] for [a] with at least one row and one column and blocks
    [a(i,j)*b] shaped like [b]: the result is [size1 a * size1 b] by
    [size2 a * size2 b], and its entry (r, c) is the entry
    (r mod size1 b, c mod size2 b) of [a(i,j)*b] for (i, j) =
    (r / size1 b, c / size2 b) when [a] has a nonzero there, and a structural
    zero otherwise. *)
Theorem kron_entries : forall {T} (scale : T -> matrix T -> matrix T) (a b : matrix T),
  wfb b = true -> (1 <= size1 a)%nat -> (1 <= size2 a)%nat ->
  (forall i j x, (i < size1 a)%nat -> (j < size2 a)%nat -> entry a i j = Some x ->
     wfb (scale x b) = true /\ size1 (scale x b) = size1 b /\ size2 (scale x b) = size2 b) ->
  exists R, kron scale a b = Ok R /\
    size1 R = (size1 a * size1 b)%nat /\ size2 R = (size2 a * size2 b)%nat /\
    forall r c, (r < size1 a * size1 b)%nat -> (c < size2 a * size2 b)%nat ->
      entry R r c = match entry a (r / size1 b) (c / size2 b) with
                    | Some x => entry (scale x b) (r mod size1 b) (c mod size2 b)
                    | None => None
                    end.
Proof.
  intros T scale a b Wb H1 H2 Hs.
  set (B := fun i j => match entry a i j with
                       | Some x => scale x b
                       | None => sparse_matrix (size1 b) (size2 b) end).
  destruct (blockcat_grid (size1 b) (size2 b) B (size1 a) (size2 a) H1 H2)
    as (R & E & S1 & S2 & En).
  { intros i j Hi Hj. unfold B. destruct (entry a i j) as [x|] eqn:Ex.
    - apply (Hs i j x Hi Hj Ex).
    - split; [apply wfb_sparse | split; [reflexivity | apply repeat_length]]. }
  exists R. split; [exact E|]. split; [exact S1|]. split; [exact S2|].
  intros r c Hr Hc. rewrite En by assumption. unfold B.
  destruct (entry a _ _); [reflexivity | apply entry_sparse].
Qed.

Lemma kron_entries_witness :
  exists R, kron (fun x M => of_cols (size1 M)
                    (map (map (fun p => (fst p, (x * snd p)%Z))) (cols M)))
              (of_cols 2 [[(0, 2%Z)]; [(0, 3%Z); (1, 4%Z)]]) (of_cols 1 [[(0, 5%Z)]; []]) = Ok R /\
    size1 R = 2%nat /\ size2 R = 4%nat /\ entry R 1 2 = Some 20%Z.
Proof.
  destruct (kron_entries (fun x M => of_cols (size1 M)
                    (map (map (fun p => (fst p, (x * snd p)%Z))) (cols M)))
              (of_cols 2 [[(0, 2%Z)]; [(0, 3%Z); (1, 4%Z)]]) (of_cols 1 [[(0, 5%Z)]; []]))
    as (R & E & S1 & S2 & En); [reflexivity|cbn; lia|cbn; lia| |].
  - intros i j x Hi Hj Ex. split; [reflexivity | split; reflexivity].
  - exists R. split; [exact E|]. split; [exact S1|]. split; [exact S2|].
    rewrite En by (cbn; lia). reflexivity.
Defined.

(** [kron(a, b)] for [a] without rows or without columns is the 0-by-0
    matrix, whatever [b] is. *)
Theorem kron_degenerate : forall {T} (scale : T -> matrix T -> matrix T) (a b : matrix T),
  (size1 a = 0 \/ size2 a = 0)%nat -> kron scale a b = Ok empty_matrix.
Proof.
  intros T scale a b [E|E]; unfold kron, blockcat; rewrite E.
  - reflexivity.
  - rewrite (res_mapM_map _ _ (fun _ => empty_matrix)) by reflexivity.
    rewrite map_const, length_seq. cbn [res_bind]. apply vertcat_repeat_empty.
Qed.

Lemma kron_degenerate_witness :
  kron (fun x M => M) (of_cols 2 []) (of_cols 1 [[(0, 5%Z)]; []]) = Ok empty_matrix.
Proof. apply kron_degenerate. right. reflexivity. Defined.

(** [blockcat(A, B, C, D)] is [blockcat] of the grid [[A, B], [C, D]]. *)
Theorem blockcat4_blockcat : forall {T} (A B C D : matrix T),
  blockcat4 A B C D = blockcat [[A; B]; [C; D]].
Proof.
  intros T A B C D. unfold blockcat4, blockcat, horzcat2, vertcat2, vertcat, horzcat.
  cbn [res_mapM fold_left res_bind].
  replace (appendColumns empty_matrix A) with (Ok A) by reflexivity.
  replace (appendColumns empty_matrix C) with (Ok C) by reflexivity.
  cbn [res_bind]. destruct (appendColumns A B) as [AB|e]; [|reflexivity].
  destruct (appendColumns C D) as [CD|e]; [|reflexivity].
  cbn [res_bind].
  replace (appendColumns empty_matrix (transpose AB)) with (Ok (transpose AB)) by reflexivity.
  reflexivity.
Qed.

(** [mul] of a list multiplies from the left: adding a factor at the end of
    a non-empty list multiplies the previous product by it. *)
Theorem mul_list_snoc : forall {T} (mul : matrix T -> matrix T -> res (matrix T)) l b,
  l <> [] -> mul_list mul (l ++ [b]) = res_bind (mul_list mul l) (fun r => mul r b).
Proof.
  intros T mul l b H. destruct l as [|a0 [|a1 rest]]; [contradiction|reflexivity|].
  cbn [app mul_list]. rewrite fold_left_app. reflexivity.
Qed.

Lemma mul_list_snoc_witness :
  mul_list (fun x y => Ok (transpose y)) ([empty_matrix (T:=Z); of_cols 1 [[(0, 1%Z)]]] ++
    [of_cols 2 [[(1, 2%Z)]]])
  = res_bind (mul_list (fun x y => Ok (transpose y)) [empty_matrix; of_cols 1 [[(0, 1%Z)]]])
      (fun r => Ok (transpose (of_cols 2 [[(1, 2%Z)]]))).
Proof. apply (mul_list_snoc (fun x y => Ok (transpose y))). discriminate. Defined.

Section AddMultipleZ.

Local Abbreviation sumZ := (fold_right Z.add 0%Z).

Lemma sumZ_app : forall l1 l2, sumZ (l1 ++ l2) = (sumZ l1 + sumZ l2)%Z.
Proof. intros l1 l2. induction l1 as [|x l1 IH]; cbn; lia. Qed.

Lemma sumZ_plus : forall {A} (f g : A -> Z) l,
  sumZ (map (fun x => f x + g x)%Z l) = (sumZ (map f l) + sumZ (map g l))%Z.
Proof. intros A f g l. induction l as [|x l IH]; cbn; lia. Qed.

Lemma sumZ_zero : forall {A} (f : A -> Z) l, (forall x, In x l -> f x = 0%Z) -> sumZ (map f l) = 0%Z.
Proof.
  intros A f l. induction l as [|x l IH]; intros H; [reflexivity|].
  cbn. rewrite H by (left; reflexivity). rewrite IH by (intros; apply H; right; assumption).
  reflexivity.
Qed.

Lemma sumZ_ext_in : forall {A} (f g : A -> Z) l, (forall x, In x l -> f x = g x) ->
  sumZ (map f l) = sumZ (map g l).
Proof. intros A f g l H. f_equal. apply map_ext_in, H. Qed.

Lemma sumZ_flat_map : forall {A B} (f : B -> Z) (g : A -> list B) l,
  sumZ (map f (flat_map g l)) = sumZ (map (fun x => sumZ (map f (g x))) l).
Proof.
  intros A B f g l. induction l as [|x l IH]; [reflexivity|].
  cbn [flat_map map fold_right]. rewrite map_app, sumZ_app, IH. reflexivity.
Qed.

Lemma sumZ_swap : forall {A B} (h : A -> B -> Z) la lb,
  sumZ (map (fun a => sumZ (map (fun b => h a b) lb)) la)
  = sumZ (map (fun b => sumZ (map (fun a => h a b) la)) lb).
Proof.
  intros A B h la lb. induction la as [|a la IH]; cbn [map fold_right].
  - symmetry. apply sumZ_zero. reflexivity.
  - rewrite IH, <- sumZ_plus. reflexivity.
Qed.

(** A sum over [seq] picking out one index. *)
Lemma sumZ_seq_indicator : forall (Y : nat -> Z) n i0, (i0 < n)%nat ->
  sumZ (map (fun i => if (i =? i0)%nat then Y i else 0%Z) (seq 0 n)) = Y i0.
Proof.
  intros Y n i0 H. replace n with (i0 + (1 + (n - S i0)))%nat by lia.
  rewrite !seq_app, !map_app, !sumZ_app. cbn [seq map fold_right].
  rewrite Nat.add_0_l, Nat.eqb_refl.
  rewrite (sumZ_zero _ (seq 0 i0)), (sumZ_zero _ (seq (i0 + 1) _)); [lia| |].
  - intros i Hi. apply in_seq in Hi. destruct (Nat.eqb_spec i i0); [lia|reflexivity].
  - intros i Hi. apply in_seq in Hi. destruct (Nat.eqb_spec i i0); [lia|reflexivity].
Qed.

Lemma sumZ_key_absent : forall (g : Z -> Z) j (c : list (nat * Z)),
  Forall (fun p => fst p <> j) c ->
  sumZ (map (fun p => if (fst p =? j)%nat then g (snd p) else 0%Z) c) = 0%Z.
Proof.
  intros g j c H. apply sumZ_zero. intros p Hp. rewrite Forall_forall in H.
  specialize (H p Hp). destruct (Nat.eqb_spec (fst p) j); [contradiction|reflexivity].
Qed.

(** In a column with strictly increasing rows, the nonzeros of row [j]
    sum to the entry at row [j]. *)
Lemma col_sum_single : forall (g : Z -> Z) j (c : list (nat * Z)),
  StronglySorted (fun p q => fst p < fst q)%nat c ->
  sumZ (map (fun p => if (fst p =? j)%nat then g (snd p) else 0%Z) c)
  = match col_entry c j with Some x => g x | None => 0%Z end.
Proof.
  intros g j c. induction c as [|p c IH]; intros H; [reflexivity|].
  apply StronglySorted_inv in H as [Hs F]. cbn [map fold_right].
  unfold col_entry. cbn [find]. destruct (Nat.eqb_spec (fst p) j) as [E|E].
  - rewrite sumZ_key_absent; [lia|]. eapply Forall_impl; [|exact F]. cbn. lia.
  - rewrite IH by exact Hs. unfold col_entry. lia.
Qed.

(** [res[k] += w] on an index inside the vector. *)
Lemma add_at_Z : forall (l : list Z) k w, (k < List.length l)%nat ->
  exists l', add_at Z.add l k w = Ok l' /\ List.length l' = List.length l /\
    forall j, nth j l' 0%Z = (nth j l 0 + if Nat.eqb j k then w else 0)%Z.
Proof.
  intros l k w H. unfold add_at. rewrite (nth_error_nth' _ 0%Z H).
  eexists. split; [reflexivity|]. split.
  - rewrite length_app, length_firstn. cbn [List.length]. rewrite length_skipn. lia.
  - intros j. assert (Lf : List.length (firstn k l) = k) by (rewrite length_firstn; lia).
    destruct (Nat.ltb_spec j k) as [Hj|Hj].
    + rewrite app_nth1 by lia. rewrite nth_firstn.
      destruct (Nat.ltb_spec j k); [|lia]. destruct (Nat.eqb_spec j k); [lia|]. lia.
    + rewrite app_nth2 by lia. rewrite Lf.
      destruct (Nat.eqb_spec j k) as [->|Hne].
      * rewrite Nat.sub_diag. reflexivity.
      * destruct (j - k)%nat as [|t] eqn:Et; [lia|]. cbn [nth].
        rewrite nth_skipn. replace (S k + t)%nat with j by lia. lia.
Qed.

(** A sequence of [res[k] += w] updates. *)
Lemma fold_add_at : forall (L : list (nat * Z)) r0,
  Forall (fun p => fst p < List.length r0)%nat L ->
  exists r, fold_left (fun acc p => res_bind acc (fun r => add_at Z.add r (fst p) (snd p))) L (Ok r0)
            = Ok r /\ List.length r = List.length r0 /\
    forall k, nth k r 0%Z = (nth k r0 0 + sumZ (map (fun p => if (fst p =? k)%nat then snd p else 0) L))%Z.
Proof.
  induction L as [|p L IH]; intros r0 H.
  - exists r0. split; [reflexivity|]. split; [reflexivity|]. intros k. cbn. lia.
  - apply Forall_cons_iff in H as [Hp HL].
    destruct (add_at_Z r0 (fst p) (snd p) Hp) as (r1 & E1 & L1 & N1).
    cbn [fold_left res_bind]. rewrite E1.
    destruct (IH r1) as (r & E & Lr & Nr); [rewrite L1; exact HL|].
    exists r. split; [exact E|]. split; [lia|].
    intros k. rewrite Nr, N1. cbn [map fold_right].
    destruct (Nat.eqb_spec k (fst p)), (Nat.eqb_spec (fst p) k); lia.
Qed.


Lemma nth_ci_from : forall (cs : list (list (nat * Z))) a i, (i <= List.length cs)%nat ->
  nth i (ci_from a cs) 0%nat = (a + List.length (List.concat (firstn i cs)))%nat.
Proof.
  induction cs as [|c cs IH]; intros a i H.
  - destruct i; [cbn; lia|cbn in H; lia].
  - destruct i as [|i]; [cbn; lia|].
    cbn [ci_from nth firstn List.concat]. rewrite IH by (cbn in H; lia).
    rewrite length_app. lia.
Qed.

Lemma length_concat_firstn_S : forall (cs : list (list (nat * Z))) i, (i < List.length cs)%nat ->
  List.length (List.concat (firstn (S i) cs))
  = (List.length (List.concat (firstn i cs)) + List.length (nth i cs []))%nat.
Proof.
  induction cs as [|c cs IH]; intros i H; [cbn in H; lia|].
  destruct i as [|i].
  - cbn. rewrite !app_nil_r. reflexivity.
  - rewrite !firstn_cons. cbn [List.concat nth].
    rewrite !length_app, IH by (cbn in H; lia). lia.
Qed.

Lemma nth_error_concat_col : forall (cs : list (list (nat * Z))) i t,
  (i < List.length cs)%nat -> (t < List.length (nth i cs []))%nat ->
  nth_error (List.concat cs) (List.length (List.concat (firstn i cs)) + t)
  = nth_error (nth i cs []) t.
Proof.
  induction cs as [|c cs IH]; intros i t Hi Ht; [cbn in Hi; lia|].
  destruct i as [|i].
  - cbn [firstn List.concat nth List.length]. cbn [List.concat] in *.
    rewrite nth_error_app1 by exact Ht. reflexivity.
  - rewrite firstn_cons. cbn [List.concat nth]. cbn [nth] in Ht.
    rewrite length_app, nth_error_app2 by lia.
    replace (List.length c + List.length (List.concat (firstn i cs)) + t - List.length c)%nat
      with (List.length (List.concat (firstn i cs)) + t)%nat by lia.
    apply IH; [cbn in Hi; lia | exact Ht].
Qed.

Lemma fold_left_ext_in' : forall {A B} (f g : A -> B -> A) l a,
  (forall acc x, In x l -> f acc x = g acc x) -> fold_left f l a = fold_left g l a.
Proof.
  intros A B f g l. induction l as [|x l IH]; intros a H; [reflexivity|].
  cbn [fold_left]. rewrite H by (left; reflexivity).
  apply IH. intros acc y Hy. apply H. right. exact Hy.
Qed.

Lemma fold_left_flat_map : forall {A B C} (f : A -> C -> A) (g : B -> list C) l a,
  fold_left f (flat_map g l) a = fold_left (fun acc x => fold_left f (g x) acc) l a.
Proof.
  intros A B C f g l. induction l as [|x l IH]; intros a; [reflexivity|].
  cbn [flat_map fold_left]. rewrite fold_left_app. apply IH.
Qed.

Lemma fold_left_map' : forall {A B C} (f : A -> C -> A) (g : B -> C) l a,
  fold_left f (map g l) a = fold_left (fun acc x => f acc (g x)) l a.
Proof. intros A B C f g l. induction l as [|x l IH]; intros a; [reflexivity|]. apply IH. Qed.

Lemma in_pair_cols : forall (cs : list (list (nat * Z))) n ip,
  In ip (flat_map (fun i => map (pair i) (nth i cs [])) (seq 0 n)) ->
  (fst ip < n)%nat /\ In (snd ip) (nth (fst ip) cs []).
Proof.
  intros cs n ip H. apply in_flat_map in H as (i & Hi & H).
  apply in_map_iff in H as (p & <- & Hp). apply in_seq in Hi. cbn. split; [lia|exact Hp].
Qed.

(** The loop over the nonzeros [el] of one column reads its (row, value)
    pairs in order. *)
Lemma inner_loop : forall (rw : list nat) (dt : list Z) (G : nat -> Z -> list Z -> res (list Z))
    (c : list (nat * Z)) o acc,
  (forall t, (t < List.length c)%nat ->
     nth_error rw (o + t) = option_map fst (nth_error c t) /\
     nth_error dt (o + t) = option_map snd (nth_error c t)) ->
  fold_left (fun acc' el => res_bind acc' (fun r =>
      match nth_error rw el, nth_error dt el with
      | Some j, Some x => G j x r
      | _, _ => Err IndexError
      end)) (seq o (List.length c)) acc
  = fold_left (fun acc' p => res_bind acc' (G (fst p) (snd p))) c acc.
Proof.
  intros rw dt G c. induction c as [|p c IH]; intros o acc H; [reflexivity|].
  cbn [List.length seq fold_left].
  destruct (H 0%nat ltac:(cbn; lia)) as [E1 E2]. rewrite Nat.add_0_r in E1, E2.
  rewrite E1, E2. cbn [nth_error option_map].
  apply IH. intros t Ht. replace (S o + t)%nat with (o + S t)%nat by lia.
  apply (H (S t)). cbn. lia.
Qed.

(** The two nested loops of [addMultiple] over a matrix built from its
    columns visit the nonzeros column by column. *)
Lemma double_loop_of_cols : forall n1 (cs : list (list (nat * Z)))
    (G : nat -> nat -> Z -> list Z -> res (list Z)) acc,
  let A := of_cols n1 cs in
  fold_left (fun acc i =>
      fold_left (fun acc' el => res_bind acc' (fun r =>
          match nth_error (row A) el, nth_error (data A) el with
          | Some j, Some x => G i j x r
          | _, _ => Err IndexError
          end))
        (seq (nth i (colind A) 0) (nth (S i) (colind A) 0 - nth i (colind A) 0)) acc)
    (seq 0 (List.length cs)) acc
  = fold_left (fun acc ip => res_bind acc (G (fst ip) (fst (snd ip)) (snd (snd ip))))
      (flat_map (fun i => map (pair i) (nth i cs [])) (seq 0 (List.length cs))) acc.
Proof.
  intros n1 cs G acc A. rewrite fold_left_flat_map.
  apply fold_left_ext_in'. intros acc' i Hi. apply in_seq in Hi.
  unfold A. cbn [colind row data of_cols].
  rewrite !nth_ci_from by lia. rewrite length_concat_firstn_S by lia.
  replace (0 + (List.length (List.concat (firstn i cs)) + List.length (nth i cs [])) -
           (0 + List.length (List.concat (firstn i cs))))%nat
    with (List.length (nth i cs [])) by lia.
  rewrite fold_left_map'. cbn [fst snd].
  apply inner_loop. intros t Ht.
  rewrite <- !concat_map, !nth_error_map, Nat.add_0_l, nth_error_concat_col by lia.
  split; reflexivity.
Qed.

End AddMultipleZ.

(** [addMultiple(A, v, res, trans_A)] over the integers, with the sizes
    it asserts: with [trans_A] it adds to [res[j]] the sum over the columns
    [i] of [v[i]*A(j,i)], i.e. [res + A v]; without it, it adds to [res[i]]
    the sum over the rows [j] of [v[j]*A(j,i)], i.e. [res + A^T v]. The
    result has the length of [res]. *)
Theorem addMultiple_sums : forall (A : matrix Z) (v res0 : list Z), wfb A = true ->
  (List.length v = size2 A -> List.length res0 = size1 A ->
   exists r, addMultiple Z.add Z.mul A v res0 true = Ok r /\ List.length r = size1 A /\
     forall j, (j < size1 A)%nat ->
       nth j r 0%Z = (nth j res0 0 + fold_right Z.add 0
                        (map (fun i => nth i v 0 * elem 0 A j i) (seq 0 (size2 A))))%Z) /\
  (List.length v = size1 A -> List.length res0 = size2 A ->
   exists r, addMultiple Z.add Z.mul A v res0 false = Ok r /\ List.length r = size2 A /\
     forall i, (i < size2 A)%nat ->
       nth i r 0%Z = (nth i res0 0 + fold_right Z.add 0
                        (map (fun j => nth j v 0 * elem 0 A j i) (seq 0 (size1 A))))%Z).
Proof.
  intros A v res0 W.
  pose proof (wfb_cols_ok A W) as Hok. pose proof (length_cols_wf A W) as L.
  pose proof (of_cols_cols A W) as EA.
  remember (size1 A) as s1. remember (cols A) as cs. clear Heqs1 Heqcs L W. subst A.
  cbn [size1 size2 of_cols].
  split; intros Hv Hr; unfold addMultiple; cbn [size1 size2 of_cols]; rewrite Hv, Hr, !Nat.eqb_refl;
    cbn [negb orb].
  - rewrite (double_loop_of_cols s1 cs (fun i j x r =>
      match nth_error v i with Some vi => add_at Z.add r j (vi * x)%Z | None => Err IndexError end)).
    set (L := flat_map _ _).
    set (h := fun ip : nat * (nat * Z) => (fst (snd ip), (nth (fst ip) v 0 * snd (snd ip))%Z)).
    rewrite (fold_left_ext_in' _ (fun acc ip => res_bind acc (fun r => add_at Z.add r (fst (h ip)) (snd (h ip))))).
    2:{ intros acc ip Hip. apply in_pair_cols in Hip as [Hi _].
        rewrite (nth_error_nth' v 0%Z) by lia. reflexivity. }
    rewrite <- (fold_left_map' (fun acc p => res_bind acc (fun r => add_at Z.add r (fst p) (snd p)))).
    destruct (fold_add_at (map h L) res0) as (r & E & Lr & Nr).
    { apply Forall_map, Forall_forall. intros ip Hip. apply in_pair_cols in Hip as [Hi Hp].
      unfold cols_ok in Hok. rewrite Forall_forall in Hok.
      destruct (Hok _ (nth_In cs [] Hi)) as [_ Hb]. rewrite Forall_forall in Hb.
      cbn. rewrite Hr. apply Hb, Hp. }
    exists r. split; [exact E|]. split; [lia|].
    intros j Hj. rewrite Nr. f_equal. unfold L. rewrite map_map, sumZ_flat_map.
    apply sumZ_ext_in. intros i Hi. apply in_seq in Hi.
    rewrite map_map. cbn [h fst snd].
    rewrite (col_sum_single (Z.mul (nth i v 0%Z)) j).
    2:{ unfold cols_ok in Hok. rewrite Forall_forall in Hok.
        assert (Hin : In (nth i cs []) cs) by (apply nth_In; lia). exact (proj1 (Hok _ Hin)). }
    unfold elem. rewrite entry_of_cols. destruct (col_entry _ _); lia.
  - rewrite (double_loop_of_cols s1 cs (fun i j x r =>
      match nth_error v j with Some vj => add_at Z.add r i (vj * x)%Z | None => Err IndexError end)).
    set (L := flat_map _ _).
    set (h := fun ip : nat * (nat * Z) => (fst ip, (nth (fst (snd ip)) v 0 * snd (snd ip))%Z)).
    assert (HL : forall ip, In ip L -> (fst ip < List.length cs)%nat /\ (fst (snd ip) < s1)%nat /\
                             In (snd ip) (nth (fst ip) cs [])).
    { intros ip Hip. apply in_pair_cols in Hip as [Hi Hp]. split; [exact Hi|]. split; [|exact Hp].
      unfold cols_ok in Hok. rewrite Forall_forall in Hok.
      destruct (Hok _ (nth_In cs [] Hi)) as [_ Hb]. rewrite Forall_forall in Hb. apply Hb, Hp. }
    rewrite (fold_left_ext_in' _ (fun acc ip => res_bind acc (fun r => add_at Z.add r (fst (h ip)) (snd (h ip))))).
    2:{ intros acc ip Hip. destruct (HL ip Hip) as (_ & Hj & _).
        rewrite (nth_error_nth' v 0%Z) by lia. reflexivity. }
    rewrite <- (fold_left_map' (fun acc p => res_bind acc (fun r => add_at Z.add r (fst p) (snd p)))).
    destruct (fold_add_at (map h L) res0) as (r & E & Lr & Nr).
    { apply Forall_map, Forall_forall. intros ip Hip. destruct (HL ip Hip) as (Hi & _).
      cbn. lia. }
    exists r. split; [exact E|]. split; [lia|].
    intros i0 Hi0. rewrite Nr. f_equal. unfold L. rewrite map_map, sumZ_flat_map.
    rewrite (sumZ_ext_in _ (fun i => if (i =? i0)%nat then
               fold_right Z.add 0%Z (map (fun p => nth (fst p) v 0 * snd p)%Z (nth i cs [])) else 0%Z)).
    2:{ intros i _. rewrite map_map. cbn [h fst snd].
        destruct (Nat.eqb_spec i i0); [reflexivity|]. apply sumZ_zero. intros p _. reflexivity. }
    rewrite sumZ_seq_indicator by lia.
    assert (Hc : StronglySorted (fun p q : nat * Z => (fst p < fst q)%nat) (nth i0 cs []) /\
                 Forall (fun p : nat * Z => (fst p < s1)%nat) (nth i0 cs [])).
    { unfold cols_ok in Hok. rewrite Forall_forall in Hok. apply Hok, nth_In. lia. }
    destruct Hc as [Hs Hb]. set (c := nth i0 cs []) in *.
    rewrite (sumZ_ext_in _ (fun p => fold_right Z.add 0%Z (map (fun j =>
               if (j =? fst p)%nat then (nth (fst p) v 0 * snd p)%Z else 0%Z) (seq 0 s1)))).
    2:{ intros p Hp. rewrite Forall_forall in Hb.
        rewrite (sumZ_seq_indicator (fun _ => (nth (fst p) v 0 * snd p)%Z)) by (apply Hb, Hp).
        reflexivity. }
    rewrite (sumZ_swap (fun p j => if (j =? fst p)%nat then (nth (fst p) v 0 * snd p)%Z else 0%Z)).
    apply sumZ_ext_in. intros j _.
    rewrite (sumZ_ext_in _ (fun p => if (fst p =? j)%nat then (nth j v 0 * snd p)%Z else 0%Z)).
    2:{ intros p _. rewrite Nat.eqb_sym. destruct (Nat.eqb_spec (fst p) j) as [->|]; reflexivity. }
    rewrite (col_sum_single (Z.mul (nth j v 0%Z)) j c Hs).
    unfold elem. rewrite entry_of_cols. fold c. destruct (col_entry c j); lia.
Qed.

Lemma addMultiple_sums_witness :
  (exists r, addMultiple Z.add Z.mul (of_cols 2 [[(0, 1%Z); (1, 2%Z)]; [(1, 3%Z)]; [(0, 4%Z)]])
               [1; 10; 100]%Z [0; 0]%Z true = Ok r /\ r = [401; 32]%Z) /\
  (exists r, addMultiple Z.add Z.mul (of_cols 2 [[(0, 1%Z); (1, 2%Z)]; [(1, 3%Z)]; [(0, 4%Z)]])
               [1; 10]%Z [0; 0; 0]%Z false = Ok r /\ r = [21; 30; 4]%Z).
Proof.
  destruct (addMultiple_sums (of_cols 2 [[(0, 1%Z); (1, 2%Z)]; [(1, 3%Z)]; [(0, 4%Z)]])
              [1; 10; 100]%Z [0; 0]%Z eq_refl) as [H1 _].
  destruct (addMultiple_sums (of_cols 2 [[(0, 1%Z); (1, 2%Z)]; [(1, 3%Z)]; [(0, 4%Z)]])
              [1; 10]%Z [0; 0; 0]%Z eq_refl) as [_ H2].
  destruct (H1 eq_refl eq_refl) as (r1 & E1 & L1 & N1).
  destruct (H2 eq_refl eq_refl) as (r2 & E2 & L2 & N2).
  split.
  - exists r1. split; [exact E1|].
    destruct r1 as [|a [|b [|]]]; cbn in L1; try discriminate.
    f_equal.
    + exact (N1 0%nat ltac:(cbn; lia)).
    + f_equal. exact (N1 1%nat ltac:(cbn; lia)).
  - exists r2. split; [exact E2|].
    destruct r2 as [|a [|b [|c [|]]]]; cbn in L2; try discriminate.
    f_equal; [|f_equal; [|f_equal]].
    + exact (N2 0%nat ltac:(cbn; lia)).
    + exact (N2 1%nat ltac:(cbn; lia)).
    + exact (N2 2%nat ltac:(cbn; lia)).
Defined.

(** [det] of a dense 3-by-3 integer matrix [[a, b, c], [d, e, f], [g, h, i]]
    expands along row 0: it makes 3 [cofactor] calls, each on a 2-by-2 minor
    evaluated by the closed formula, and returns
    [a(ei - fh) - b(di - fg) + c(dh - eg)]. *)
Theorem det_dense3 : forall (fuel : nat) (a b c d e f g h i : Z),
  det 0%Z 1%Z Z.add Z.sub Z.mul (fun z => z) (S (S fuel))
    (of_cols 3 [[(0, a); (1, d); (2, g)]; [(0, b); (1, e); (2, h)]; [(0, c); (1, f); (2, i)]])
  = Ok ((a * (e * i - f * h) - b * (d * i - f * g) + c * (d * h - e * g))%Z, 3).
Proof.
  intros. cbn -[Z.add Z.sub Z.mul].
  change ((0 + 0) mod 2)%Z with 0%Z. change ((1 + 0) mod 2)%Z with 1%Z.
  change ((2 + 0) mod 2)%Z with 0%Z.
  f_equal. f_equal. ring.
Qed.

End MatExtras.
